(** * Accumulator merge ([accumulate.py]): a heap model and its properties

    The module under study combines "accumulatables" -- values that are
    addable, set-like or mapping-like -- either into a new object ([add]),
    or in place ([iadd]), and folds a sequence of them ([accumulate]).

    Its specification speaks of object identity, of mutation and of
    aliasing, so the embedding keeps a store: objects live in a heap, a
    Python reference is a location, and every operation threads the heap. *)

From Stdlib Require Import ZArith Lia.
From stdpp Require Import base option list strings gmap.

#[local] Set Warnings "-register-all".
Open Scope Z_scope.

(** ** Objects, classes and the heap *)

Abbreviation loc := nat.

(** The mapping classes of the model: [dict] and three of its subclasses. *)
Inductive dict_class := Dict | OrderedDict | DefaultDict | Counter.

(** Runtime types, [type(x)]. *)
Inductive pytype :=
| TInt | TStr | TNoneType | TList | TSet
| TMap (c : dict_class).

(** Heap objects.  [int], [str] and [None] are immutable; lists, sets and
    mappings are mutable and hold references.  Mapping keys are strings and
    the association list keeps the insertion order; set elements are
    integers. *)
Inductive obj :=
| OInt (z : Z)
| OStr (s : string)
| ONone
| OList (items : list loc)
| OSet (elems : gset Z)
| ODict (cls : dict_class) (items : list (string * loc)).

Abbreviation heap := (list obj).

#[global] Instance dict_class_eq_dec : EqDecision dict_class.
Proof. solve_decision. Defined.
#[global] Instance pytype_eq_dec : EqDecision pytype.
Proof. solve_decision. Defined.

Definition type_of (o : obj) : pytype :=
  match o with
  | OInt _ => TInt
  | OStr _ => TStr
  | ONone => TNoneType
  | OList _ => TList
  | OSet _ => TSet
  | ODict c _ => TMap c
  end.

(** [issubclass t u]: every class is its own subclass, and [OrderedDict],
    [defaultdict] and [Counter] derive from [dict]. *)
Definition issubclass (t u : pytype) : bool :=
  match t, u with
  | TMap _, TMap Dict => true
  | _, _ => bool_decide (t = u)
  end.

(** [isinstance(o, t)] for a class [t]. *)
Definition isinstance (o : obj) (t : pytype) : bool := issubclass (type_of o) t.

(** [isinstance(o, Addable)]: the runtime-checkable protocol asks for an
    [__add__] attribute; [int], [str], [list] and [Counter] have one,
    [dict], [OrderedDict], [defaultdict], [set] and [None] do not. *)
Definition is_Addable (o : obj) : bool :=
  match o with
  | OInt _ | OStr _ | OList _ | ODict Counter _ => true
  | _ => false
  end.

(** [isinstance(o, MutableSet)] *)
Definition is_MutableSet (o : obj) : bool :=
  match o with OSet _ => true | _ => false end.

(** [isinstance(o, MutableMapping)] *)
Definition is_MutableMapping (o : obj) : bool :=
  match o with ODict _ _ => true | _ => false end.

(** Objects that no operation can change. *)
Definition atomic (o : obj) : bool :=
  match o with OInt _ | OStr _ | ONone => true | _ => false end.

(** ** Exceptions and the result monad *)

(** The two messages of the [ValueError]s raised by the module. *)
Inductive msg :=
| TwoMappings     (* "Cannot add two mappings of incompatible type" *)
| Accumulators.   (* "Cannot add accumulators of incompatible type" *)

Inductive exn :=
| ValueError (m : msg) (ta tb : pytype)
    (* the module's own error; the message names both runtime types *)
| OperandError
    (* TypeError or AttributeError raised inside an operand's own
       [+], [+=], [|] or [|=] *)
| KeyError
| RuntimeError    (* "dictionary changed size during iteration" *)
| Dangling        (* a reference to no object: not a Python state *)
| OutOfFuel.      (* recursion deeper than the fuel given *)

Inductive result (A : Type) :=
| Ok (x : A)
| Err (e : exn).
Arguments Ok {A} x.
Arguments Err {A} e.

Definition bind {A B} (m : result A) (k : A → result B) : result B :=
  match m with
  | Ok x => k x
  | Err e => Err e
  end.

Notation "'let*' x ':=' m 'in' k" := (bind m (fun x => k))
  (at level 10, x pattern, m at level 100, k at level 200).

Definition is_Ok {A} (m : result A) : Prop := ∃ x, m = Ok x.

(** ** Heap primitives *)

Definition deref (h : heap) (l : loc) : result obj :=
  match h !! l with
  | Some o => Ok o
  | None => Err Dangling
  end.

Definition alloc (h : heap) (o : obj) : heap * loc := (h ++ [o], length h).

(** Allocate one object per element of [os], in order. *)
Definition alloc_list (h : heap) (os : list obj) : heap * list loc :=
  (h ++ os, seq (length h) (length os)).

Definition store (h : heap) (l : loc) (o : obj) : heap := <[l := o]> h.

(** *** Association lists in insertion order *)

Fixpoint assoc {A} (k : string) (items : list (string * A)) : option A :=
  match items with
  | [] => None
  | (k', v) :: rest => if decide (k = k') then Some v else assoc k rest
  end.

(** [d[k] = v] on the items: an existing key keeps its place, a new key
    goes to the end. *)
Fixpoint assoc_set {A} (k : string) (v : A) (items : list (string * A))
  : list (string * A) :=
  match items with
  | [] => [(k, v)]
  | (k', v') :: rest =>
      if decide (k = k') then (k, v) :: rest
      else (k', v') :: assoc_set k v rest
  end.

Definition keys_of (o : obj) : list string :=
  match o with
  | ODict _ items => items.*1
  | _ => []
  end.

(** [d[key]] *)
Definition getitem (h : heap) (d : loc) (key : string) : result loc :=
  let* o := deref h d in
  match o with
  | ODict _ items =>
      match assoc key items with
      | Some v => Ok v
      | None => Err KeyError
      end
  | _ => Err OperandError
  end.

(** [d[key] = v] *)
Definition setitem (h : heap) (d : loc) (key : string) (v : loc) : result heap :=
  let* o := deref h d in
  match o with
  | ODict c items => Ok (store h d (ODict c (assoc_set key v items)))
  | _ => Err OperandError
  end.

(** [copy.copy(x)]: a new object of the same class with the same content. *)
Definition copy_copy (h : heap) (x : loc) : result (heap * loc) :=
  let* o := deref h x in Ok (alloc h o).

(** [d.clear()] *)
Definition clear (h : heap) (d : loc) : result heap :=
  let* o := deref h d in
  match o with
  | ODict c _ => Ok (store h d (ODict c []))
  | _ => Err OperandError
  end.

(** [len(d)] of a mapping. *)
Definition dict_size (h : heap) (d : loc) : option nat :=
  match h !! d with
  | Some (ODict _ items) => Some (length items)
  | _ => None
  end.

(** [for key in d: body]: the keys are visited in insertion order; the
    body may rebind existing keys, but the iterator raises when it finds
    that the mapping has changed size. *)
Fixpoint iterate (d : loc) (n : nat) (body : heap → string → result heap)
    (ks : list string) (h : heap) : result heap :=
  match ks with
  | [] => Ok h
  | k :: ks =>
      let* h := body h k in
      if decide (dict_size h d = Some n) then iterate d n body ks h
      else Err RuntimeError
  end.

Definition for_keys (d : loc) (h : heap) (body : heap → string → result heap)
  : result heap :=
  let* o := deref h d in
  iterate d (length (keys_of o)) body (keys_of o) h.

Fixpoint foldM {A S} (f : S → A → result S) (xs : list A) (s : S) : result S :=
  match xs with
  | [] => Ok s
  | x :: xs => let* s := f s x in foldM f xs s
  end.

(** ** The operands' own operators *)

Definition int_at (h : heap) (l : loc) : result Z :=
  let* o := deref h l in
  match o with
  | OInt z => Ok z
  | _ => Err OperandError
  end.

(** [c[elem]] on the items of a [Counter]: a missing element counts zero
    ([Counter.__missing__]). *)
Definition count_at (h : heap) (items : list (string * loc)) (elem : string)
  : result Z :=
  match assoc elem items with
  | Some l => int_at h l
  | None => Ok 0
  end.

(** [Counter.__add__]: add the counts of [self] and [other], keep the
    positive ones ([self]'s elements first, then those only in [other]).
    Counts that are not integers make [+] or [> 0] raise. *)
Definition Counter_add (h : heap) (self other : list (string * loc))
  : result (heap * loc) :=
  let* (h, res) :=
    foldM (fun '(h, res) '(elem, c) =>
             let* x := int_at h c in
             let* y := count_at h other elem in
             if 0 <? x + y then
               let '(h, l) := alloc h (OInt (x + y)) in
               Ok (h, assoc_set elem l res)
             else Ok (h, res))
          self (h, []) in
  let* res :=
    foldM (fun res '(elem, c) =>
             match assoc elem self with
             | Some _ => Ok res
             | None =>
                 let* y := int_at h c in
                 if 0 <? y then Ok (assoc_set elem c res) else Ok res
             end)
          other res in
  Ok (alloc h (ODict Counter res)).

(** [Counter._keep_positive] on the items. *)
Fixpoint keep_positive (h : heap) (items : list (string * loc))
  : result (list (string * loc)) :=
  match items with
  | [] => Ok []
  | (elem, c) :: rest =>
      let* z := int_at h c in
      let* rest := keep_positive h rest in
      Ok (if 0 <? z then (elem, c) :: rest else rest)
  end.

(** [Counter.__iadd__]: [self[elem] += count] for each item of [other],
    then drop the counts that are not positive; [self] is returned. *)
Definition Counter_iadd (h : heap) (a : loc) (self other : list (string * loc))
  : result (heap * loc) :=
  let* (h, items) :=
    foldM (fun '(h, items) '(elem, c) =>
             let* x := count_at h items elem in
             let* y := int_at h c in
             let '(h, l) := alloc h (OInt (x + y)) in
             Ok (h, assoc_set elem l items))
          other (h, self) in
  let* items := keep_positive h items in
  Ok (store h a (ODict Counter items), a).

(** [operator.add(a, b)], that is [a + b].  The result is put at a new
    location.  For a list this is what Python does.  For an [int] or a
    [str] the interpreter may return an object that exists already; these
    are immutable, so that only a test of identity tells the
    difference. *)
Definition operator_add (h : heap) (a b : loc) : result (heap * loc) :=
  let* oa := deref h a in
  let* ob := deref h b in
  match oa, ob with
  | OInt x, OInt y => Ok (alloc h (OInt (x + y)))
  | OStr x, OStr y => Ok (alloc h (OStr (x +:+ y)))
  | OList xs, OList ys => Ok (alloc h (OList (xs ++ ys)))
  | ODict Counter xs, ODict Counter ys => Counter_add h xs ys
  | _, _ => Err OperandError
  end.

(** The one-character strings of [s], as iterating a [str] yields them. *)
Fixpoint chars (s : string) : list string :=
  match s with
  | EmptyString => []
  | String c s => String c EmptyString :: chars s
  end.

(** [operator.iadd(a, b)], that is [a += b].  [int] and [str] have no
    [__iadd__], so [+] is used and a new object is returned.
    [list.__iadd__] extends the list by the elements of any iterable and
    returns the list itself. *)
Definition operator_iadd (h : heap) (a b : loc) : result (heap * loc) :=
  let* oa := deref h a in
  let* ob := deref h b in
  match oa, ob with
  | OInt _, _ | OStr _, _ => operator_add h a b
  | OList xs, OList ys => Ok (store h a (OList (xs ++ ys)), a)
  | OList xs, OStr s =>
      let '(h, ls) := alloc_list h (OStr <$> chars s) in
      Ok (store h a (OList (xs ++ ls)), a)
  | OList xs, ODict _ ys =>
      let '(h, ls) := alloc_list h (OStr <$> ys.*1) in
      Ok (store h a (OList (xs ++ ls)), a)
  | ODict Counter xs, ODict Counter ys => Counter_iadd h a xs ys
  | _, _ => Err OperandError
  end.

(** [operator.or_(a, b)], that is [a | b], on sets. *)
Definition operator_or (h : heap) (a b : loc) : result (heap * loc) :=
  let* oa := deref h a in
  let* ob := deref h b in
  match oa, ob with
  | OSet x, OSet y => Ok (alloc h (OSet (x ∪ y)))
  | _, _ => Err OperandError
  end.

(** [operator.ior(a, b)], that is [a |= b], on sets: in place. *)
Definition operator_ior (h : heap) (a b : loc) : result (heap * loc) :=
  let* oa := deref h a in
  let* ob := deref h b in
  match oa, ob with
  | OSet x, OSet y => Ok (store h a (OSet (x ∪ y)), a)
  | _, _ => Err OperandError
  end.

(** ** [copy.deepcopy] *)

(** The memo of one [deepcopy] call: original location, copy. *)
Abbreviation memo := (list (loc * loc)).

Fixpoint memo_get (m : memo) (x : loc) : option loc :=
  match m with
  | [] => None
  | (x', y) :: m => if decide (x = x') then Some y else memo_get m x
  end.

(** [y.append(v)] *)
Definition list_append (h : heap) (y v : loc) : result heap :=
  let* o := deref h y in
  match o with
  | OList items => Ok (store h y (OList (items ++ [v])))
  | _ => Err OperandError
  end.

(** [copy.deepcopy(x, memo)].  An object already in the memo is not copied
    again; atomic objects are returned as they are; a container gets a new
    empty shell of its class, recorded in the memo, which is then filled
    with the copies of its content. *)
Fixpoint deepcopy_memo (fuel : nat) (h : heap) (m : memo) (x : loc)
  : result (heap * memo * loc) :=
  match fuel with
  | O => Err OutOfFuel
  | S fuel =>
      match memo_get m x with
      | Some y => Ok (h, m, y)
      | None =>
          let* o := deref h x in
          match o with
          | OInt _ | OStr _ | ONone => Ok (h, m, x)
          | OSet s =>
              let '(h, y) := alloc h (OSet s) in
              Ok (h, (x, y) :: m, y)
          | OList items =>
              let '(h, y) := alloc h (OList []) in
              let* (h, m) :=
                foldM (fun '(h, m) item =>
                         let* (h, m, v) := deepcopy_memo fuel h m item in
                         let* h := list_append h y v in
                         Ok (h, m))
                      items (h, (x, y) :: m) in
              Ok (h, m, y)
          | ODict c items =>
              let '(h, y) := alloc h (ODict c []) in
              let* (h, m) :=
                foldM (fun '(h, m) '(key, value) =>
                         let* (h, m, v) := deepcopy_memo fuel h m value in
                         let* h := setitem h y key v in
                         Ok (h, m))
                      items (h, (x, y) :: m) in
              Ok (h, m, y)
          end
      end
  end.

Definition deepcopy (fuel : nat) (h : heap) (x : loc) : result (heap * loc) :=
  let* (h, _, y) := deepcopy_memo fuel h [] x in
  Ok (h, y).

(** ** The module: [add], [iadd], [accumulate] *)

(** [add(a, b)]: add two accumulatables together, without altering
    inputs. *)
Fixpoint add (fuel : nat) (h : heap) (a b : loc) : result (heap * loc) :=
  match fuel with
  | O => Err OutOfFuel
  | S fuel =>
      let* oa := deref h a in
      let* ob := deref h b in
      if is_Addable oa && is_Addable ob then operator_add h a b
      else if is_MutableSet oa && is_MutableSet ob then operator_or h a b
      else if is_MutableMapping oa && is_MutableMapping ob then
        (* capture type(X) by shallow copy and clear *)
        let* (h, out) :=
          if isinstance ob (type_of oa) then copy_copy h a
          else if isinstance oa (type_of ob) then copy_copy h b
          else Err (ValueError TwoMappings (type_of oa) (type_of ob)) in
        let* h := clear h out in
        let lhs := keys_of oa in
        let rhs := keys_of ob in
        let* h :=
          for_keys a h (fun h key =>
            if bool_decide (key ∈ rhs) then
              let* va := getitem h a key in
              let* vb := getitem h b key in
              let* (h, v) := add fuel h va vb in
              setitem h out key v
            else
              let* va := getitem h a key in
              let* (h, v) := deepcopy fuel h va in
              setitem h out key v) in
        let* h :=
          for_keys b h (fun h key =>
            if bool_decide (key ∉ lhs) then
              let* vb := getitem h b key in
              let* (h, v) := deepcopy fuel h vb in
              setitem h out key v
            else Ok h) in
        Ok (h, out)
      else Err (ValueError Accumulators (type_of oa) (type_of ob))
  end.

(** [iadd(a, b)]: add two accumulatables together, assuming the first is
    mutable. *)
Fixpoint iadd (fuel : nat) (h : heap) (a b : loc) : result (heap * loc) :=
  match fuel with
  | O => Err OutOfFuel
  | S fuel =>
      let* oa := deref h a in
      let* ob := deref h b in
      if is_Addable oa && is_Addable ob then operator_iadd h a b
      else if is_MutableSet oa && is_MutableSet ob then operator_ior h a b
      else if is_MutableMapping oa && is_MutableMapping ob then
        if negb (isinstance ob (type_of oa)) then
          Err (ValueError TwoMappings (type_of oa) (type_of ob))
        else
          let lhs := keys_of oa in
          let rhs := keys_of ob in
          let* h :=
            for_keys a h (fun h key =>
              if bool_decide (key ∈ rhs) then
                let* va := getitem h a key in
                let* vb := getitem h b key in
                let* (h, v) := iadd fuel h va vb in
                setitem h a key v
              else Ok h) in
          let* h :=
            for_keys b h (fun h key =>
              if bool_decide (key ∉ lhs) then
                let* vb := getitem h b key in
                let* (h, v) := deepcopy fuel h vb in
                setitem h a key v
              else Ok h) in
          Ok (h, a)
      else Err (ValueError Accumulators (type_of oa) (type_of ob))
  end.

(** The loop [while True: accum = iadd(accum, next(gen))]: it ends when
    [next] raises [StopIteration], which [accumulate] catches. *)
Fixpoint iadd_loop (fuel : nat) (h : heap) (accum : loc) (gen : list loc)
  : result (heap * loc) :=
  match gen with
  | [] => Ok (h, accum)
  | x :: gen =>
      let* (h, accum) := iadd fuel h accum x in
      iadd_loop fuel h accum gen
  end.

(** [accumulate(items, accum)].  [items] and [accum] hold optional
    references, [None] standing for Python's [None]; the generator [gen]
    yields the items that are not [None]. *)
Definition accumulate (fuel : nat) (h : heap) (items : list (option loc))
    (accum : option loc) : result (heap * option loc) :=
  let gen := omap id items in
  match accum with
  | None =>
      match gen with
      | [] => Ok (h, None)               (* first [next]: StopIteration *)
      | x :: gen =>
          match gen with
          | [] => Ok (h, Some x)         (* second [next]: StopIteration *)
          | y :: gen =>
              let* (h, accum) := add fuel h x y in
              let* (h, accum) := iadd_loop fuel h accum gen in
              Ok (h, Some accum)
          end
      end
  | Some accum =>
      let* (h, accum) := iadd_loop fuel h accum gen in
      Ok (h, Some accum)
  end.

(** ** Values: what a reference denotes *)

Inductive pyval :=
| VInt (z : Z)
| VStr (s : string)
| VNone
| VList (vs : list pyval)
| VSet (elems : gset Z)
| VDict (cls : dict_class) (items : list (string * pyval)).

(** The value reachable from [l], read down to depth [n]; a mapping whose
    association list repeats a key denotes no value. *)
Fixpoint view (n : nat) (h : heap) (l : loc) : option pyval :=
  match n with
  | O => None
  | S n =>
      match h !! l with
      | None => None
      | Some (OInt z) => Some (VInt z)
      | Some (OStr s) => Some (VStr s)
      | Some ONone => Some VNone
      | Some (OSet s) => Some (VSet s)
      | Some (OList items) => VList <$> mapM (view n h) items
      | Some (ODict c items) =>
          if decide (NoDup items.*1) then
            VDict c <$> mapM (fun '(k, v) => pair k <$> view n h v) items
          else None
      end
  end.

(** ** Frames *)

(** [frame n h h']: the heap has not shrunk and the objects at the
    locations below [n] are the same. *)
Definition frame (n : nat) (h h' : heap) : Prop :=
  (length h ≤ length h')%nat ∧ ∀ l, (l < n)%nat → h' !! l = h !! l.

(** ** References and reachability *)

(** The references an object holds. *)
Definition children (o : obj) : list loc :=
  match o with
  | OList items => items
  | ODict _ items => items.*2
  | _ => []
  end.

(** The references a mapping holds as values: the only references that
    [iadd] follows. *)
Definition dict_values (o : obj) : list loc :=
  match o with
  | ODict _ items => items.*2
  | _ => []
  end.

(** [reach h l l']: [l'] can be reached from [l] through references. *)
Inductive reach (h : heap) : loc → loc → Prop :=
| reach_refl l : reach h l l
| reach_step l o c l' :
    h !! l = Some o → c ∈ children o → reach h c l' → reach h l l'.

Definition atomic_at (h : heap) (l : loc) : Prop :=
  ∃ o, h !! l = Some o ∧ atomic o = true.

Definition type_at (h : heap) (l : loc) : option pytype := type_of <$> h !! l.

(** ** The same operations on values *)

Definition val_type (v : pyval) : pytype :=
  match v with
  | VInt _ => TInt
  | VStr _ => TStr
  | VNone => TNoneType
  | VList _ => TList
  | VSet _ => TSet
  | VDict c _ => TMap c
  end.

Definition val_Addable (v : pyval) : bool :=
  match v with
  | VInt _ | VStr _ | VList _ | VDict Counter _ => true
  | _ => false
  end.

Definition val_MutableSet (v : pyval) : bool :=
  match v with VSet _ => true | _ => false end.

Definition val_MutableMapping (v : pyval) : bool :=
  match v with VDict _ _ => true | _ => false end.

Definition int_val (v : pyval) : result Z :=
  match v with
  | VInt z => Ok z
  | _ => Err OperandError
  end.

Definition count_val (items : list (string * pyval)) (elem : string) : result Z :=
  match assoc elem items with
  | Some v => int_val v
  | None => Ok 0
  end.

(** The sum of two [Counter]s: counts are added, only positive counts are
    kept, the elements of the first come first. *)
Definition Counter_add_val (self other : list (string * pyval)) : result pyval :=
  let* res :=
    foldM (fun res '(elem, c) =>
             let* x := int_val c in
             let* y := count_val other elem in
             if 0 <? x + y then Ok (assoc_set elem (VInt (x + y)) res)
             else Ok res)
          self [] in
  let* res :=
    foldM (fun res '(elem, c) =>
             match assoc elem self with
             | Some _ => Ok res
             | None =>
                 let* y := int_val c in
                 if 0 <? y then Ok (assoc_set elem c res) else Ok res
             end)
          other res in
  Ok (VDict Counter res).

(** [a + b] on values. *)
Definition operator_add_val (a b : pyval) : result pyval :=
  match a, b with
  | VInt x, VInt y => Ok (VInt (x + y))
  | VStr x, VStr y => Ok (VStr (x +:+ y))
  | VList xs, VList ys => Ok (VList (xs ++ ys))
  | VDict Counter xs, VDict Counter ys => Counter_add_val xs ys
  | _, _ => Err OperandError
  end.

(** The class of the merge of two mappings: the class of the operand whose
    class the other one is an instance of. *)
Definition merge_class (ca cb : dict_class) : result dict_class :=
  if issubclass (TMap cb) (TMap ca) then Ok ca
  else if issubclass (TMap ca) (TMap cb) then Ok cb
  else Err (ValueError TwoMappings (TMap ca) (TMap cb)).

(** The combination of two accumulatables, on values: both addable, their
    sum; both sets, their union; both mappings of compatible classes, the
    mapping that has the keys of [a] in [a]'s order, then the keys only in
    [b] in [b]'s order, where a key of both holds the combination of its
    two values and a key of one side holds that side's value. *)
Fixpoint add_val (a b : pyval) {struct a} : result pyval :=
  if val_Addable a && val_Addable b then operator_add_val a b
  else
    match a, b with
    | VSet x, VSet y => Ok (VSet (x ∪ y))
    | VDict ca ia, VDict cb ib =>
        let* c := merge_class ca cb in
        let* res :=
          foldM (fun res '(k, x) =>
                   match assoc k ib with
                   | Some y =>
                       let* z := add_val x y in
                       Ok (assoc_set k z res)
                   | None => Ok (assoc_set k x res)
                   end)
                ia [] in
        Ok (VDict c
              (foldl (fun res '(k, y) =>
                        if bool_decide (k ∉ ia.*1) then assoc_set k y res
                        else res)
                     res ib))
    | _, _ => Err (ValueError Accumulators (val_type a) (val_type b))
    end.

(** ** Copies *)

(** [rel h0 m x y]: in a deep copy of objects of [h0] with memo [m], the
    reference [y] stands for [x]: it is the copy recorded in the memo, or
    [x] itself when [x] is atomic. *)
Definition rel (h0 : heap) (m : memo) (x y : loc) : Prop :=
  memo_get m x = Some y ∨ (x = y ∧ atomic_at h0 x).

(** [copy_of h0 h m s t]: the object at [t] in [h] is the container at [s]
    in [h0] with every reference replaced by what stands for it. *)
Definition copy_of (h0 h : heap) (m : memo) (s t : loc) : Prop :=
  match h0 !! s, h !! t with
  | Some (OList items), Some (OList items') => Forall2 (rel h0 m) items items'
  | Some (ODict c items), Some (ODict c' items') =>
      c = c' ∧
      Forall2 (fun kv kv' => kv.1 = kv'.1 ∧ rel h0 m kv.2 kv'.2) items items'
  | Some (OSet e), Some (OSet e') => e = e'
  | _, _ => False
  end.

(** The memo of a copy in progress: every copy is a new object, and every
    container outside of [P] (those being filled) is copied whole. *)
Definition memo_inv (h0 h : heap) (m : memo) (P : loc → Prop) : Prop :=
  ∀ s t, memo_get m s = Some t →
    (length h0 ≤ t < length h)%nat ∧ (¬ P s → copy_of h0 h m s t).

(** A memo only grows. *)
Definition memo_ext (m m' : memo) : Prop :=
  ∀ s t, memo_get m s = Some t → memo_get m' s = Some t.

(** ** Refinement of a specification on values *)

(** [refines R m spec]: the computation [m] fails exactly as [spec] does,
    and returns a result related to that of [spec]. *)
Definition refines {A B} (R : A → B → Prop) (m : result A) (spec : result B)
  : Prop :=
  match spec with
  | Ok b => ∃ a, m = Ok a ∧ R a b
  | Err e => m = Err e
  end.

(** [agree lo hi h h']: the two heaps hold the same objects at the
    locations from [lo] up to [hi]. *)
Definition agree (lo hi : nat) (h h' : heap) : Prop :=
  ∀ l, (lo ≤ l < hi)%nat → h' !! l = h !! l.

(** [robust n h0 lo hi h c z]: the reference [c] has value [z] in every
    heap that keeps the objects of [h0] and those of [h] between [lo] and
    [hi]. *)
Definition robust (n : nat) (h0 : heap) (lo hi : nat) (h : heap) (c : loc)
    (z : pyval) : Prop :=
  ∀ h', frame (length h0) h0 h' → agree lo hi h h' → view n h' c = Some z.

Definition items_robust (n : nat) (h0 : heap) (lo hi : nat) (h : heap)
    (res : list (string * loc)) (resv : list (string * pyval)) : Prop :=
  Forall2 (fun kc kz => kc.1 = kz.1 ∧ robust n h0 lo hi h kc.2 kz.2) res resv.

(** What [add] on references owes to [add_val] on their values: the call
    only allocates, and the result has the value computed. *)
Definition returns_val (n : nat) (h0 h : heap) (hr : heap * loc) (v : pyval)
  : Prop :=
  frame (length h) h hr.1 ∧ robust n h0 (length h) (length hr.1) hr.1 hr.2 v.

(** ** Example heaps *)

(** [a = {x: 1, y: 2}] at location 2 and [b = {y: 10, z: 3}] at
    location 5. *)
Definition heap_xy_yz : heap :=
  [ OInt 1; OInt 2; ODict Dict [("x"%string, 0%nat); ("y"%string, 1%nat)];
    OInt 10; OInt 3; ODict Dict [("y"%string, 3%nat); ("z"%string, 4%nat)] ].

(** [a = {a: {x: 1}}] at location 2 and [b = {a: {x: 2, y: 5}}] at
    location 6. *)
Definition heap_nested : heap :=
  [ OInt 1; ODict Dict [("x"%string, 0%nat)]; ODict Dict [("a"%string, 1%nat)];
    OInt 2; OInt 5; ODict Dict [("x"%string, 3%nat); ("y"%string, 4%nat)];
    ODict Dict [("a"%string, 5%nat)] ].

(** ** Folds *)

(** [reduce f [x1; ...; xn]] is [f (... (f x1 x2) ...) xn]. *)
Definition reduce {A} (f : A → A → A) (xs : list A) : option A :=
  match xs with
  | [] => None
  | x :: xs => Some (foldl f x xs)
  end.

Definition sum_Z (zs : list Z) : Z := foldr Z.add 0 zs.

(** Three integers at locations 0, 1 and 2. *)
Definition heap_ints : heap := [OInt 5; OInt 7; OInt (-2)].

(** ** Categories *)

(** The two operands share one of the three categories. *)
Definition same_category (oa ob : obj) : bool :=
  is_Addable oa && is_Addable ob
  || is_MutableSet oa && is_MutableSet ob
  || is_MutableMapping oa && is_MutableMapping ob.

(** Both are mappings and neither is an instance of the other's class. *)
Definition unrelated_mappings (oa ob : obj) : bool :=
  is_MutableMapping oa && is_MutableMapping ob
  && negb (isinstance ob (type_of oa)) && negb (isinstance oa (type_of ob)).

Definition val_same_category (a b : pyval) : bool :=
  val_Addable a && val_Addable b
  || val_MutableSet a && val_MutableSet b
  || val_MutableMapping a && val_MutableMapping b.

(** The category of one value, checking addable first, then set-like, then
    mapping-like. *)
Inductive category := Addable | SetLike | MappingLike.

Definition category_of (o : obj) : option category :=
  if is_Addable o then Some Addable
  else if is_MutableSet o then Some SetLike
  else if is_MutableMapping o then Some MappingLike
  else None.

(** [incompatible a b e]: combining the values [a] and [b] meets the
    type incompatibility [e]: at [a] and [b] themselves, which share no
    category or are mappings of unrelated classes; or, when they are
    mappings that are merged, at the two values of a key of both, every
    key of both before it having combined. *)
Inductive incompatible : pyval → pyval → exn → Prop :=
| inc_category a b :
    val_same_category a b = false →
    incompatible a b (ValueError Accumulators (val_type a) (val_type b))
| inc_classes ca ia cb ib e :
    val_Addable (VDict ca ia) && val_Addable (VDict cb ib) = false →
    merge_class ca cb = Err e →
    incompatible (VDict ca ia) (VDict cb ib) e
| inc_nested ca ia cb ib pre k x suf y e :
    val_Addable (VDict ca ia) && val_Addable (VDict cb ib) = false →
    is_Ok (merge_class ca cb) →
    ia = pre ++ (k, x) :: suf →
    assoc k ib = Some y →
    (∀ k' x' y', (k', x') ∈ pre → assoc k' ib = Some y' →
                 is_Ok (add_val x' y')) →
    incompatible x y e →
    incompatible (VDict ca ia) (VDict cb ib) e.

(** [a = {k: 1}] at location 1 and [b = {k: {}}] at location 3. *)
Definition heap_k_mismatch : heap :=
  [ OInt 1; ODict Dict [("k"%string, 0%nat)];
    ODict Dict []; ODict Dict [("k"%string, 2%nat)] ].

(** [a = Counter({x: 1, y: -1})] at location 2, [b = Counter({x: 2})] at
    location 4 and [c = {x: 2, y: 5}], a plain [dict], at location 7. *)
Definition heap_counters : heap :=
  [ OInt 1; OInt (-1);
    ODict Counter [("x"%string, 0%nat); ("y"%string, 1%nat)];
    OInt 2; ODict Counter [("x"%string, 3%nat)];
    OInt 2; OInt 5; ODict Dict [("x"%string, 5%nat); ("y"%string, 6%nat)] ].

(** ** Regions *)

(** [closed_region lo hi h]: the objects at the locations from [lo] up to
    [hi] hold references to one another and to atomic objects only. *)
Definition closed_region (lo hi : nat) (h : heap) : Prop :=
  ∀ l o c, (lo ≤ l < hi)%nat → h !! l = Some o → c ∈ children o →
           (lo ≤ c < hi)%nat ∨ atomic_at h c.

Definition in_region (lo hi : nat) (h : heap) (z : loc) : Prop :=
  (lo ≤ z < hi)%nat ∨ atomic_at h z.

(** [keeps_atoms h h']: the atomic objects of [h] are in [h']. *)
Definition keeps_atoms (h h' : heap) : Prop :=
  ∀ l, atomic_at h l → atomic_at h' l.

(** [d[key]] as a partial function of the heap. *)
Definition slot (h : heap) (d : loc) (key : string) : option loc :=
  match h !! d with
  | Some (ODict _ items) => assoc key items
  | _ => None
  end.

(** [dreach h l l']: [l'] can be reached from [l] through mapping values. *)
Inductive dreach (h : heap) : loc → loc → Prop :=
| dreach_refl l : dreach h l l
| dreach_step l key c l' :
    slot h l key = Some c → dreach h c l' → dreach h l l'.

(** ** How [iadd] may change the heap *)

(** [evo h h']: the heap has not shrunk; every object has kept its type,
    and its content when it is atomic; a mapping holds under a key what it
    held, or a new object, or an atomic one; a mapping other than a
    [Counter] has kept its keys, in order, and the type of what it holds
    under each. *)
Definition evo (h h' : heap) : Prop :=
  (length h ≤ length h')%nat
  ∧ (∀ l o, h !! l = Some o →
       ∃ o', h' !! l = Some o' ∧ type_of o' = type_of o
             ∧ (atomic o = true → o' = o))
  ∧ (∀ x key y, slot h' x key = Some y →
       slot h x key = Some y ∨ (length h ≤ y)%nat ∨ atomic_at h' y)
  ∧ (∀ x c items, h !! x = Some (ODict c items) → c ≠ Counter →
       ∃ items', h' !! x = Some (ODict c items')
                 ∧ items.*1 `prefix_of` items'.*1)
  ∧ (∀ x c items key y y' o, h !! x = Some (ODict c items) → c ≠ Counter →
       slot h x key = Some y → slot h' x key = Some y' → h !! y = Some o →
       type_at h' y' = Some (type_of o)).

(** What [iadd] returns: its first operand, or a new atomic object. *)
Definition returned (h h' : heap) (a r : loc) : Prop :=
  (r = a ∨ ((length h ≤ r)%nat ∧ atomic_at h' r))
  ∧ ∀ o, h !! a = Some o → type_at h' r = Some (type_of o).

(** ** Footprints *)

(** [k] is the first key of [lhs] that is a key of [rhs] as well. *)
Definition first_shared_key (k : string) (lhs rhs : list string) : Prop :=
  ∃ pre suf, lhs = pre ++ k :: suf ∧ k ∈ rhs ∧ ∀ j, j ∈ pre → j ∉ rhs.

(** [touched h a b l]: [l] is [a], or can be reached through mapping
    values from what [a] holds under a key of [b]: the objects that
    [iadd(a, b)] may change. *)
Definition touched (h : heap) (a b l : loc) : Prop :=
  l = a ∨ ∃ k x, slot h a k = Some x ∧ is_Some (slot h b k) ∧ dreach h x l.

(** [a = {k: [1, 2]}] at location 3 and [b = {}] at location 4. *)
Definition heap_list_payload : heap :=
  [ OInt 1; OInt 2; OList [0%nat; 1%nat];
    ODict Dict [("k"%string, 2%nat)]; ODict Dict [] ].

(** [isolated lo h z]: [z] is atomic, or lies in a closed region of [h]
    that starts at [lo] or above. *)
Definition isolated (lo : nat) (h : heap) (z : loc) : Prop :=
  ∃ lo' hi, (lo ≤ lo')%nat ∧ (hi ≤ length h)%nat
            ∧ closed_region lo' hi h ∧ in_region lo' hi h z.



(** ** What the accumulator owns *)

(** [dclosed lo hi h r]: the objects reached from [r] through mapping
    values lie from [lo] up to [hi], or are atomic. *)
Definition dclosed (lo hi : nat) (h : heap) (r : loc) : Prop :=
  ∀ l, dreach h r l → in_region lo hi h l.

(** [changes_within D h h']: an object of [h] that is outside [D], or
    atomic, is in [h'] as it was. *)
Definition changes_within (D : loc → Prop) (h h' : heap) : Prop :=
  ∀ l o, h !! l = Some o → ¬ D l ∨ atomic o = true → h' !! l = Some o.

(** [owned D h0 h r]: what is reached from [r] through mapping values is
    in [D], or was allocated after [h0], or is atomic. *)
Definition owned (D : loc → Prop) (h0 h : heap) (r : loc) : Prop :=
  ∀ l, dreach h r l → D l ∨ (length h0 ≤ l)%nat ∨ atomic_at h l.

(** ** Mappings of integers *)

(** The keys of the mapping at [d], in order. *)
Definition keys_at (h : heap) (d : loc) : list string :=
  match h !! d with
  | Some o => keys_of o
  | None => []
  end.

(** The integer that the mapping at [d] holds under [k]. *)
Definition int_slot (h : heap) (d : loc) (k : string) : option Z :=
  match slot h d k with
  | Some x => match h !! x with Some (OInt z) => Some z | _ => None end
  | None => None
  end.

(** [d] is a mapping of class [c] whose values are integers. *)
Definition int_mapping (h : heap) (d : loc) (c : dict_class) : Prop :=
  ∃ items, h !! d = Some (ODict c items) ∧ NoDup items.*1
           ∧ ∀ k x, assoc k items = Some x → ∃ z, h !! x = Some (OInt z).

(** The sum of two optional counts: an absent one counts for nothing. *)
Definition sum_slots (x y : option Z) : option Z :=
  match x, y with
  | Some a, Some b => Some (a + b)
  | Some a, None => Some a
  | None, y => y
  end.

(** The state in the first loop of [iadd(a, b)] on two mappings of
    integers with items [ia] and [ib], after the keys [pre]: the objects
    other than [a] are as in the heap [h] of the start; [a] has its keys,
    and holds, under a key of [pre] that is a key of [b], a new integer,
    the sum of the two, and under any other key what it held. *)
Definition shared_done (h : heap) (a : loc) (ca : dict_class)
    (ia ib : list (string * loc)) (pre : list string) (hc : heap) : Prop :=
  (length h ≤ length hc)%nat
  ∧ (∀ l, (l < length h)%nat → l ≠ a → hc !! l = h !! l)
  ∧ ∃ items,
      hc !! a = Some (ODict ca items) ∧ items.*1 = ia.*1
      ∧ ∀ k x, assoc k ia = Some x →
          (k ∈ pre → ∀ y, assoc k ib = Some y →
             ∃ z zx zy, assoc k items = Some z
               ∧ hc !! z = Some (OInt (zx + zy))
               ∧ h !! x = Some (OInt zx) ∧ h !! y = Some (OInt zy))
          ∧ ((k ∈ pre → assoc k ib = None) → assoc k items = Some x).

(** The state in the second loop, which started in [h1] where [a] had the
    items [items1], after the keys [pre] of [b]: the objects other than
    [a] are as in [h1]; [a] has in addition the keys of [pre] that it
    lacked, with what [b] holds under them. *)
Definition new_done (h1 : heap) (a : loc) (ca : dict_class)
    (items1 ib : list (string * loc)) (pre : list string) (hc : heap) : Prop :=
  length hc = length h1
  ∧ (∀ l, l ≠ a → hc !! l = h1 !! l)
  ∧ ∃ items,
      hc !! a = Some (ODict ca items)
      ∧ items.*1 = items1.*1 ++ filter (fun k => k ∉ items1.*1) pre
      ∧ (∀ k, k ∈ items1.*1 → assoc k items = assoc k items1)
      ∧ (∀ k, k ∈ pre → k ∉ items1.*1 → assoc k items = assoc k ib).

(** ** Values up to the order of keys *)

(** [val_equiv v w]: the values [v] and [w] are equal up to the order of
    the keys of the mappings in them. *)
Inductive val_equiv : pyval → pyval → Prop :=
| ve_int z : val_equiv (VInt z) (VInt z)
| ve_str s : val_equiv (VStr s) (VStr s)
| ve_none : val_equiv VNone VNone
| ve_set s : val_equiv (VSet s) (VSet s)
| ve_list vs ws : Forall2 val_equiv vs ws → val_equiv (VList vs) (VList ws)
| ve_dict c ia ib :
    (∀ k, option_Forall2 val_equiv (assoc k ia) (assoc k ib)) →
    val_equiv (VDict c ia) (VDict c ib).

(** Values made of integers, sets and mappings other than [Counter]s:
    those whose combination does not depend on the order of the operands
    ([str] and [list] are concatenated, in order). *)
Fixpoint commutes (v : pyval) : bool :=
  match v with
  | VInt _ | VSet _ => true
  | VDict c items =>
      bool_decide (c ≠ Counter) && forallb (fun '(_, x) => commutes x) items
  | _ => false
  end.

(** ** What a [ValueError] says *)

(** The categories of the objects of a type. *)
Definition addable_type (t : pytype) : bool :=
  match t with TInt | TStr | TList | TMap Counter => true | _ => false end.

Definition set_type (t : pytype) : bool :=
  match t with TSet => true | _ => false end.

Definition mapping_type (t : pytype) : bool :=
  match t with TMap _ => true | _ => false end.

(** Objects of the types [ta] and [tb] share none of the categories. *)
Definition no_common_category (ta tb : pytype) : bool :=
  negb (addable_type ta && addable_type tb
        || set_type ta && set_type tb
        || mapping_type ta && mapping_type tb).

(** Objects of the types [ta] and [tb] are merged as mappings. *)
Definition merged_as_mappings (ta tb : pytype) : bool :=
  mapping_type ta && mapping_type tb
  && negb (addable_type ta && addable_type tb).

Definition is_ValueError (e : exn) : bool :=
  match e with ValueError _ _ _ => true | _ => false end.

(** ** The shared keys before a mismatch *)

(** The first loop of [iadd], [for key in a: if key in rhs: a[key] =
    iadd(a[key], b[key])], run over the keys [ks]: [n] is the size of [a]
    when the loop starts and [rhs] holds the keys of [b]. *)
Definition iadd_shared_loop (fuel : nat) (a b : loc) (rhs : list string)
    (n : nat) (ks : list string) (h : heap) : result heap :=
  iterate a n
    (fun h key =>
       if bool_decide (key ∈ rhs) then
         let* va := getitem h a key in
         let* vb := getitem h b key in
         let* (h, v) := iadd fuel h va vb in
         setitem h a key v
       else Ok h)
    ks h.

(** [a = {j: 1, k: None}] at location 2 and [b = {j: 's', k: None}] at
    location 4; [None] is one object, at location 1. *)
Definition heap_j_str_k : heap :=
  [ OInt 1; ONone;
    ODict Dict [("j"%string, 0%nat); ("k"%string, 1%nat)];
    OStr "s";
    ODict Dict [("j"%string, 3%nat); ("k"%string, 1%nat)] ].

(** [a = {j: 1, k: None}] at location 2 and [b = {j: 2, k: None}] at
    location 4. *)
Definition heap_j_int_k : heap :=
  [ OInt 1; ONone;
    ODict Dict [("j"%string, 0%nat); ("k"%string, 1%nat)];
    OInt 2;
    ODict Dict [("j"%string, 3%nat); ("k"%string, 1%nat)] ].

(** * Properties *)

(** ** Basic facts *)

Lemma bind_Ok {A B} (m : result A) (k : A → result B) (y : B) :
  bind m k = Ok y ↔ ∃ x, m = Ok x ∧ k x = Ok y.
Proof.
  destruct m as [x|e]; simpl; split.
  - eauto.
  - by intros (? & [= ->] & ?).
  - done.
  - by intros (? & ? & ?).
Qed.

Lemma deref_Ok (h : heap) l o : deref h l = Ok o ↔ h !! l = Some o.
Proof. unfold deref. destruct (h !! l); split; congruence. Qed.

Lemma deref_lookup (h : heap) l o : h !! l = Some o → deref h l = Ok o.
Proof. apply deref_Ok. Qed.

(** Take apart a hypothesis saying that a monadic computation returned. *)
Ltac inv_res :=
  repeat match goal with
    | H : Ok _ = Ok _ |- _ => injection H as H; subst
    | H : Err _ = Ok _ |- _ => discriminate H
    | H : Ok _ = Err _ |- _ => discriminate H
    | H : (_, _) = (_, _) |- _ => injection H as ? H; subst
    | H : bind _ _ = Ok _ |- _ =>
        let x := fresh "x" in
        apply bind_Ok in H; destruct H as (x & ? & H)
    | x : (_ * _)%type |- _ => destruct x
    | H : deref _ _ = Ok _ |- _ => apply deref_Ok in H
    | H : alloc _ _ = (_, _) |- _ => unfold alloc in H
    end.

Section assoc.
Context {A : Type}.
Implicit Types (items : list (string * A)) (k : string) (v : A).

Lemma assoc_None k items : assoc k items = None ↔ k ∉ items.*1.
Proof.
  induction items as [|[k' v'] items IH]; simpl.
  - split; [intros _; apply not_elem_of_nil | done].
  - rewrite not_elem_of_cons. destruct (decide (k = k')) as [->|Hne].
    + split; [done|]. by intros [? _].
    + rewrite IH. split; [done|]. by intros [_ ?].
Qed.

Lemma assoc_Some_elem k v items : assoc k items = Some v → (k, v) ∈ items.
Proof.
  induction items as [|[k' v'] items IH]; simpl; [done|].
  destruct (decide (k = k')) as [->|].
  - intros [= ->]. left.
  - intros. right. auto.
Qed.

Lemma assoc_is_Some k items : is_Some (assoc k items) ↔ k ∈ items.*1.
Proof.
  rewrite <- not_eq_None_Some, assoc_None.
  destruct (decide (k ∈ items.*1)) as [Hin|Hin]; split; try done.
  by intros H; contradict H.
Qed.

Lemma assoc_elem_NoDup k v items :
  NoDup items.*1 → (k, v) ∈ items → assoc k items = Some v.
Proof.
  induction items as [|[k' v'] items IH]; simpl.
  - by intros _ ?%elem_of_nil.
  - intros [Hk Hnd]%NoDup_cons [[= -> ->]|Hin]%elem_of_cons.
    + by rewrite decide_True.
    + rewrite decide_False; [auto|]. intros ->. apply Hk.
      apply list_elem_of_fmap. by exists (k', v).
Qed.

Lemma assoc_set_eq k v items : assoc k (assoc_set k v items) = Some v.
Proof.
  induction items as [|[k' v'] items IH]; simpl.
  - by rewrite decide_True.
  - destruct (decide (k = k')); simpl; [by rewrite decide_True|].
    by rewrite decide_False.
Qed.

Lemma assoc_set_ne k k' v items :
  k ≠ k' → assoc k' (assoc_set k v items) = assoc k' items.
Proof.
  intros Hne. induction items as [|[k0 v0] items IH]; simpl.
  - by rewrite decide_False.
  - destruct (decide (k = k0)) as [->|]; simpl.
    + by rewrite !decide_False.
    + destruct (decide (k' = k0)); auto.
Qed.

Lemma assoc_set_keys_in k v items :
  k ∈ items.*1 → (assoc_set k v items).*1 = items.*1.
Proof.
  induction items as [|[k0 v0] items IH]; simpl.
  - by intros ?%elem_of_nil.
  - destruct (decide (k = k0)) as [->|]; simpl; [done|].
    intros [?|?]%elem_of_cons; [done|]. f_equal. auto.
Qed.

Lemma assoc_set_keys_notin k v items :
  k ∉ items.*1 → assoc_set k v items = items ++ [(k, v)].
Proof.
  induction items as [|[k0 v0] items IH]; simpl; [done|].
  intros [? ?]%not_elem_of_cons. rewrite decide_False; [|done].
  f_equal. auto.
Qed.

Lemma assoc_app_l k items items' :
  k ∈ items.*1 → assoc k (items ++ items') = assoc k items.
Proof.
  induction items as [|[k0 v0] items IH]; simpl.
  - by intros ?%elem_of_nil.
  - destruct (decide (k = k0)); [done|].
    intros [?|?]%elem_of_cons; [done|auto].
Qed.

Lemma assoc_app_r k items items' :
  k ∉ items.*1 → assoc k (items ++ items') = assoc k items'.
Proof.
  induction items as [|[k0 v0] items IH]; simpl; [done|].
  intros [? ?]%not_elem_of_cons. rewrite decide_False; auto.
Qed.
End assoc.

Tactic Notation "bind_inv" hyp(H) "as" simple_intropattern(x) ident(Hx) :=
  apply bind_Ok in H as (x & Hx & H).

(** ** Frames: what an operation leaves alone *)

Lemma frame_refl n h : frame n h h.
Proof. by split. Qed.

Lemma frame_trans n h1 h2 h3 : frame n h1 h2 → frame n h2 h3 → frame n h1 h3.
Proof.
  intros [Hl1 H1] [Hl2 H2]. split; [lia|].
  intros l Hl. rewrite H2, H1; auto.
Qed.

Lemma frame_le m n h h' : (m ≤ n)%nat → frame n h h' → frame m h h'.
Proof. intros Hle [Hl H]. split; [done|]. intros l ?. apply H. lia. Qed.

Lemma frame_app n h os : (n ≤ length h)%nat → frame n h (h ++ os).
Proof.
  intros Hn. split; [rewrite length_app; lia|].
  intros l Hl. apply lookup_app_l. lia.
Qed.

Lemma frame_store n h l o : (n ≤ l)%nat → frame n h (store h l o).
Proof.
  intros Hn. split; [unfold store; by rewrite length_insert|].
  intros l' Hl. unfold store. apply list_lookup_insert_ne. lia.
Qed.

Lemma frame_lookup n h h' l o :
  frame n h h' → (l < n)%nat → h !! l = Some o → h' !! l = Some o.
Proof. intros [_ H] Hl Ho. by rewrite H. Qed.

Lemma frame_length n h h' : frame n h h' → (length h ≤ length h')%nat.
Proof. by intros [? _]. Qed.

(** A frame that covers the whole of [h]: every object of [h] is kept. *)
Lemma frame_all_lookup h h' l o :
  frame (length h) h h' → h !! l = Some o → h' !! l = Some o.
Proof.
  intros Hf Ho. eapply frame_lookup; [done| |done].
  by eapply lookup_lt_Some.
Qed.

Lemma frame_step n h0 h h' :
  (n ≤ length h)%nat → frame n h0 h → frame (length h) h h' → frame n h0 h'.
Proof.
  intros Hn H0 H. eapply frame_trans; [done|]. by eapply frame_le.
Qed.

(** ** Loops *)

Lemma foldM_inv {A S} (I : S → Prop) (f : S → A → result S) xs s s' :
  I s →
  (∀ s x s1, I s → x ∈ xs → f s x = Ok s1 → I s1) →
  foldM f xs s = Ok s' → I s'.
Proof.
  revert s. induction xs as [|x xs IH]; simpl; intros s Hs Hstep Hf.
  - by inv_res.
  - inv_res. eapply IH; [| |done].
    + eapply Hstep; [done| |done]. left.
    + intros ? ? ? ? ? ?. eapply Hstep; [done| |done]. by right.
Qed.

(** A loop invariant indexed by the keys already visited. *)
Lemma iterate_inv (I : list string → heap → Prop) d n body ks h h' :
  I [] h →
  (∀ pre k suf h h1,
      ks = pre ++ k :: suf → I pre h → body h k = Ok h1 →
      dict_size h1 d = Some n → I (pre ++ [k]) h1) →
  iterate d n body ks h = Ok h' → I ks h'.
Proof.
  intros Hs Hstep.
  assert (∀ pre suf h, ks = pre ++ suf → I pre h →
            iterate d n body suf h = Ok h' → I ks h') as Hgen.
  { intros pre suf. revert pre.
    induction suf as [|k suf IH]; simpl; intros pre h0 Hks Hpre Hit.
    - inv_res. by rewrite app_nil_r.
    - bind_inv Hit as h1 Hb. destruct (decide _) as [Hsz|]; [|done].
      apply (IH (pre ++ [k]) h1); [by rewrite <- app_assoc; subst| |done].
      by eapply Hstep. }
  intros Hit. by eapply (Hgen [] ks h).
Qed.

Lemma iterate_inv' (I : heap → Prop) d n body ks h h' :
  I h →
  (∀ k h h1, k ∈ ks → I h → body h k = Ok h1 →
             dict_size h1 d = Some n → I h1) →
  iterate d n body ks h = Ok h' → I h'.
Proof.
  intros Hs Hstep.
  apply (iterate_inv (fun _ => I)); [done|].
  intros pre k suf h0 h1 -> ? ? ?. eapply Hstep; [|done..].
  apply elem_of_app. right. left.
Qed.

(** ** The copy-producing operations only allocate *)

Lemma Counter_add_frame h self other h' r :
  Counter_add h self other = Ok (h', r) →
  frame (length h) h h' ∧ (length h ≤ r < length h')%nat.
Proof.
  unfold Counter_add. intros H.
  bind_inv H as [h1 res1] Hf1. bind_inv H as res2 Hf2. inv_res.
  assert (frame (length h) h h1) as Hfr.
  { revert Hf1.
    apply (foldM_inv (fun s => frame (length h) h s.1)); [apply frame_refl|].
    intros [h2 res] [elem c] [h3 res'] Hfr _ Hstep; simpl in *. inv_res.
    destruct (0 <? _); inv_res; [|done].
    eapply frame_trans; [done|]. apply frame_app. by eapply frame_length. }
  split.
  - eapply frame_trans; [done|]. apply frame_app. by eapply frame_length.
  - apply frame_length in Hfr. rewrite length_app. simpl. lia.
Qed.

Lemma operator_add_frame h a b h' r :
  operator_add h a b = Ok (h', r) →
  frame (length h) h h' ∧ (length h ≤ r < length h')%nat.
Proof.
  unfold operator_add. intros H.
  bind_inv H as oa Ha. bind_inv H as ob Hb.
  destruct oa as [| | | | |[] ?], ob as [| | | | |[] ?]; inv_res;
    try (split; [by apply frame_app|rewrite length_app; simpl; lia]).
  by eapply Counter_add_frame.
Qed.

Lemma operator_or_frame h a b h' r :
  operator_or h a b = Ok (h', r) →
  frame (length h) h h' ∧ (length h ≤ r < length h')%nat.
Proof.
  unfold operator_or. intros H.
  bind_inv H as oa Ha. bind_inv H as ob Hb.
  destruct oa, ob; inv_res.
  split; [by apply frame_app|rewrite length_app; simpl; lia].
Qed.

Lemma setitem_frame n h d key v h' :
  (n ≤ d)%nat → setitem h d key v = Ok h' → frame n h h'.
Proof.
  unfold setitem. intros Hn H. bind_inv H as o Ho. destruct o; inv_res.
  by apply frame_store.
Qed.

Lemma list_append_frame n h y v h' :
  (n ≤ y)%nat → list_append h y v = Ok h' → frame n h h'.
Proof.
  unfold list_append. intros Hn H. bind_inv H as o Ho. destruct o; inv_res.
  by apply frame_store.
Qed.

Lemma clear_frame n h d h' :
  (n ≤ d)%nat → clear h d = Ok h' → frame n h h'.
Proof.
  unfold clear. intros Hn H. bind_inv H as o Ho. destruct o; inv_res.
  by apply frame_store.
Qed.

Lemma copy_copy_frame h x h' y :
  copy_copy h x = Ok (h', y) → frame (length h) h h' ∧ y = length h.
Proof.
  unfold copy_copy. intros H. inv_res. split; [by apply frame_app|done].
Qed.

Lemma deepcopy_memo_frame fuel h m x h' m' y :
  deepcopy_memo fuel h m x = Ok (h', m', y) → frame (length h) h h'.
Proof.
  revert h m x h' m' y.
  induction fuel as [|fuel IH]; simpl; intros h m x h' m' y H; [done|].
  destruct (memo_get m x); [inv_res; apply frame_refl|].
  bind_inv H as o Ho.
  destruct o as [z|s| |items|s|c items];
    try (inv_res; apply frame_refl).
  - bind_inv H as [h1 m1] Hfold. inv_res. revert Hfold.
    apply (foldM_inv (fun s => frame (length h) h s.1)); simpl.
    { by apply frame_app. }
    intros [h2 m2] item [h3 m3] Hfr _ Hstep; simpl in *.
    bind_inv Hstep as [[h4 m4] v] Hc. bind_inv Hstep as h5 Hs. inv_res.
    apply IH in Hc.
    eapply frame_trans; [eapply frame_step; [|done..]; by eapply frame_length|].
    eapply list_append_frame; [|done]. done.
  - inv_res. by apply frame_app.
  - bind_inv H as [h1 m1] Hfold. inv_res. revert Hfold.
    apply (foldM_inv (fun s => frame (length h) h s.1)); simpl.
    { by apply frame_app. }
    intros [h2 m2] [key value] [h3 m3] Hfr _ Hstep; simpl in *.
    bind_inv Hstep as [[h4 m4] v] Hc. bind_inv Hstep as h5 Hs. inv_res.
    apply IH in Hc.
    eapply frame_trans; [eapply frame_step; [|done..]; by eapply frame_length|].
    eapply setitem_frame; [|done]. done.
Qed.

Lemma deepcopy_frame fuel h x h' y :
  deepcopy fuel h x = Ok (h', y) → frame (length h) h h'.
Proof.
  unfold deepcopy. intros H. bind_inv H as [[h1 m1] y1] Hc. inv_res.
  by eapply deepcopy_memo_frame.
Qed.

(** [add] leaves every object that existed before the call as it was. *)
Lemma add_frame fuel h a b h' r :
  add fuel h a b = Ok (h', r) → frame (length h) h h'.
Proof.
  revert h a b h' r.
  induction fuel as [|fuel IH]; simpl; intros h a b h' r H; [done|].
  bind_inv H as oa Ha. bind_inv H as ob Hb.
  destruct (is_Addable oa && is_Addable ob).
  { by apply operator_add_frame in H as [? _]. }
  destruct (is_MutableSet oa && is_MutableSet ob).
  { by apply operator_or_frame in H as [? _]. }
  destruct (is_MutableMapping oa && is_MutableMapping ob); [|done].
  bind_inv H as [h1 out] Hcp. bind_inv H as h2 Hcl.
  bind_inv H as h3 Hl1. bind_inv H as h4 Hl2. injection H as <- <-.
  assert (frame (length h) h h1 ∧ out = length h) as [Hf1 ->].
  { destruct (isinstance ob _); [by eapply copy_copy_frame|].
    destruct (isinstance oa _); [by eapply copy_copy_frame|done]. }
  assert (frame (length h) h h2) as Hf2.
  { eapply frame_trans; [done|]. by eapply clear_frame. }
  assert (frame (length h) h h3) as Hf3.
  { unfold for_keys in Hl1. bind_inv Hl1 as o Ho. revert Hl1.
    apply (iterate_inv' (fun hc => frame (length h) h hc)); [done|].
    intros k hc hc' _ Hfr Hbody _.
    destruct (bool_decide _).
    - bind_inv Hbody as va Hva. bind_inv Hbody as vb Hvb.
      bind_inv Hbody as [h5 v] Hadd. apply IH in Hadd.
      eapply frame_trans; [eapply frame_step; [|done..]; by eapply frame_length|].
      by eapply setitem_frame.
    - bind_inv Hbody as va Hva. bind_inv Hbody as [h5 v] Hcp'.
      apply deepcopy_frame in Hcp'.
      eapply frame_trans; [eapply frame_step; [|done..]; by eapply frame_length|].
      by eapply setitem_frame. }
  unfold for_keys in Hl2. bind_inv Hl2 as o Ho. revert Hl2.
  apply (iterate_inv' (fun hc => frame (length h) h hc)); [done|].
  intros k hc hc' _ Hfr Hbody _.
  destruct (bool_decide _); [|by inv_res].
  bind_inv Hbody as vb Hvb. bind_inv Hbody as [h5 v] Hcp'.
  apply deepcopy_frame in Hcp'.
  eapply frame_trans; [eapply frame_step; [|done..]; by eapply frame_length|].
  by eapply setitem_frame.
Qed.

(** A loop that cannot fail: each step returns and keeps the invariant. *)
Lemma foldM_ok {A S} (I : list A → S → Prop) (f : S → A → result S) xs s :
  I [] s →
  (∀ pre x suf s,
      xs = pre ++ x :: suf → I pre s → ∃ s', f s x = Ok s' ∧ I (pre ++ [x]) s') →
  ∃ s', foldM f xs s = Ok s' ∧ I xs s'.
Proof.
  intros Hs Hstep.
  assert (∀ pre suf s, xs = pre ++ suf → I pre s →
            ∃ s', foldM f suf s = Ok s' ∧ I xs s') as Hgen.
  { intros pre suf. revert pre.
    induction suf as [|x suf IH]; simpl; intros pre s0 Hxs Hpre.
    - exists s0. split; [done|]. by rewrite Hxs, app_nil_r.
    - destruct (Hstep pre x suf s0 Hxs Hpre) as (s1 & -> & H1). simpl.
      apply (IH (pre ++ [x])); [by rewrite <- app_assoc|done]. }
  by apply (Hgen [] xs s).
Qed.

Lemma mapM_Forall2 {A A' B} (R : A → A' → Prop) (f : A → option B)
    (g : A' → option B) l l' vs :
  Forall2 R l l' →
  (∀ x y v, x ∈ l → R x y → f x = Some v → g y = Some v) →
  mapM f l = Some vs → mapM g l' = Some vs.
Proof.
  intros HR Hfg Hm. apply mapM_Some in Hm. apply mapM_Some.
  revert vs Hm. induction HR as [|x y l l' Hxy HR IH]; intros vs Hm.
  - by inversion Hm.
  - inversion Hm as [|? v ? vs' Hv Hvs]; subst. constructor.
    + eapply Hfg; [left|done..].
    + apply IH; [|done]. intros ? ? ? ? ? ?. eapply Hfg; [by right|done..].
Qed.

(** ** Values are kept by frames *)

Lemma view_frame n h h' l v :
  (∀ l o, h !! l = Some o → h' !! l = Some o) →
  view n h l = Some v → view n h' l = Some v.
Proof.
  intros Hincl. revert l v.
  induction n as [|n IH]; simpl; intros l v Hv; [done|].
  destruct (h !! l) as [o|] eqn:Ho; [|done].
  rewrite (Hincl _ _ Ho).
  destruct o as [z|s| |items|s|c items]; try done.
  - apply fmap_Some in Hv as (vs & Hvs & ->).
    apply fmap_Some. exists vs. split; [|done].
    eapply (mapM_Forall2 eq); [by apply Forall_Forall2_diag, Forall_true| |done].
    intros ? ? ? _ <-. apply IH.
  - destruct (decide _); [|done].
    apply fmap_Some in Hv as (vs & Hvs & ->).
    apply fmap_Some. exists vs. split; [|done].
    eapply (mapM_Forall2 eq); [by apply Forall_Forall2_diag, Forall_true| |done].
    intros [k x] ? [k' v'] _ <- Hx.
    apply fmap_Some in Hx as (w & Hw & [= -> ->]).
    apply fmap_Some. exists w. split; [by apply IH|done].
Qed.

Lemma view_frame_all n h h' l v :
  frame (length h) h h' → view n h l = Some v → view n h' l = Some v.
Proof. intros Hf. apply view_frame. intros. by eapply frame_all_lookup. Qed.

Lemma view_S n h l v : view n h l = Some v → view (S n) h l = Some v.
Proof.
  revert l v. induction n as [|n IH]; intros l v Hv; [done|].
  simpl in Hv. change (view (S (S n)) h l) with
    (match h !! l with
     | None => None
     | Some (OInt z) => Some (VInt z)
     | Some (OStr s) => Some (VStr s)
     | Some ONone => Some VNone
     | Some (OSet s) => Some (VSet s)
     | Some (OList items) => VList <$> mapM (view (S n) h) items
     | Some (ODict c items) =>
         if decide (NoDup items.*1) then
           VDict c <$> mapM (fun '(k, v) => pair k <$> view (S n) h v) items
         else None
     end).
  destruct (h !! l) as [o|]; [|done].
  destruct o as [z|s| |items|s|c items]; try done.
  - apply fmap_Some in Hv as (vs & Hvs & ->).
    apply fmap_Some. exists vs. split; [|done].
    eapply (mapM_Forall2 eq); [by apply Forall_Forall2_diag, Forall_true| |done].
    intros ? ? ? _ <-. apply IH.
  - destruct (decide _); [|done].
    apply fmap_Some in Hv as (vs & Hvs & ->).
    apply fmap_Some. exists vs. split; [|done].
    eapply (mapM_Forall2 eq); [by apply Forall_Forall2_diag, Forall_true| |done].
    intros [k x] ? [k' v'] _ <- Hx.
    apply fmap_Some in Hx as (w & Hw & [= -> ->]).
    apply fmap_Some. exists w. split; [by apply IH|done].
Qed.

(** ** [deepcopy] copies values *)

Lemma memo_get_cons m x y s :
  memo_get ((x, y) :: m) s = if decide (s = x) then Some y else memo_get m s.
Proof. done. Qed.

Lemma memo_ext_refl m : memo_ext m m.
Proof. by intros ? ?. Qed.

Lemma memo_ext_cons m x y : memo_get m x = None → memo_ext m ((x, y) :: m).
Proof.
  intros Hx s t Hs. rewrite memo_get_cons.
  destruct (decide (s = x)) as [->|]; [congruence|done].
Qed.

Lemma rel_mono h0 m m' x y : memo_ext m m' → rel h0 m x y → rel h0 m' x y.
Proof. intros Hext [?|?]; [left; auto|by right]. Qed.

Lemma copy_of_mono h0 h h' m m' s t :
  memo_ext m m' → h' !! t = h !! t →
  copy_of h0 h m s t → copy_of h0 h' m' s t.
Proof.
  intros Hext Ht. unfold copy_of. rewrite Ht.
  destruct (h0 !! s) as [[]|], (h !! t) as [[]|]; try done.
  - intros H. eapply Forall2_impl; [exact H|].
    intros ? ?. by apply rel_mono.
  - intros [-> H]. split; [done|]. eapply Forall2_impl; [exact H|].
    intros ? ? [? ?]. split; [done|]. by eapply rel_mono.
Qed.

Lemma view_children n h x o v c :
  view (S n) h x = Some v → h !! x = Some o → c ∈ children o →
  is_Some (view n h c).
Proof.
  simpl. intros Hv Ho Hc. rewrite Ho in Hv.
  destruct o as [z|s| |items|s|k items]; simpl in Hc;
    try by apply elem_of_nil in Hc.
  - apply fmap_Some in Hv as (vs & Hvs & _).
    assert (is_Some (mapM (view n h) items)) as Hs by eauto.
    apply mapM_is_Some in Hs. rewrite Forall_forall in Hs. by apply Hs.
  - destruct (decide _); [|done].
    apply fmap_Some in Hv as (vs & Hvs & _).
    assert (is_Some (mapM (λ '(k, v), pair k <$> view n h v) items)) as Hs
      by eauto.
    apply mapM_is_Some in Hs. rewrite Forall_forall in Hs.
    apply list_elem_of_fmap in Hc as ([k' c'] & -> & Hin).
    apply Hs in Hin. simpl in Hin. destruct Hin as [? Hin].
    apply fmap_Some in Hin as (? & ? & _). eauto.
Qed.

Lemma deepcopy_memo_spec n : ∀ h0 h m P x v,
  frame (length h0) h0 h → view n h0 x = Some v → memo_inv h0 h m P →
  ∃ h' m' y,
    deepcopy_memo n h m x = Ok (h', m', y)
    ∧ frame (length h) h h'
    ∧ memo_inv h0 h' m' P
    ∧ rel h0 m' x y
    ∧ memo_ext m m'
    ∧ (∀ s t, memo_get m' s = Some t →
              memo_get m s = Some t ∨ (length h ≤ t)%nat).
Proof.
  induction n as [|n IH]; intros h0 h m P x v Hfr Hv Hinv; [done|].
  assert (∃ o, h0 !! x = Some o) as [o Ho].
  { simpl in Hv. destruct (h0 !! x); [eauto|done]. }
  assert (h !! x = Some o) as Hox by by eapply frame_all_lookup.
  assert (length h0 ≤ length h)%nat as Hlen by by eapply frame_length.
  simpl deepcopy_memo.
  destruct (memo_get m x) as [y|] eqn:Hm.
  { exists h, m, y.
    split_and!; [done|apply frame_refl|done|by left|apply memo_ext_refl|auto]. }
  rewrite (deref_lookup _ _ _ Hox). simpl bind.
  assert (atomic o = true →
          ∃ h' m' y, Ok (h, m, x) = Ok (h', m', y) ∧ frame (length h) h h'
            ∧ memo_inv h0 h' m' P ∧ rel h0 m' x y ∧ memo_ext m m'
            ∧ (∀ s t, memo_get m' s = Some t →
                      memo_get m s = Some t ∨ (length h ≤ t)%nat)) as Hatom.
  { intros Hat. exists h, m, x.
    split_and!; [done|apply frame_refl|done| |apply memo_ext_refl|auto].
    right. split; [done|]. by exists o. }
  set (y := length h).
  set (P' := fun s => P s ∨ s = x).
  (* the state after allocating the shell, for the two container cases *)
  assert (∀ shell, memo_inv h0 (h ++ [shell]) ((x, y) :: m) P') as Hinv1.
  { intros shell s t. rewrite memo_get_cons.
    destruct (decide (s = x)) as [->|Hne].
    - intros [= <-]. split; [rewrite length_app; simpl; lia|].
      intros []. by right.
    - intros Hs. destruct (Hinv s t Hs) as [Hr Hc].
      split; [rewrite length_app; simpl; lia|].
      intros HP. eapply copy_of_mono; [by apply memo_ext_cons| |apply Hc].
      + apply lookup_app_l. lia.
      + intros ?. apply HP. by left. }
  assert (∀ hc mc,
            frame (length h) h hc → memo_inv h0 hc mc P' →
            memo_ext ((x, y) :: m) mc →
            (∀ s t, memo_get mc s = Some t →
               memo_get ((x, y) :: m) s = Some t ∨ (S (length h) ≤ t)%nat) →
            copy_of h0 hc mc x y →
            frame (length h) h hc ∧ memo_inv h0 hc mc P ∧ rel h0 mc x y
            ∧ memo_ext m mc
            ∧ (∀ s t, memo_get mc s = Some t →
                      memo_get m s = Some t ∨ (length h ≤ t)%nat)) as Hfin.
  { intros hc mc Hf Hi Hext Hnew Hcopy.
    assert (memo_get mc x = Some y) as Hxy.
    { apply Hext. rewrite memo_get_cons. by rewrite decide_True. }
    split_and!; [done| |by left| |].
    - intros s t Hs. destruct (Hi s t Hs) as [Hr Hc]. split; [done|].
      intros HP. destruct (decide (s = x)) as [->|Hne].
      + by assert (t = y) as -> by congruence.
      + apply Hc. by intros [?|?].
    - intros s t Hs. apply Hext. by apply memo_ext_cons.
    - intros s t Hs. destruct (Hnew s t Hs) as [Hs'|?]; [|right; lia].
      rewrite memo_get_cons in Hs'. destruct (decide (s = x)).
      + right. injection Hs' as <-. done.
      + by left. }
  (* one step of either filling loop *)
  assert (∀ hc mc c,
            c ∈ children o →
            frame (length h) h hc → (length h < length hc)%nat →
            memo_inv h0 hc mc P' → memo_ext ((x, y) :: m) mc →
            (∀ s t, memo_get mc s = Some t →
               memo_get ((x, y) :: m) s = Some t ∨ (S (length h) ≤ t)%nat) →
            ∃ h2 m2 c',
              deepcopy_memo n hc mc c = Ok (h2, m2, c')
              ∧ frame (length hc) hc h2
              ∧ rel h0 m2 c c'
              ∧ memo_ext mc m2
              ∧ memo_ext ((x, y) :: m) m2
              ∧ (∀ s t, memo_get m2 s = Some t →
                   memo_get ((x, y) :: m) s = Some t ∨ (S (length h) ≤ t)%nat)
              ∧ ∀ shell, h2 !! y = Some shell → ∀ shell',
                  memo_inv h0 (store h2 y shell') m2 P') as Hstep.
  { intros hc mc c Hc Hf Hlt Hi Hext Hnew.
    destruct (view_children _ _ _ _ _ _ Hv Ho Hc) as [vc Hvc].
    destruct (IH h0 hc mc P' c vc) as (h2 & m2 & c' & Hdc & Hf2 & Hi2 & Hrel
                                         & Hext2 & Hnew2); [|done..|].
    { eapply frame_trans; [done|]. by eapply frame_le. }
    exists h2, m2, c'. split_and!; [done..| | |].
    - intros s t Hs. auto.
    - intros s t Hs. destruct (Hnew2 s t Hs) as [Hs'|?]; [auto|right; lia].
    - intros shell Hshell shell' s t Hs.
      destruct (Hi2 s t Hs) as [Hr Hcp].
      split; [unfold store; by rewrite length_insert|].
      intros HP. eapply copy_of_mono; [apply memo_ext_refl| |by apply Hcp].
      unfold store. apply list_lookup_insert_ne.
      destruct (Hnew2 s t Hs) as [Hs'|?]; [|lia].
      destruct (Hnew s t Hs') as [Hs''|?]; [|subst y; lia].
      rewrite memo_get_cons in Hs''. destruct (decide (s = x)) as [->|Hne].
      + exfalso. apply HP. by right.
      + destruct (Hinv s t Hs'') as [? _]. subst y. lia. }
  destruct o as [z|s| |items|s|c items]; try (by apply Hatom).
  - (* list *)
    simpl.
    destruct (foldM_ok
      (fun pre '(hc, mc) =>
         frame (length h) h hc ∧ (length h < length hc)%nat
         ∧ memo_inv h0 hc mc P' ∧ memo_ext ((x, y) :: m) mc
         ∧ (∀ s t, memo_get mc s = Some t →
              memo_get ((x, y) :: m) s = Some t ∨ (S (length h) ≤ t)%nat)
         ∧ ∃ pre', hc !! y = Some (OList pre') ∧ Forall2 (rel h0 mc) pre pre')
      (λ '(h1, m0) (item : loc),
         let* (h2, m1, v0) := deepcopy_memo n h1 m0 item
         in let* h3 := list_append h2 y v0 in Ok (h3, m1))
      items (h ++ [OList []], (x, y) :: m))
      as ([hc mc] & Hfold & Hf & Hlt & Hi & Hext & Hnew & items' & Hy & Hitems).
    { split_and!; [by apply frame_app|rewrite length_app; simpl; lia|
                   apply Hinv1|apply memo_ext_refl|auto|].
      exists []. split; [|constructor].
      subst y. by rewrite lookup_app_r, Nat.sub_diag. }
    { intros pre c suf [hc mc] Hitems
        (Hf & Hlt & Hi & Hext & Hnew & pre' & Hy & Hpre).
      destruct (Hstep hc mc c) as (h2 & m2 & c' & Hdc & Hf2 & Hrel & Hext2
                                     & Hext2' & Hnew2 & Hst); [|done..|].
      { simpl. rewrite Hitems. apply elem_of_app. right. left. }
      assert (h2 !! y = Some (OList pre')) as Hy2.
      { eapply frame_all_lookup; done. }
      exists (store h2 y (OList (pre' ++ [c'])), m2). split.
      { rewrite Hdc. simpl. unfold list_append.
        by rewrite (deref_lookup _ _ _ Hy2). }
      assert (length hc ≤ length h2)%nat by by eapply frame_length.
      split_and!; [| |by eapply Hst|done..|].
      - eapply frame_trans; [eapply frame_step; [|done..]; lia|].
        by apply frame_store.
      - unfold store. rewrite length_insert. lia.
      - exists (pre' ++ [c']). split.
        + unfold store. apply list_lookup_insert_eq.
          by eapply lookup_lt_Some.
        + apply Forall2_app; [|by constructor].
          eapply Forall2_impl; [exact Hpre|]. intros ? ?. by apply rel_mono. }
    rewrite Hfold. simpl. exists hc, mc, y. split; [done|].
    apply Hfin; [done..|]. unfold copy_of. by rewrite Ho, Hy.
  - (* set *)
    simpl. exists (h ++ [OSet s]), ((x, y) :: m), y. split; [done|].
    apply Hfin; [by apply frame_app|apply Hinv1|apply memo_ext_refl|auto|].
    unfold copy_of. rewrite Ho. subst y.
    by rewrite lookup_app_r, Nat.sub_diag.
  - (* mapping *)
    simpl.
    assert (NoDup items.*1) as Hnd.
    { simpl in Hv. rewrite Ho in Hv. by destruct (decide (NoDup items.*1)). }
    destruct (foldM_ok
      (fun pre '(hc, mc) =>
         frame (length h) h hc ∧ (length h < length hc)%nat
         ∧ memo_inv h0 hc mc P' ∧ memo_ext ((x, y) :: m) mc
         ∧ (∀ s t, memo_get mc s = Some t →
              memo_get ((x, y) :: m) s = Some t ∨ (S (length h) ≤ t)%nat)
         ∧ ∃ pre', hc !! y = Some (ODict c pre')
             ∧ Forall2 (fun kv kv' => kv.1 = kv'.1 ∧ rel h0 mc kv.2 kv'.2)
                       pre pre')
      (λ '(h1, m0) '(key, value),
         let* (h2, m1, v0) := deepcopy_memo n h1 m0 value
         in let* h3 := setitem h2 y key v0 in Ok (h3, m1))
      items (h ++ [ODict c []], (x, y) :: m))
      as ([hc mc] & Hfold & Hf & Hlt & Hi & Hext & Hnew & items' & Hy & Hitems).
    { split_and!; [by apply frame_app|rewrite length_app; simpl; lia|
                   apply Hinv1|apply memo_ext_refl|auto|].
      exists []. split; [|constructor].
      subst y. by rewrite lookup_app_r, Nat.sub_diag. }
    { intros pre [key value] suf [hc mc] Hitems
        (Hf & Hlt & Hi & Hext & Hnew & pre' & Hy & Hpre).
      destruct (Hstep hc mc value) as (h2 & m2 & c' & Hdc & Hf2 & Hrel & Hext2
                                     & Hext2' & Hnew2 & Hst); [|done..|].
      { simpl. rewrite Hitems, fmap_app, fmap_cons.
        apply elem_of_app. right. left. }
      assert (h2 !! y = Some (ODict c pre')) as Hy2.
      { eapply frame_all_lookup; done. }
      assert (pre'.*1 = pre.*1) as Hkeys.
      { clear -Hpre.
        induction Hpre as [|? ? ? ? [Hk _] _ IHp]; [done|].
        rewrite !fmap_cons. by rewrite Hk, IHp. }
      assert (key ∉ pre'.*1) as Hkey.
      { rewrite Hkeys. rewrite Hitems, fmap_app, fmap_cons in Hnd.
        apply NoDup_app in Hnd as (_ & Hnd & _). intros Hin.
        apply (Hnd _ Hin). left. }
      exists (store h2 y (ODict c (pre' ++ [(key, c')])), m2). split.
      { rewrite Hdc. simpl. unfold setitem.
        rewrite (deref_lookup _ _ _ Hy2). simpl.
        by rewrite assoc_set_keys_notin. }
      assert (length hc ≤ length h2)%nat by by eapply frame_length.
      split_and!; [| |by eapply Hst|done..|].
      - eapply frame_trans; [eapply frame_step; [|done..]; lia|].
        by apply frame_store.
      - unfold store. rewrite length_insert. lia.
      - exists (pre' ++ [(key, c')]). split.
        + unfold store. apply list_lookup_insert_eq.
          by eapply lookup_lt_Some.
        + apply Forall2_app; [|constructor; [by split|constructor]].
          eapply Forall2_impl; [exact Hpre|]. intros ? ? [? ?].
          split; [done|]. eapply rel_mono; [exact Hext2|done]. }
    rewrite Hfold. simpl. exists hc, mc, y. split; [done|].
    apply Hfin; [done..|]. unfold copy_of. by rewrite Ho, Hy.
Qed.

Lemma Forall2_keys {A B} (R : A → B → Prop) (items : list (string * A))
    (items' : list (string * B)) :
  Forall2 (fun kv kv' => kv.1 = kv'.1 ∧ R kv.2 kv'.2) items items' →
  items'.*1 = items.*1.
Proof.
  induction 1 as [|? ? ? ? [Hk _] _ IH]; [done|].
  rewrite !fmap_cons. by rewrite Hk, IH.
Qed.

(** When no container is left to fill, what stands for a reference has
    the same value. *)
Lemma sim_view n : ∀ h0 h' m x y v,
  frame (length h0) h0 h' → memo_inv h0 h' m (fun _ => False) →
  rel h0 m x y → view n h0 x = Some v → view n h' y = Some v.
Proof.
  induction n as [|n IH]; intros h0 h' m x y v Hfr Hinv Hrel Hv; [done|].
  simpl in Hv |- *.
  destruct (h0 !! x) as [o|] eqn:Ho; [|done].
  destruct Hrel as [Hm|[<- (o' & Ho' & Hat)]].
  - destruct (Hinv x y Hm) as [_ Hc]. specialize (Hc (fun H => H)).
    unfold copy_of in Hc. rewrite Ho in Hc.
    destruct o as [z|s| |items|s|c items], (h' !! y) as [[]|]; try done.
    + apply fmap_Some in Hv as (vs & Hvs & ->).
      apply fmap_Some. exists vs. split; [|done].
      eapply mapM_Forall2; [exact Hc| |done].
      intros ? ? ? _ ? ?. by eapply IH.
    + by subst.
    + destruct Hc as [<- Hc].
      rewrite (Forall2_keys _ _ _ Hc).
      destruct (decide _); [|done].
      apply fmap_Some in Hv as (vs & Hvs & ->).
      apply fmap_Some. exists vs. split; [|done].
      eapply mapM_Forall2; [exact Hc| |done].
      intros [k c1] [k' c2] w _ [Hk Hr] Hw. simpl in *. subst k'.
      apply fmap_Some in Hw as (w' & Hw' & ->).
      apply fmap_Some. exists w'. split; [|done]. by eapply IH.
  - rewrite (frame_all_lookup _ _ _ _ Hfr Ho).
    assert (o' = o) as -> by congruence.
    by destruct o.
Qed.

(** Every object reachable from a copy is new or atomic. *)
Lemma sim_reach h0 h' m y l :
  frame (length h0) h0 h' → memo_inv h0 h' m (fun _ => False) →
  reach h' y l → (∃ x, rel h0 m x y) →
  (length h0 ≤ l)%nat ∨ atomic_at h0 l.
Proof.
  intros Hfr Hinv. induction 1 as [y|y o' c l Ho' Hc Hreach IH].
  - intros (x & [Hm|[<- Hat]]).
    + left. by destruct (Hinv x y Hm) as [[? _] _].
    + by right.
  - intros (x & [Hm|[<- (o & Ho & Hat)]]).
    + apply IH. destruct (Hinv x y Hm) as [_ Hcp].
      specialize (Hcp (fun H => H)). unfold copy_of in Hcp.
      rewrite Ho' in Hcp.
      destruct (h0 !! x) as [[z|s| |items|s|k items]|], o'; try done;
        simpl in Hc.
      * apply list_elem_of_lookup in Hc as [i Hi].
        destruct (Forall2_lookup_r _ _ _ _ _ Hcp Hi) as (x' & _ & Hx'). eauto.
      * by apply elem_of_nil in Hc.
      * destruct Hcp as [_ Hcp].
        apply list_elem_of_fmap in Hc as ([k' c'] & -> & Hin).
        apply list_elem_of_lookup in Hin as [i Hi].
        destruct (Forall2_lookup_r _ _ _ _ _ Hcp Hi) as ([? x'] & _ & _ & Hx').
        eauto.
    + rewrite (frame_all_lookup _ _ _ _ Hfr Ho) in Ho'.
      injection Ho' as <-. destruct o; try done; by apply elem_of_nil in Hc.
Qed.

(** [deepcopy] of a finite value returns, only allocates, and the copy has
    the same value and shares no mutable object with the heap before. *)
Lemma deepcopy_spec n h x v :
  view n h x = Some v →
  ∃ h' y,
    deepcopy n h x = Ok (h', y)
    ∧ frame (length h) h h'
    ∧ view n h' y = Some v
    ∧ ∀ l, reach h' y l → (length h ≤ l)%nat ∨ atomic_at h l.
Proof.
  intros Hv.
  destruct (deepcopy_memo_spec n h h [] (fun _ => False) x v)
    as (h' & m' & y & Hdc & Hfr & Hinv & Hrel & _ & _);
    [apply frame_refl|done|done|].
  exists h', y. unfold deepcopy. rewrite Hdc. simpl.
  split_and!; [done|done|by eapply sim_view|].
  intros l Hl. eapply sim_reach; eauto.
Qed.

(** ** Refinement: general facts *)

Lemma refines_bind {A B A' B'} (R : A → B → Prop) (R' : A' → B' → Prop)
    (m : result A) (spec : result B) (k : A → result A') (k' : B → result B') :
  refines R m spec →
  (∀ a b, R a b → refines R' (k a) (k' b)) →
  refines R' (bind m k) (bind spec k').
Proof.
  unfold refines. destruct spec as [b|e]; simpl.
  - intros (a & -> & HR) Hk. simpl. by apply Hk.
  - by intros -> _.
Qed.

Lemma refines_Ok {A B} (R : A → B → Prop) a b : R a b → refines R (Ok a) (Ok b).
Proof. intros. by exists a. Qed.

Lemma refines_Ok_inv {A B} (R : A → B → Prop) m spec a :
  refines R m spec → m = Ok a → ∃ b, spec = Ok b ∧ R a b.
Proof.
  unfold refines. destruct spec as [b|e].
  - intros (a' & -> & HR) [= ->]. eauto.
  - by intros -> ?.
Qed.

(** A loop on the heap against a fold on values. *)
Lemma foldM_refines {A A' S S'} (RS : S → S' → Prop) (RA : A → A' → Prop)
    (f : S → A → result S) (f' : S' → A' → result S') xs xs' s s' :
  Forall2 RA xs xs' → RS s s' →
  (∀ s s' x x', RS s s' → RA x x' → refines RS (f s x) (f' s' x')) →
  refines RS (foldM f xs s) (foldM f' xs' s').
Proof.
  intros Hxs Hs Hstep. revert s s' Hs.
  induction Hxs as [|x x' xs xs' Hx Hxs IH]; simpl; intros s s' Hs.
  - by apply refines_Ok.
  - eapply refines_bind; [by apply Hstep|]. intros. by apply IH.
Qed.

Lemma iterate_refines {A' S'} (RS : heap → S' → Prop) (RA : string → A' → Prop)
    d n body (f' : S' → A' → result S') ks xs' h s' :
  Forall2 RA ks xs' → RS h s' →
  (∀ h s' k x', RS h s' → RA k x' →
     refines (fun h1 t' => RS h1 t' ∧ dict_size h1 d = Some n)
             (body h k) (f' s' x')) →
  refines RS (iterate d n body ks h) (foldM f' xs' s').
Proof.
  intros Hxs Hs Hstep. revert h s' Hs.
  induction Hxs as [|x x' xs xs' Hx Hxs IH]; simpl; intros h s' Hs.
  - by apply refines_Ok.
  - eapply refines_bind; [by apply Hstep|]. intros h1 t' [H1 Hsz].
    rewrite decide_True; [|done]. by apply IH.
Qed.

(** ** Robust values *)

Lemma agree_le lo lo' hi hi' h h' :
  (lo ≤ lo')%nat → (hi' ≤ hi)%nat → agree lo hi h h' → agree lo' hi' h h'.
Proof. intros ? ? H l ?. apply H. lia. Qed.

Lemma agree_trans lo hi h1 h2 h3 :
  agree lo hi h1 h2 → agree lo hi h2 h3 → agree lo hi h1 h3.
Proof. intros H1 H2 l Hl. rewrite H2, H1; auto. Qed.

Lemma agree_refl lo hi h : agree lo hi h h.
Proof. by intros l _. Qed.

Lemma frame_agree lo hi n h h' : (hi ≤ n)%nat → frame n h h' → agree lo hi h h'.
Proof. intros ? [_ H] l ?. apply H. lia. Qed.

Lemma agree_store lo hi h l o :
  (l < lo)%nat → agree lo hi h (store h l o).
Proof. intros ? l' ?. unfold store. apply list_lookup_insert_ne. lia. Qed.

Lemma robust_old n h0 lo hi h c z :
  view n h0 c = Some z → robust n h0 lo hi h c z.
Proof. intros Hv h' Hfr _. by eapply view_frame_all. Qed.

Lemma robust_mono n h0 lo hi h lo' hi' h' c z :
  (lo' ≤ lo)%nat → (hi ≤ hi')%nat → agree lo hi h h' →
  robust n h0 lo hi h c z → robust n h0 lo' hi' h' c z.
Proof.
  intros ? ? Hag Hr h'' Hfr Hag'. apply Hr; [done|].
  eapply agree_trans; [done|]. by eapply agree_le.
Qed.

Lemma items_robust_mono n h0 lo hi h lo' hi' h' res resv :
  (lo' ≤ lo)%nat → (hi ≤ hi')%nat → agree lo hi h h' →
  items_robust n h0 lo hi h res resv → items_robust n h0 lo' hi' h' res resv.
Proof.
  intros ? ? Hag H. eapply Forall2_impl; [exact H|].
  intros ? ? [? ?]. split; [done|]. by eapply robust_mono.
Qed.

Lemma items_robust_assoc_set n h0 lo hi h res resv k c z :
  items_robust n h0 lo hi h res resv → robust n h0 lo hi h c z →
  items_robust n h0 lo hi h (assoc_set k c res) (assoc_set k z resv).
Proof.
  intros H Hc. induction H as [|[k1 c1] [k2 z2] res resv [Hk Hr] H IH]; simpl.
  - constructor; [by split|constructor].
  - simpl in Hk. subst k2. destruct (decide (k = k1)) as [->|].
    + constructor; [by split|done].
    + constructor; [by split|done].
Qed.

Lemma NoDup_assoc_set {A} k (v : A) items :
  NoDup items.*1 → NoDup (assoc_set k v items).*1.
Proof.
  intros Hnd. destruct (decide (k ∈ items.*1)) as [Hin|Hin].
  - by rewrite assoc_set_keys_in.
  - rewrite assoc_set_keys_notin, fmap_app by done.
    apply NoDup_app. split_and!; [done| |apply NoDup_singleton].
    intros k' Hk' ->%list_elem_of_singleton. done.
Qed.

(** A mapping whose items have robust values has a robust value. *)
Lemma view_dict_robust n h0 lo hi h h' r c res resv :
  h' !! r = Some (ODict c res) → NoDup res.*1 →
  items_robust n h0 lo hi h res resv →
  frame (length h0) h0 h' → agree lo hi h h' →
  view (S n) h' r = Some (VDict c resv).
Proof.
  intros Hr Hnd Hitems Hfr Hag. simpl. rewrite Hr.
  rewrite decide_True by done.
  apply fmap_Some. exists resv. split; [|done].
  apply mapM_Some. eapply Forall2_impl; [exact Hitems|].
  intros [k1 c1] [k2 z2] [Hk Hrb]. simpl in *. subst k2.
  by rewrite (Hrb h' Hfr Hag).
Qed.

(** ** Refinement: the operators *)

Implicit Types (xs ys : list (string * loc)).
Implicit Types (vxs vys : list (string * pyval)).

Lemma refines_eq {A} (m spec : result A) : m = spec → refines eq m spec.
Proof. intros ->. destruct spec; [by exists x|done]. Qed.

Lemma view_inv n h l v :
  view (S n) h l = Some v →
  match v with
  | VInt z => h !! l = Some (OInt z)
  | VStr s => h !! l = Some (OStr s)
  | VNone => h !! l = Some ONone
  | VSet e => h !! l = Some (OSet e)
  | VList vs =>
      ∃ items, h !! l = Some (OList items) ∧ mapM (view n h) items = Some vs
  | VDict c vitems =>
      ∃ items, h !! l = Some (ODict c items) ∧ NoDup items.*1 ∧
        mapM (fun '(k, v) => pair k <$> view n h v) items = Some vitems
  end.
Proof.
  simpl. destruct (h !! l) as [[z|s| |items|s|c items]|]; try done.
  - by intros [= <-].
  - by intros [= <-].
  - by intros [= <-].
  - intros (vs & ? & ->)%fmap_Some. eauto.
  - by intros [= <-].
  - destruct (decide _); [|done]. intros (vs & ? & ->)%fmap_Some. eauto.
Qed.

Lemma view_caps n h l v o :
  view n h l = Some v → h !! l = Some o →
  is_Addable o = val_Addable v ∧ is_MutableSet o = val_MutableSet v
  ∧ is_MutableMapping o = val_MutableMapping v ∧ type_of o = val_type v.
Proof.
  destruct n as [|n]; [done|]. simpl. intros Hv Ho. rewrite Ho in Hv.
  destruct o as [z|s| |items|s|c items]; try (by injection Hv as <-).
  - by apply fmap_Some in Hv as (? & _ & ->).
  - destruct (decide _); [|done]. by apply fmap_Some in Hv as (? & _ & ->).
Qed.

Lemma int_at_view n h c v : view n h c = Some v → int_at h c = int_val v.
Proof.
  destruct n as [|n]; [done|]. simpl. unfold int_at, deref.
  destruct (h !! c) as [[z|s| |items|s|k items]|]; simpl; try done;
    try (by intros [= <-]).
  - by intros (? & _ & ->)%fmap_Some.
  - destruct (decide _); [|done]. by intros (? & _ & ->)%fmap_Some.
Qed.

Lemma items_assoc_view n h xs vxs k :
  mapM (fun '(k, v) => pair k <$> view n h v) xs = Some vxs →
  match assoc k xs, assoc k vxs with
  | Some c, Some z => view n h c = Some z
  | None, None => True
  | _, _ => False
  end.
Proof.
  intros Hm. apply mapM_Some in Hm.
  induction Hm as [|[k1 c1] [k2 z2] ? ? Hkz _ IH]; simpl; [done|].
  apply fmap_Some in Hkz as (w & Hw & [= -> ->]).
  by destruct (decide (k = k1)).
Qed.

Lemma count_at_view n h xs vxs elem :
  mapM (fun '(k, v) => pair k <$> view n h v) xs = Some vxs →
  count_at h xs elem = count_val vxs elem.
Proof.
  intros Hm. pose proof (items_assoc_view _ _ _ _ elem Hm) as H.
  unfold count_at, count_val.
  destruct (assoc elem xs), (assoc elem vxs); try done.
  by eapply int_at_view.
Qed.

Lemma items_view_frame n h h' xs vxs :
  frame (length h) h h' →
  mapM (fun '(k, v) => pair k <$> view n h v) xs = Some vxs →
  mapM (fun '(k, v) => pair k <$> view n h' v) xs = Some vxs.
Proof.
  intros Hfr Hm.
  eapply (mapM_Forall2 eq); [by apply Forall_Forall2_diag, Forall_true| |done].
  intros [k c] ? w _ <- Hw.
  apply fmap_Some in Hw as (z & Hz & ->).
  apply fmap_Some. exists z. split; [|done]. by eapply view_frame_all.
Qed.

Lemma items_view_Forall2 n h xs vxs :
  mapM (fun '(k, v) => pair k <$> view n h v) xs = Some vxs →
  Forall2 (fun kc kz => kc.1 = kz.1 ∧ view n h kc.2 = Some kz.2) xs vxs.
Proof.
  intros Hm. apply mapM_Some in Hm. eapply Forall2_impl; [exact Hm|].
  intros [k c] [k' z] Hkz. simpl in *.
  by apply fmap_Some in Hkz as (w & Hw & [= -> ->]).
Qed.

Lemma items_view_keys_eq n h xs vxs :
  mapM (fun '(k, v) => pair k <$> view n h v) xs = Some vxs →
  vxs.*1 = xs.*1.
Proof.
  intros Hm. eapply (Forall2_keys (fun c z => view n h c = Some z)).
  by apply items_view_Forall2.
Qed.

Lemma frame_base n0 h0 h hc :
  frame n0 h0 h → (n0 ≤ length h)%nat → frame (length h) h hc → frame n0 h0 hc.
Proof. intros. by eapply frame_step. Qed.

Lemma robust_alloc_int n h0 lo h z :
  (lo ≤ length h)%nat →
  robust (S n) h0 lo (S (length h)) (h ++ [OInt z]) (length h) (VInt z).
Proof.
  intros Hlo h' _ Hag. simpl. rewrite Hag by lia.
  by rewrite lookup_app_r, Nat.sub_diag.
Qed.

Lemma Counter_add_refines n h0 h xs ys vxs vys :
  frame (length h0) h0 h →
  mapM (fun '(k, v) => pair k <$> view n h0 v) xs = Some vxs →
  mapM (fun '(k, v) => pair k <$> view n h0 v) ys = Some vys →
  refines (returns_val (S n) h0 h) (Counter_add h xs ys) (Counter_add_val vxs vys).
Proof.
  intros Hfr Hxs Hys. unfold Counter_add, Counter_add_val.
  assert (length h0 ≤ length h)%nat as Hlen by by eapply frame_length.
  eapply (refines_bind
    (fun '(hc, res) resv =>
       frame (length h) h hc
       ∧ items_robust n h0 (length h) (length hc) hc res resv
       ∧ NoDup res.*1)).
  { eapply foldM_refines; [by apply items_view_Forall2| |].
    { split_and!; [apply frame_refl|constructor|constructor]. }
    intros [hc res] resv [elem c] [elem' vc] (Hf & Hres & Hnd) [He Hc].
    simpl in He, Hc. subst elem'.
    assert (frame (length h0) h0 hc) as Hf0 by by eapply frame_base.
    eapply (refines_bind eq).
    { apply refines_eq. eapply int_at_view. by eapply view_frame_all. }
    intros x ? <-. eapply (refines_bind eq).
    { apply refines_eq. eapply count_at_view.
      by eapply items_view_frame. }
    intros y ? <-. destruct (0 <? x + y); [|by apply refines_Ok].
    apply refines_Ok. simpl.
    split_and!; [| |by apply NoDup_assoc_set].
    - eapply frame_trans; [done|]. apply frame_app. by eapply frame_length.
    - rewrite length_app. simpl. rewrite Nat.add_1_r.
      apply items_robust_assoc_set.
      + eapply items_robust_mono; [..|done]; [lia|lia|].
        intros l ?. apply lookup_app_l. lia.
      + destruct n as [|n]; [done|].
        apply robust_alloc_int. by eapply frame_length. }
  intros [h1 res1] resv1 (Hf1 & Hres1 & Hnd1).
  assert (frame (length h0) h0 h1) as Hf0 by by eapply frame_base.
  eapply (refines_bind
    (fun res resv =>
       items_robust n h0 (length h) (length h1) h1 res resv ∧ NoDup res.*1)).
  { eapply foldM_refines; [by apply items_view_Forall2|done|].
    intros res resv [elem c] [elem' vc] [Hres Hnd] [He Hc].
    simpl in He, Hc. subst elem'.
    pose proof (items_assoc_view _ _ _ _ elem Hxs) as Ha.
    destruct (assoc elem xs), (assoc elem vxs); try done.
    { by apply refines_Ok. }
    eapply (refines_bind eq).
    { apply refines_eq. eapply int_at_view. by eapply view_frame_all. }
    intros y ? <-. destruct (0 <? y); [|by apply refines_Ok].
    apply refines_Ok. split; [|by apply NoDup_assoc_set].
    apply items_robust_assoc_set; [done|]. by apply robust_old. }
  intros res resv [Hres Hnd]. apply refines_Ok.
  split; simpl.
  - eapply frame_trans; [done|]. apply frame_app. by eapply frame_length.
  - intros h' Hfr' Hag. eapply view_dict_robust; [|done| |done|done].
    + rewrite Hag; [by rewrite lookup_app_r, Nat.sub_diag|].
      apply frame_length in Hf1. rewrite length_app. simpl. lia.
    + eapply items_robust_mono; [..|done]; [lia|rewrite length_app; lia|].
      intros l ?. apply lookup_app_l. lia.
Qed.

Lemma mapM_app_Some {A B} (f : A → option B) l1 l2 k1 k2 :
  mapM f l1 = Some k1 → mapM f l2 = Some k2 →
  mapM f (l1 ++ l2) = Some (k1 ++ k2).
Proof.
  rewrite !mapM_Some. apply Forall2_app.
Qed.

Lemma mapM_view_frame n h h' items vs :
  frame (length h) h h' →
  mapM (view n h) items = Some vs → mapM (view n h') items = Some vs.
Proof.
  intros Hfr Hm.
  eapply (mapM_Forall2 eq); [by apply Forall_Forall2_diag, Forall_true| |done].
  intros ? ? ? _ <-. by apply view_frame_all.
Qed.

Lemma operator_add_refines n h0 h a b va vb :
  frame (length h0) h0 h →
  view (S n) h0 a = Some va → view (S n) h0 b = Some vb →
  refines (returns_val (S n) h0 h) (operator_add h a b) (operator_add_val va vb).
Proof.
  intros Hfr Ha Hb. unfold operator_add.
  assert (length h0 ≤ length h)%nat as Hlen by by eapply frame_length.
  apply view_inv in Ha, Hb.
  assert (∀ o o', h0 !! a = Some o → h0 !! b = Some o' →
            deref h a = Ok o ∧ deref h b = Ok o') as Hd.
  { intros o o' Ho Ho'. split; apply deref_lookup; by eapply frame_all_lookup. }
  assert (∀ o, (length h ≤ length (h ++ [o]))%nat ∧
               (h ++ [o]) !! length h = Some o) as Hal.
  { intros o. split; [rewrite length_app; lia|].
    by rewrite lookup_app_r, Nat.sub_diag. }
  destruct va as [x|x| |vxs|x|[] vxs], vb as [y|y| |vys|y|[] vys];
    repeat match goal with
      | H : ∃ _, _ |- _ => destruct H as (? & ? & H)
      | H : _ ∧ _ |- _ => destruct H as [? H]
      end;
    match goal with
    | Ha : h0 !! a = Some _, Hb : h0 !! b = Some _ |- _ =>
        destruct (Hd _ _ Ha Hb) as [-> ->]; simpl
    end;
    try done.
  - apply refines_Ok. split; simpl; [by apply frame_app|].
    intros h' _ Hag. simpl. rewrite Hag by (rewrite length_app; simpl; lia).
    by rewrite lookup_app_r, Nat.sub_diag.
  - apply refines_Ok. split; simpl; [by apply frame_app|].
    intros h' _ Hag. simpl. rewrite Hag by (rewrite length_app; simpl; lia).
    by rewrite lookup_app_r, Nat.sub_diag.
  - apply refines_Ok. split; simpl; [by apply frame_app|].
    intros h' Hfr' Hag. simpl. rewrite Hag by (rewrite length_app; simpl; lia).
    rewrite lookup_app_r, Nat.sub_diag by done. simpl.
    apply fmap_Some. eexists. split; [|done].
    apply mapM_app_Some; by eapply mapM_view_frame.
  - by eapply Counter_add_refines.
Qed.

Lemma operator_or_refines n h0 h a b x y :
  frame (length h0) h0 h →
  view (S n) h0 a = Some (VSet x) → view (S n) h0 b = Some (VSet y) →
  refines (returns_val (S n) h0 h) (operator_or h a b) (Ok (VSet (x ∪ y))).
Proof.
  intros Hfr Ha Hb. unfold operator_or.
  apply view_inv in Ha, Hb.
  rewrite (deref_lookup h a (OSet x)), (deref_lookup h b (OSet y))
    by by eapply frame_all_lookup.
  apply refines_Ok. split; simpl; [by apply frame_app|].
  intros h' _ Hag. simpl. rewrite Hag by (rewrite length_app; simpl; lia).
  by rewrite lookup_app_r, Nat.sub_diag.
Qed.

(** ** Refinement: [deepcopy] and [add] *)

Lemma deepcopy_robust n h0 h x v :
  frame (length h0) h0 h → view n h0 x = Some v →
  ∃ hr, deepcopy n h x = Ok hr ∧ returns_val n h0 h hr v.
Proof.
  intros Hfr Hv.
  destruct (deepcopy_memo_spec n h0 h [] (fun _ => False) x v)
    as (h' & m' & y & Hdc & Hfr' & Hinv & Hrel & _ & Hnew); [done..|].
  exists (h', y). unfold deepcopy. rewrite Hdc. simpl.
  split; [done|]. split; [done|]. simpl.
  intros h'' Hfr'' Hag. eapply sim_view; [done| |done|done].
  intros s t Hs. destruct (Hinv s t Hs) as [[? ?] Hc].
  assert (length h ≤ t)%nat by (by destruct (Hnew s t Hs)).
  assert (h'' !! t = h' !! t) as Ht by (apply Hag; lia).
  split.
  - split; [done|]. apply lookup_lt_is_Some. rewrite Ht.
    by apply lookup_lt_is_Some.
  - intros HP. eapply copy_of_mono; [apply memo_ext_refl|done|auto].
Qed.

Lemma add_val_unfold a b :
  add_val a b =
  if val_Addable a && val_Addable b then operator_add_val a b
  else
    match a, b with
    | VSet x, VSet y => Ok (VSet (x ∪ y))
    | VDict ca ia, VDict cb ib =>
        let* c := merge_class ca cb in
        let* res :=
          foldM (fun res '(k, x) =>
                   match assoc k ib with
                   | Some y =>
                       let* z := add_val x y in
                       Ok (assoc_set k z res)
                   | None => Ok (assoc_set k x res)
                   end)
                ia [] in
        Ok (VDict c
              (foldl (fun res '(k, y) =>
                        if bool_decide (k ∉ ia.*1) then assoc_set k y res
                        else res)
                     res ib))
    | _, _ => Err (ValueError Accumulators (val_type a) (val_type b))
    end.
Proof. by destruct a. Qed.

Lemma foldM_Ok_foldl {A S} (f : S → A → S) (l : list A) s :
  foldM (fun s x => Ok (f s x)) l s = Ok (foldl f s l).
Proof. revert s. induction l as [|x l IH]; intros s; simpl; auto. Qed.

Lemma store_app_last h o o' : store (h ++ [o]) (length h) o' = h ++ [o'].
Proof.
  unfold store. rewrite insert_app_r_alt, Nat.sub_diag by done. done.
Qed.

Lemma assoc_elem_of_keys {A} k (items : list (string * A)) :
  k ∈ items.*1 ↔ is_Some (assoc k items).
Proof. by rewrite assoc_is_Some. Qed.

(** The items of a viewable mapping, key by key. *)
Lemma items_view_keys_gen n h xs0 xs vxs :
  (∀ kc, kc ∈ xs → assoc kc.1 xs0 = Some kc.2) →
  Forall2 (fun kc kz => kc.1 = kz.1 ∧ view n h kc.2 = Some kz.2) xs vxs →
  Forall2 (fun k kz => k = kz.1 ∧ ∃ c, assoc k xs0 = Some c
                                      ∧ view n h c = Some kz.2)
          xs.*1 vxs.
Proof.
  intros Hassoc Hm.
  induction Hm as [|[k c] [k' z] l l' [Hk Hv] _ IH].
  - constructor.
  - simpl in Hk, Hv. subst k'. rewrite fmap_cons. constructor.
    + split; [done|]. exists c. split; [|done]. apply (Hassoc (k, c)). left.
    + apply IH. intros kc Hin. apply Hassoc. by right.
Qed.

Lemma items_view_keys n h xs vxs :
  NoDup xs.*1 →
  mapM (fun '(k, v) => pair k <$> view n h v) xs = Some vxs →
  Forall2 (fun k kz => k = kz.1 ∧ ∃ c, assoc k xs = Some c
                                      ∧ view n h c = Some kz.2)
          xs.*1 vxs.
Proof.
  intros Hnd Hm. apply items_view_keys_gen; [|by apply items_view_Forall2].
  intros [k c] Hin. by apply assoc_elem_NoDup.
Qed.

Theorem add_refines n : ∀ h0 h a b va vb,
  frame (length h0) h0 h →
  view n h0 a = Some va → view n h0 b = Some vb →
  refines (returns_val n h0 h) (add n h a b) (add_val va vb).
Proof.
  induction n as [|n IH]; intros h0 h a b va vb Hfr Ha Hb; [done|].
  assert (length h0 ≤ length h)%nat as Hlen by by eapply frame_length.
  assert (∃ oa, h0 !! a = Some oa) as [oa Hoa].
  { simpl in Ha. destruct (h0 !! a); [eauto|done]. }
  assert (∃ ob, h0 !! b = Some ob) as [ob Hob].
  { simpl in Hb. destruct (h0 !! b); [eauto|done]. }
  destruct (view_caps _ _ _ _ _ Ha Hoa) as (Haa & Has & Ham & Hat).
  destruct (view_caps _ _ _ _ _ Hb Hob) as (Hba & Hbs & Hbm & Hbt).
  simpl add.
  rewrite (deref_lookup h a oa), (deref_lookup h b ob)
    by by eapply frame_all_lookup.
  simpl bind. rewrite add_val_unfold, Haa, Hba, Has, Hbs, Ham, Hbm, Hat, Hbt.
  destruct (val_Addable va && val_Addable vb).
  { by apply operator_add_refines. }
  destruct va as [x|x| |vxs|x|ca via], vb as [y|y| |vys|y|cb vib]; try done.
  { by apply operator_or_refines. }
  (* two mappings *)
  simpl.
  apply view_inv in Ha as (ia & Hoa' & Hnda & Hia).
  apply view_inv in Hb as (ib & Hob' & Hndb & Hib).
  assert (oa = ODict ca ia) as -> by congruence.
  assert (ob = ODict cb ib) as -> by congruence.
  clear Hoa' Hob'. simpl.
  set (out := length h).
  eapply (refines_bind
    (fun '(h1, o) c => o = out ∧ ∃ items, h1 = h ++ [ODict c items])).
  { unfold merge_class, isinstance, copy_copy. simpl type_of.
    destruct (issubclass (TMap cb) (TMap ca)).
    { rewrite (deref_lookup h a (ODict ca ia)) by by eapply frame_all_lookup.
      simpl. apply refines_Ok. split; [done|by eexists]. }
    destruct (issubclass (TMap ca) (TMap cb)); [|done].
    rewrite (deref_lookup h b (ODict cb ib)) by by eapply frame_all_lookup.
    simpl. apply refines_Ok. split; [done|by eexists]. }
  intros [h1 o] c (-> & items & ->).
  unfold clear.
  rewrite (deref_lookup _ out (ODict c items))
    by (subst out; by rewrite lookup_app_r, Nat.sub_diag).
  simpl. subst out. rewrite store_app_last. set (out := length h).
  (* what the two loops maintain *)
  set (RS := fun (hc : heap) resv =>
    frame (length h) h hc ∧ (S out ≤ length hc)%nat
    ∧ ∃ res, hc !! out = Some (ODict c res) ∧ NoDup res.*1
        ∧ items_robust n h0 (S out) (length hc) hc res resv).
  assert (∀ hc, frame (length h) h hc →
            frame (length h0) h0 hc
            ∧ hc !! a = Some (ODict ca ia) ∧ hc !! b = Some (ODict cb ib))
    as Hkeep.
  { intros hc Hf.
    assert (frame (length h0) h0 hc) as Hf0 by by eapply frame_base.
    split_and!; [done|by eapply frame_all_lookup..]. }
  (* storing one more item into [out] *)
  assert (∀ hc resv h1 v z key,
            RS hc resv → returns_val n h0 hc (h1, v) z →
            ∃ h3, setitem h1 out key v = Ok h3
                  ∧ RS h3 (assoc_set key z resv)) as Hset.
  { intros hc resv h1 v z key (Hf & Hlt & res & Hout & Hnd & Hres) [Hf1 Hv].
    simpl in Hf1, Hv.
    assert (length hc ≤ length h1)%nat by by eapply frame_length.
    assert (h1 !! out = Some (ODict c res)) as Hout1.
    { by eapply frame_all_lookup. }
    eexists. split.
    { unfold setitem. by rewrite (deref_lookup _ _ _ Hout1). }
    assert (agree (S out) (length h1) h1
              (store h1 out (ODict c (assoc_set key v res)))) as Hag.
    { apply agree_store. lia. }
    split_and!.
    - eapply frame_trans; [eapply frame_step; [|done..]; lia|].
      by apply frame_store.
    - unfold store. rewrite length_insert. lia.
    - exists (assoc_set key v res). split_and!.
      + unfold store. apply list_lookup_insert_eq. by eapply lookup_lt_Some.
      + by apply NoDup_assoc_set.
      + unfold store at 1. rewrite length_insert.
        apply items_robust_assoc_set.
        * eapply items_robust_mono; [| | |done]; [lia|lia|].
          eapply agree_trans; [eapply frame_agree; [|done]; lia|].
          eapply agree_le; [| |done]; lia.
        * eapply robust_mono; [| | |done]; [lia|lia|].
          eapply agree_le; [| |done]; lia. }
  eapply (refines_bind RS).
  { (* the keys of [a] *)
    unfold for_keys.
    rewrite (deref_lookup _ a (ODict ca ia)).
    2:{ apply lookup_app_l_Some. by eapply frame_all_lookup. }
    simpl.
    eapply iterate_refines; [by apply items_view_keys| |].
    { split_and!; [by apply frame_app|rewrite length_app; simpl; lia|].
      exists []. split_and!; [|constructor|constructor].
      subst out. by rewrite lookup_app_r, Nat.sub_diag. }
    intros hc resv k [k' x] HRS (Hk & cx & Hcx & Hx). simpl in Hk, Hx. subst k'.
    destruct (Hkeep hc) as (Hf0 & Hca & Hcb); [by destruct HRS|].
    assert (∀ h3 t', RS h3 t' →
              RS h3 t' ∧ dict_size h3 a = Some (length ia.*1)) as Hsz.
    { intros h3 t' H3. split; [done|]. unfold dict_size.
      destruct (Hkeep h3) as (_ & -> & _); [by destruct H3|].
      by rewrite length_fmap. }
    pose proof (items_assoc_view _ _ _ _ k Hib) as Hkb.
    unfold getitem. rewrite (deref_lookup _ _ _ Hca). simpl. rewrite Hcx.
    destruct (assoc k ib) as [cy|] eqn:Hcy, (assoc k vib) as [y|]; try done.
    - rewrite bool_decide_eq_true_2 by (apply assoc_elem_of_keys; eauto).
      simpl. rewrite (deref_lookup _ _ _ Hcb). simpl. rewrite Hcy. simpl.
      eapply refines_bind; [by apply IH|].
      intros [h1 v] z Hret.
      destruct (Hset hc resv h1 v z k HRS Hret) as (h3 & -> & H3).
      exists h3. split; [done|by apply Hsz].
    - rewrite bool_decide_eq_false_2.
      2:{ rewrite assoc_elem_of_keys, Hcy. by intros [? ?]. }
      simpl.
      destruct (deepcopy_robust n h0 hc cx x Hf0 Hx) as ([h1 v] & -> & Hret).
      simpl.
      destruct (Hset hc resv h1 v x k HRS Hret) as (h3 & -> & H3).
      exists h3. split; [done|by apply Hsz]. }
  intros h2 resv1 HRS1.
  (* the keys of [b] *)
  match goal with
  | |- refines _ _ (Ok (VDict c (foldl ?f ?s ?l))) =>
      replace (Ok (VDict c (foldl f s l)))
        with (bind (foldM (fun s x => Ok (f s x)) l s)
                   (fun res => Ok (VDict c res)))
        by (by rewrite foldM_Ok_foldl)
  end.
  eapply (refines_bind RS).
  { unfold for_keys.
    destruct (Hkeep h2) as (_ & _ & Hcb2); [by destruct HRS1|].
    rewrite (deref_lookup _ _ _ Hcb2). simpl.
    eapply iterate_refines; [by apply items_view_keys|done|].
    intros hc resv k [k' y] HRS (Hk & cy & Hcy & Hy). simpl in Hk, Hy. subst k'.
    destruct (Hkeep hc) as (Hf0 & Hca & Hcb); [by destruct HRS|].
    assert (∀ h3 t', RS h3 t' →
              RS h3 t' ∧ dict_size h3 b = Some (length ib.*1)) as Hsz.
    { intros h3 t' H3. split; [done|]. unfold dict_size.
      destruct (Hkeep h3) as (_ & _ & ->); [by destruct H3|].
      by rewrite length_fmap. }
    assert (ia.*1 = via.*1) as <-.
    { apply items_view_Forall2 in Hia. clear -Hia.
      induction Hia as [|? ? ? ? [Hk _] _ IHi]; [done|].
      rewrite !fmap_cons. by rewrite Hk, IHi. }
    destruct (bool_decide (k ∉ ia.*1)); [|apply refines_Ok; by apply Hsz].
    unfold getitem. rewrite (deref_lookup _ _ _ Hcb). simpl. rewrite Hcy.
    simpl.
    destruct (deepcopy_robust n h0 hc cy y Hf0 Hy) as ([h1 v] & -> & Hret).
    simpl.
    destruct (Hset hc resv h1 v y k HRS Hret) as (h3 & -> & H3).
    exists h3. split; [done|by apply Hsz]. }
  intros h3 resv (Hf3 & Hlt3 & res & Hout3 & Hnd3 & Hres3).
  apply refines_Ok. split; simpl; [done|].
  intros h' Hfr' Hag. eapply view_dict_robust; [|done|done|done|].
  - rewrite Hag; [done|]. subst out. lia.
  - eapply agree_le; [| |done]; subst out; lia.
Qed.

(** ** The merge of two mappings, on values *)

Section merge.
Context {A : Type}.
Implicit Types (res ia ib : list (string * A)) (k : string).

(** The second loop of the merge: the keys of [ib] outside [keysA] are
    appended, in order. *)
Lemma merge_new_keys (keysA : list string) ib (res0 : list (string * A)) :
  NoDup ib.*1 →
  (∀ k, k ∈ ib.*1 → k ∉ keysA → k ∉ res0.*1) →
  let res := foldl (fun res '(k, y) =>
                      if bool_decide (k ∉ keysA) then assoc_set k y res
                      else res) res0 ib in
  res.*1 = res0.*1 ++ filter (fun k => k ∉ keysA) ib.*1
  ∧ (∀ k, k ∈ res0.*1 → assoc k res = assoc k res0)
  ∧ (∀ k y, k ∉ keysA → assoc k ib = Some y → assoc k res = Some y).
Proof.
  revert res0. induction ib as [|[k y] ib IH]; intros res0 Hnd Hnew; simpl.
  - split_and!; [by rewrite app_nil_r|done|done].
  - apply NoDup_cons in Hnd as [Hk Hnd].
    rewrite filter_cons. case_bool_decide as Hdec; case_decide; try done.
    + assert (k ∉ res0.*1) as Hk0 by (apply Hnew; [left|done]).
      edestruct (IH (assoc_set k y res0) Hnd) as (Hkeys & Hold & Hnewk).
      { intros k' Hin Hk'. rewrite assoc_set_keys_notin, fmap_app by done.
        rewrite not_elem_of_app. split; [apply Hnew; [by right|done]|].
        simpl. intros ->%list_elem_of_singleton. done. }
      split_and!.
      * rewrite Hkeys, assoc_set_keys_notin, fmap_app by done.
        by rewrite <- app_assoc.
      * intros k' Hin. rewrite Hold.
        -- apply assoc_set_ne. by intros ->.
        -- rewrite assoc_set_keys_notin, fmap_app by done.
           apply elem_of_app. by left.
      * intros k' y' Hk'. destruct (decide (k' = k)) as [->|Hne].
        -- intros [= ->]. rewrite Hold; [apply assoc_set_eq|].
           rewrite assoc_set_keys_notin, fmap_app by done.
           apply elem_of_app. right. left.
        -- by apply Hnewk.
    + edestruct (IH res0 Hnd) as (Hkeys & Hold & Hnewk).
      { intros k' Hin Hk'. apply Hnew; [by right|done]. }
      split_and!; [done|done|].
      intros k' y' Hk'. destruct (decide (k' = k)) as [->|Hne]; [done|].
      by apply Hnewk.
Qed.
End merge.

(** The first loop of the merge: every key of [ia], in order, with the
    combination of the two values when [ib] has the key. *)
Lemma merge_shared_keys (ia ib res0 res : list (string * pyval)) :
  foldM (fun res '(k, x) =>
           match assoc k ib with
           | Some y => let* z := add_val x y in Ok (assoc_set k z res)
           | None => Ok (assoc_set k x res)
           end) ia res0 = Ok res →
  NoDup (res0.*1 ++ ia.*1) →
  res.*1 = res0.*1 ++ ia.*1
  ∧ (∀ k, k ∈ res0.*1 → assoc k res = assoc k res0)
  ∧ (∀ k x, assoc k ia = Some x →
       match assoc k ib with
       | Some y => ∃ z, add_val x y = Ok z ∧ assoc k res = Some z
       | None => assoc k res = Some x
       end).
Proof.
  revert res0 res.
  induction ia as [|[k x] ia IH]; intros res0 res Hf Hnd; simpl in *.
  - injection Hf as <-. split_and!; [by rewrite app_nil_r|done|done].
  - assert (k ∉ res0.*1) as Hk0.
    { apply NoDup_app in Hnd as (_ & Hnd & _). intros Hin.
      apply (Hnd _ Hin). left. }
    assert (∀ (z : pyval), NoDup ((assoc_set k z res0).*1 ++ ia.*1)) as Hnd'.
    { intros z. rewrite assoc_set_keys_notin, fmap_app by done. simpl.
      by rewrite <- app_assoc. }
    assert (∀ (z : pyval) k', k' ∈ res0.*1 →
              k' ∈ (assoc_set k z res0).*1 ∧ k ≠ k') as Hin'.
    { intros z k' Hin. split; [|by intros ->].
      rewrite assoc_set_keys_notin, fmap_app by done. apply elem_of_app.
      by left. }
    assert (∀ (z : pyval) res,
              foldM (fun res '(k, x) =>
                match assoc k ib with
                | Some y => let* z := add_val x y in Ok (assoc_set k z res)
                | None => Ok (assoc_set k x res)
                end) ia (assoc_set k z res0) = Ok res →
              res.*1 = res0.*1 ++ k :: ia.*1
              ∧ (∀ k', k' ∈ res0.*1 → assoc k' res = assoc k' res0)
              ∧ assoc k res = Some z
              ∧ (∀ k' x', k' ≠ k → assoc k' ia = Some x' →
                   match assoc k' ib with
                   | Some y => ∃ z, add_val x' y = Ok z ∧ assoc k' res = Some z
                   | None => assoc k' res = Some x'
                   end)) as Hall.
    { intros z res' Hf'.
      destruct (IH _ _ Hf' (Hnd' z)) as (Hkeys & Hold & Hsh).
      split_and!.
      - rewrite Hkeys, assoc_set_keys_notin, fmap_app by done.
        by rewrite <- app_assoc.
      - intros k' Hk'. destruct (Hin' z k' Hk') as [? ?].
        rewrite Hold by done. by apply assoc_set_ne.
      - rewrite Hold; [apply assoc_set_eq|].
        rewrite assoc_set_keys_notin, fmap_app by done.
        apply elem_of_app. right. left.
      - intros k' x' _ Hx'. by apply Hsh. }
    destruct (assoc k ib) as [y|] eqn:Hy.
    + bind_inv Hf as s Hs. bind_inv Hs as z Hz. injection Hs as <-.
      destruct (Hall z res Hf) as (Hkeys & Hold & Hk & Hsh).
      split_and!; [done|done|].
      intros k' x'. destruct (decide (k' = k)) as [->|Hne].
      * intros [= <-]. rewrite Hy. eauto.
      * by apply Hsh.
    + simpl in Hf. destruct (Hall x res Hf) as (Hkeys & Hold & Hk & Hsh).
      split_and!; [done|done|].
      intros k' x'. destruct (decide (k' = k)) as [->|Hne].
      * intros [= <-]. by rewrite Hy.
      * by apply Hsh.
Qed.

(** The first loop returns when every value pair of a shared key
    combines. *)
Lemma merge_shared_keys_ok (ia ib res0 : list (string * pyval)) :
  (∀ k x y, (k, x) ∈ ia → assoc k ib = Some y → is_Ok (add_val x y)) →
  is_Ok (foldM (fun res '(k, x) =>
           match assoc k ib with
           | Some y => let* z := add_val x y in Ok (assoc_set k z res)
           | None => Ok (assoc_set k x res)
           end) ia res0).
Proof.
  revert res0. induction ia as [|[k x] ia IH]; intros res0 Hok; simpl.
  - by eexists.
  - destruct (assoc k ib) as [y|] eqn:Hy; simpl.
    + destruct (Hok k x y) as [z ->]; [left|done|]. simpl.
      apply IH. intros. eapply Hok; [by right|done].
    + apply IH. intros. eapply Hok; [by right|done].
Qed.

(** The merge of two mappings that are not both addable. *)
Lemma add_val_dict ca ia cb ib v :
  NoDup ia.*1 → NoDup ib.*1 →
  val_Addable (VDict ca ia) && val_Addable (VDict cb ib) = false →
  add_val (VDict ca ia) (VDict cb ib) = Ok v →
  ∃ c ir,
    v = VDict c ir ∧ merge_class ca cb = Ok c
    ∧ ir.*1 = ia.*1 ++ filter (fun k => k ∉ ia.*1) ib.*1
    ∧ (∀ k x y, assoc k ia = Some x → assoc k ib = Some y →
         ∃ z, add_val x y = Ok z ∧ assoc k ir = Some z)
    ∧ (∀ k x, assoc k ia = Some x → assoc k ib = None → assoc k ir = Some x)
    ∧ (∀ k y, assoc k ia = None → assoc k ib = Some y → assoc k ir = Some y).
Proof.
  intros Hnda Hndb Hcat. rewrite add_val_unfold, Hcat. intros Hadd.
  bind_inv Hadd as c Hc. bind_inv Hadd as res1 Hl1. injection Hadd as <-.
  destruct (merge_shared_keys ia ib [] res1 Hl1) as (Hk1 & _ & Hsh); [done|].
  simpl in Hk1.
  edestruct (merge_new_keys ia.*1 ib res1 Hndb) as (Hk2 & Hold & Hnew).
  { intros k _ Hk. by rewrite Hk1. }
  eexists c, _. split_and!; [done|done|by rewrite Hk2, Hk1|..].
  - intros k x y Hx Hy. specialize (Hsh k x Hx). rewrite Hy in Hsh.
    destruct Hsh as (z & Hz & Hr). exists z. split; [done|].
    rewrite Hold; [done|]. rewrite Hk1. apply assoc_is_Some. eauto.
  - intros k x Hx Hy. specialize (Hsh k x Hx). rewrite Hy in Hsh.
    rewrite Hold; [done|]. rewrite Hk1. apply assoc_is_Some. eauto.
  - intros k y Hx Hy. apply Hnew; [|done]. by apply assoc_None.
Qed.

Lemma add_val_dict_ok ca ia cb ib :
  val_Addable (VDict ca ia) && val_Addable (VDict cb ib) = false →
  is_Ok (merge_class ca cb) →
  (∀ k x y, assoc k ia = Some x → assoc k ib = Some y → is_Ok (add_val x y)) →
  NoDup ia.*1 →
  is_Ok (add_val (VDict ca ia) (VDict cb ib)).
Proof.
  intros Hcat [c Hc] Hok Hnd. rewrite add_val_unfold, Hcat, Hc. simpl.
  destruct (merge_shared_keys_ok ia ib []) as [res ->]; [|by eexists].
  intros k x y Hin. apply Hok. by apply assoc_elem_NoDup.
Qed.

(** * The statements of the specification *)

(** ** C1: what [add] makes of two mappings *)

Example add_xy_yz :
  ∃ h' r, add 2 heap_xy_yz 2 5 = Ok (h', r)
    ∧ view 2 h' r
      = Some (VDict Dict [("x"%string, VInt 1); ("y"%string, VInt 12);
                          ("z"%string, VInt 3)]).
Proof. eexists _, _. split; reflexivity. Qed.

Example add_nested :
  ∃ h' r, add 3 heap_nested 2 6 = Ok (h', r)
    ∧ view 3 h' r
      = Some (VDict Dict [("a"%string,
                           VDict Dict [("x"%string, VInt 3);
                                       ("y"%string, VInt 5)])]).
Proof. eexists _, _. split; reflexivity. Qed.

(** C1.  Let [a] and [b] be two mappings with finite values that [add]
    treats as mappings (they are not both addable) and whose classes are
    compatible.  Then [add a b] returns as soon as [add] returns on the two
    values of every key of both; and whenever it returns, the result is a
    mapping whose keys are the keys of [a] in [a]'s order followed by the
    keys of [b] that [a] does not have, in [b]'s order; under a key of both
    it holds the value of [add] of the two values, and under a key of one
    side a value equal to that side's. *)
Theorem add_merges_mappings n h a b ca ia cb ib :
  h !! a = Some (ODict ca ia) → h !! b = Some (ODict cb ib) →
  is_Some (view n h a) → is_Some (view n h b) →
  is_Addable (ODict ca ia) && is_Addable (ODict cb ib) = false →
  is_Ok (merge_class ca cb) →
  ((∀ k x y, assoc k ia = Some x → assoc k ib = Some y →
             is_Ok (add n h x y)) →
   is_Ok (add n h a b))
  ∧ ∀ h' r, add n h a b = Ok (h', r) →
      ∃ c ir,
        h' !! r = Some (ODict c ir) ∧ merge_class ca cb = Ok c
        ∧ ir.*1 = ia.*1 ++ filter (fun k => k ∉ ia.*1) ib.*1
        ∧ (∀ k x y, assoc k ia = Some x → assoc k ib = Some y →
             ∃ z h1 r1, assoc k ir = Some z ∧ add n h x y = Ok (h1, r1)
                        ∧ is_Some (view n h' z)
                        ∧ view n h' z = view n h1 r1)
        ∧ (∀ k x, assoc k ia = Some x → assoc k ib = None →
             ∃ z, assoc k ir = Some z ∧ is_Some (view n h x)
                  ∧ view n h' z = view n h x)
        ∧ (∀ k y, assoc k ia = None → assoc k ib = Some y →
             ∃ z, assoc k ir = Some z ∧ is_Some (view n h y)
                  ∧ view n h' z = view n h y).
Proof.
  intros Ha Hb [va Hva] [vb Hvb] Hcat Hcls.
  destruct n as [|n]; [done|].
  pose proof (view_inv _ _ _ _ Hva) as Hia.
  pose proof (view_inv _ _ _ _ Hvb) as Hib.
  pose proof (view_caps _ _ _ _ _ Hva Ha) as (Haa & _ & _ & Hta).
  pose proof (view_caps _ _ _ _ _ Hvb Hb) as (Hba & _ & _ & Htb).
  destruct va as [| | | | |ca' via]; try done.
  destruct vb as [| | | | |cb' vib]; try done.
  injection Hta as <-. injection Htb as <-.
  destruct Hia as (ia' & Ha' & Hnda & Hia).
  destruct Hib as (ib' & Hb' & Hndb & Hib).
  assert (ia' = ia) as -> by congruence.
  assert (ib' = ib) as -> by congruence.
  rewrite Haa, Hba in Hcat.
  pose proof (add_refines (S n) h h a b _ _ (frame_refl _ _) Hva Hvb) as Href.
  (* the values of the two sides of a key, and their combination *)
  assert (∀ k x y, assoc k ia = Some x → assoc k ib = Some y →
            ∃ vx vy, assoc k via = Some vx ∧ assoc k vib = Some vy
              ∧ view (S n) h x = Some vx
              ∧ refines (returns_val (S n) h h) (add (S n) h x y)
                        (add_val vx vy)) as Hkey.
  { intros k x y Hx Hy.
    pose proof (items_assoc_view _ _ _ _ k Hia) as Hkx.
    pose proof (items_assoc_view _ _ _ _ k Hib) as Hky.
    rewrite Hx in Hkx. rewrite Hy in Hky.
    destruct (assoc k via) as [vx|]; [|done].
    destruct (assoc k vib) as [vy|]; [|done].
    exists vx, vy. split_and!; [done|done|by apply view_S|].
    apply add_refines; [apply frame_refl|by apply view_S..]. }
  split.
  - intros Hok.
    destruct (add_val_dict_ok ca via cb vib) as [v Hv]; [done|done| |
      by rewrite (items_view_keys_eq _ _ _ _ Hia)|].
    { intros k vx vy Hvx Hvy.
      pose proof (items_assoc_view _ _ _ _ k Hia) as Hkx.
      pose proof (items_assoc_view _ _ _ _ k Hib) as Hky.
      rewrite Hvx in Hkx. rewrite Hvy in Hky.
      destruct (assoc k ia) as [x|] eqn:Hx; [|done].
      destruct (assoc k ib) as [y|] eqn:Hy; [|done].
      destruct (Hkey k x y Hx Hy) as (vx' & vy' & Hvx' & Hvy' & _ & Hr).
      assert (vx' = vx) as -> by congruence.
      assert (vy' = vy) as -> by congruence.
      destruct (Hok k x y Hx Hy) as [[h1 r1] H1].
      destruct (refines_Ok_inv _ _ _ _ Hr H1) as (z & -> & _). by eexists. }
    unfold refines in Href. rewrite Hv in Href.
    destruct Href as (hr & -> & _). by eexists.
  - intros h' r Hadd.
    destruct (refines_Ok_inv _ _ _ _ Href Hadd) as (v & Hv & Hfr & Hrob).
    simpl in Hfr, Hrob.
    specialize (Hrob h' Hfr (agree_refl _ _ _)).
    destruct (add_val_dict ca via cb vib v) as (c & vr & -> & Hc & Hkeys & Hsh
                                                 & Hl & Hr); [| |done|done|].
    { by rewrite (items_view_keys_eq _ _ _ _ Hia). }
    { by rewrite (items_view_keys_eq _ _ _ _ Hib). }
    apply view_inv in Hrob as (ir & Hr' & Hndr & Hir).
    pose proof (items_view_keys_eq _ _ _ _ Hir) as Hkr.
    pose proof (items_view_keys_eq _ _ _ _ Hia) as Hka.
    pose proof (items_view_keys_eq _ _ _ _ Hib) as Hkb.
    (* the item of the result under a key, given its value *)
    assert (∀ k z, assoc k vr = Some z →
              ∃ zl, assoc k ir = Some zl ∧ view (S n) h' zl = Some z) as Hres.
    { intros k z Hz.
      pose proof (items_assoc_view _ _ _ _ k Hir) as Hkz. rewrite Hz in Hkz.
      destruct (assoc k ir) as [zl|]; [|done].
      exists zl. split; [done|]. by apply view_S. }
    exists c, ir. split_and!; [done|done|by rewrite <- Hkr, Hkeys, Hka, Hkb|..].
    + intros k x y Hx Hy.
      destruct (Hkey k x y Hx Hy) as (vx & vy & Hvx & Hvy & _ & Hrxy).
      destruct (Hsh k vx vy Hvx Hvy) as (z & Hz & Hzr).
      destruct (Hres k z Hzr) as (zl & Hzl & Hvz).
      unfold refines in Hrxy. rewrite Hz in Hrxy.
      destruct Hrxy as ([h1 r1] & H1 & Hf1 & Hrob1). simpl in Hf1, Hrob1.
      exists zl, h1, r1. split_and!; [done|done|by eexists|].
      rewrite Hvz. symmetry. apply Hrob1; [done|apply agree_refl].
    + intros k x Hx Hy.
      pose proof (items_assoc_view _ _ _ _ k Hia) as Hkx.
      pose proof (items_assoc_view _ _ _ _ k Hib) as Hky.
      rewrite Hx in Hkx. rewrite Hy in Hky.
      destruct (assoc k via) as [vx|] eqn:Hvx; [|done].
      destruct (assoc k vib) as [vy|] eqn:Hvy; [done|].
      destruct (Hres k vx (Hl k vx Hvx Hvy)) as (zl & Hzl & Hvz).
      exists zl. apply view_S in Hkx. rewrite Hkx, Hvz. eauto.
    + intros k y Hx Hy.
      pose proof (items_assoc_view _ _ _ _ k Hia) as Hkx.
      pose proof (items_assoc_view _ _ _ _ k Hib) as Hky.
      rewrite Hx in Hkx. rewrite Hy in Hky.
      destruct (assoc k via) as [vx|] eqn:Hvx; [done|].
      destruct (assoc k vib) as [vy|] eqn:Hvy; [|done].
      destruct (Hres k vy (Hr k vy Hvx Hvy)) as (zl & Hzl & Hvz).
      exists zl. apply view_S in Hky. rewrite Hky, Hvz. eauto.
Qed.

Lemma add_merges_mappings_witness :
  ∃ h' r c ir,
    add 2 heap_xy_yz 2 5 = Ok (h', r) ∧ h' !! r = Some (ODict c ir)
    ∧ ir.*1 = ["x"; "y"; "z"]%string.
Proof.
  destruct (add_merges_mappings 2 heap_xy_yz 2 5 Dict
              [("x"%string, 0%nat); ("y"%string, 1%nat)] Dict
              [("y"%string, 3%nat); ("z"%string, 4%nat)])
    as [_ Hres];
    [reflexivity|reflexivity|by eexists|by eexists|reflexivity|by eexists|].
  destruct (Hres _ _ eq_refl) as (c & ir & Hr & _ & Hk & _).
  eexists _, _, c, ir. split; [reflexivity|]. split; [exact Hr|exact Hk].
Defined.

(** ** C2: [add] does not mutate its operands *)

(** C2.  Whenever [add a b] returns, every object that existed before the
    call is as it was, so [a] and [b] have the values they had. *)
Theorem add_leaves_inputs n h a b h' r :
  add n h a b = Ok (h', r) →
  (∀ l o, h !! l = Some o → h' !! l = Some o)
  ∧ (∀ m, is_Some (view m h a) → view m h' a = view m h a)
  ∧ (∀ m, is_Some (view m h b) → view m h' b = view m h b).
Proof.
  intros Hadd. apply add_frame in Hadd.
  assert (∀ l o, h !! l = Some o → h' !! l = Some o) as Hkeep.
  { intros l o. by apply frame_all_lookup. }
  split_and!; [done|..]; intros m [v Hv]; rewrite Hv;
    by apply (view_frame _ h).
Qed.

Lemma add_leaves_inputs_witness :
  ∃ h' r,
    add 2 heap_xy_yz 2 5 = Ok (h', r)
    ∧ (∀ l o, heap_xy_yz !! l = Some o → h' !! l = Some o)
    ∧ view 2 h' 2 = view 2 heap_xy_yz 2
    ∧ view 2 h' 5 = view 2 heap_xy_yz 5.
Proof.
  eexists _, _. split; [reflexivity|].
  destruct (add_leaves_inputs 2 heap_xy_yz 2 5 _ _ eq_refl) as (H1 & H2 & H3).
  split_and!; [exact H1|apply H2; by eexists|apply H3; by eexists].
Defined.

(** ** C4: one item *)

(** C4.  With no initial accumulator, [accumulate [x]] returns the
    reference [x] itself and leaves the heap as it was: nothing is
    combined, copied or mutated. *)
Theorem accumulate_singleton fuel h x :
  accumulate fuel h [Some x] None = Ok (h, Some x).
Proof. reflexivity. Qed.

(** ** C7: absent items *)

Lemma omap_id_Some {A} (l : list A) : omap id (Some <$> l) = l.
Proof. induction l as [|x l IH]; [done|]. simpl. by f_equal. Qed.

(** C7.  [accumulate] of no item, or of absent items only, returns the
    absent result; absent entries around an item change nothing; in
    general the result is that of the items that are present. *)
Theorem accumulate_skips_None fuel h :
  accumulate fuel h [] None = Ok (h, None)
  ∧ accumulate fuel h [None; None] None = Ok (h, None)
  ∧ (∀ x, accumulate fuel h [None; Some x; None] None
          = accumulate fuel h [Some x] None)
  ∧ (∀ k, accumulate fuel h (replicate k None) None = Ok (h, None))
  ∧ (∀ items accum,
       accumulate fuel h items accum
       = accumulate fuel h (Some <$> omap id items) accum).
Proof.
  split_and!; try reflexivity.
  - intros k. unfold accumulate.
    replace (omap id (replicate k (@None loc))) with (@nil loc); [done|].
    induction k; simpl; auto.
  - intros items accum. unfold accumulate. by rewrite omap_id_Some.
Qed.

(** ** Dispatch *)

Lemma add_addable fuel h a b oa ob :
  h !! a = Some oa → h !! b = Some ob →
  is_Addable oa && is_Addable ob = true →
  add (S fuel) h a b = operator_add h a b.
Proof.
  intros Ha Hb Hc. simpl.
  rewrite (deref_lookup _ _ _ Ha), (deref_lookup _ _ _ Hb). simpl.
  by rewrite Hc.
Qed.

Lemma iadd_addable fuel h a b oa ob :
  h !! a = Some oa → h !! b = Some ob →
  is_Addable oa && is_Addable ob = true →
  iadd (S fuel) h a b = operator_iadd h a b.
Proof.
  intros Ha Hb Hc. simpl.
  rewrite (deref_lookup _ _ _ Ha), (deref_lookup _ _ _ Hb). simpl.
  by rewrite Hc.
Qed.

Lemma add_sets fuel h a b oa ob :
  h !! a = Some oa → h !! b = Some ob →
  is_Addable oa && is_Addable ob = false →
  is_MutableSet oa && is_MutableSet ob = true →
  add (S fuel) h a b = operator_or h a b.
Proof.
  intros Ha Hb Hc Hs. simpl.
  rewrite (deref_lookup _ _ _ Ha), (deref_lookup _ _ _ Hb). simpl.
  by rewrite Hc, Hs.
Qed.

Lemma iadd_sets fuel h a b oa ob :
  h !! a = Some oa → h !! b = Some ob →
  is_Addable oa && is_Addable ob = false →
  is_MutableSet oa && is_MutableSet ob = true →
  iadd (S fuel) h a b = operator_ior h a b.
Proof.
  intros Ha Hb Hc Hs. simpl.
  rewrite (deref_lookup _ _ _ Ha), (deref_lookup _ _ _ Hb). simpl.
  by rewrite Hc, Hs.
Qed.

(** ** C5: folding integers and sets *)

Lemma Forall2_perm_l {A B} (R : A → B → Prop) l l' k :
  l ≡ₚ l' → Forall2 R l k → ∃ k', Forall2 R l' k' ∧ k ≡ₚ k'.
Proof.
  intros Hp. revert k. induction Hp as [|x l l' Hp IH|x y l|l l' l'' _ IH1 _ IH2];
    intros k Hk.
  - inversion Hk; subst. by exists [].
  - inversion Hk as [|? z ? k0 Hz Hk0]; subst.
    destruct (IH _ Hk0) as (k' & ? & ?). exists (z :: k').
    split; [by constructor|by constructor].
  - inversion Hk as [|? z ? k0 Hz Hk0]; subst.
    inversion Hk0 as [|? z' ? k1 Hz' Hk1]; subst.
    exists (z' :: z :: k1). split; [by repeat constructor|apply perm_swap].
  - destruct (IH1 _ Hk) as (k' & Hk' & ?).
    destruct (IH2 _ Hk') as (k'' & ? & ?).
    exists k''. split; [done|by etrans].
Qed.

Lemma sum_Z_perm zs zs' : zs ≡ₚ zs' → sum_Z zs = sum_Z zs'.
Proof. unfold sum_Z. induction 1; simpl; lia. Qed.

Lemma foldl_add_sum z zs : foldl Z.add z zs = z + sum_Z zs.
Proof.
  revert z. unfold sum_Z. induction zs as [|z' zs IH]; intros z; simpl; [lia|].
  rewrite IH. lia.
Qed.

Lemma foldl_union_list (s : gset Z) ss : foldl (∪) s ss = s ∪ ⋃ ss.
Proof.
  revert s. induction ss as [|s' ss IH]; intros s.
  - rewrite union_list_nil. simpl. by rewrite union_empty_r_L.
  - rewrite union_list_cons. simpl. rewrite IH. by rewrite (assoc_L (∪)).
Qed.

(** Folding integers into an accumulator: each [iadd] returns a new
    integer object. *)
Lemma iadd_loop_ints fuel rest : ∀ zs h acc z,
  h !! acc = Some (OInt z) →
  Forall2 (fun l z => h !! l = Some (OInt z)) rest zs →
  ∃ h' r, iadd_loop (S fuel) h acc rest = Ok (h', r)
          ∧ h' !! r = Some (OInt (foldl Z.add z zs))
          ∧ frame (length h) h h'.
Proof.
  induction rest as [|x rest IH]; intros zs h acc z Hacc Hrest;
    inversion Hrest as [|? zx ? zs' Hx Hrest']; subst.
  - exists h, acc. split_and!; [done|done|apply frame_refl].
  - cbn [iadd_loop]. rewrite (iadd_addable _ _ _ _ _ _ Hacc Hx eq_refl).
    unfold operator_iadd, operator_add.
    rewrite (deref_lookup _ _ _ Hacc), (deref_lookup _ _ _ Hx). simpl.
    edestruct (IH zs' (h ++ [OInt (z + zx)]) (length h) (z + zx))
      as (h' & r & Hloop & Hr & Hfr).
    { by rewrite lookup_app_r, Nat.sub_diag. }
    { eapply Forall2_impl; [exact Hrest'|]. intros l zl Hl.
      by apply lookup_app_l_Some. }
    exists h', r. split_and!; [done|done|].
    eapply frame_trans; [by apply frame_app|].
    eapply frame_le; [|done]. rewrite length_app. lia.
Qed.

(** Folding sets into a set that is not one of them: each [iadd] unites
    in place. *)
Lemma iadd_loop_sets fuel n0 rest : ∀ ss h acc s,
  (n0 ≤ acc)%nat → h !! acc = Some (OSet s) →
  Forall2 (fun l s => (l < n0)%nat ∧ h !! l = Some (OSet s)) rest ss →
  ∃ h', iadd_loop (S fuel) h acc rest = Ok (h', acc)
        ∧ h' !! acc = Some (OSet (foldl (∪) s ss))
        ∧ frame n0 h h'.
Proof.
  induction rest as [|x rest IH]; intros ss h acc s Hn Hacc Hrest;
    inversion Hrest as [|? sx ? ss' [Hxn Hx] Hrest']; subst.
  - exists h. split_and!; [done|done|apply frame_refl].
  - cbn [iadd_loop].
    rewrite (iadd_sets _ _ _ _ _ _ Hacc Hx eq_refl eq_refl).
    unfold operator_ior.
    rewrite (deref_lookup _ _ _ Hacc), (deref_lookup _ _ _ Hx). simpl.
    edestruct (IH ss' (store h acc (OSet (s ∪ sx))) acc (s ∪ sx))
      as (h' & Hloop & Hr & Hfr); [done| | |].
    { unfold store. apply list_lookup_insert_eq. by eapply lookup_lt_Some. }
    { eapply Forall2_impl; [exact Hrest'|]. intros l sl [? Hl].
      split; [done|]. unfold store. rewrite list_lookup_insert_ne; [done|lia]. }
    exists h'. split_and!; [done|done|].
    eapply frame_trans; [by apply frame_store|done].
Qed.

(** C5.  For a non-empty list of integers, [accumulate] returns an integer
    holding their left fold by [+], which is their sum, whatever their
    order; with two items or more it is computed by one [add] of the first
    two followed by an [iadd] of each other item; no object that existed is
    changed.  For a non-empty list of sets it returns a set holding their
    union, whatever their order. *)
Theorem accumulate_folds fuel h ls zs ss :
  ls ≠ [] →
  (Forall2 (fun l z => h !! l = Some (OInt z)) ls zs →
   ∃ h' r z,
     accumulate (S fuel) h (Some <$> ls) None = Ok (h', Some r)
     ∧ h' !! r = Some (OInt z)
     ∧ reduce Z.add zs = Some z ∧ z = sum_Z zs
     ∧ frame (length h) h h'
     ∧ ∀ ls', ls ≡ₚ ls' →
         ∃ h'' r', accumulate (S fuel) h (Some <$> ls') None = Ok (h'', Some r')
                   ∧ h'' !! r' = Some (OInt z))
  ∧ (Forall2 (fun l s => h !! l = Some (OSet s)) ls ss →
     ∃ h' r s,
       accumulate (S fuel) h (Some <$> ls) None = Ok (h', Some r)
       ∧ h' !! r = Some (OSet s)
       ∧ reduce (∪) ss = Some s ∧ s = ⋃ ss
       ∧ frame (length h) h h'
       ∧ ∀ ls', ls ≡ₚ ls' →
           ∃ h'' r', accumulate (S fuel) h (Some <$> ls') None
                     = Ok (h'', Some r')
                     ∧ h'' !! r' = Some (OSet s))
  ∧ (∀ x1 x2 rest, ls = x1 :: x2 :: rest →
       accumulate (S fuel) h (Some <$> ls) None
       = let* (h1, acc) := add (S fuel) h x1 x2 in
         let* (h2, acc) := iadd_loop (S fuel) h1 acc rest in
         Ok (h2, Some acc)).
Proof.
  intros Hne.
  (* the result for integers, in any order *)
  assert (∀ ls zs, ls ≠ [] →
            Forall2 (fun l z => h !! l = Some (OInt z)) ls zs →
            ∃ h' r,
              accumulate (S fuel) h (Some <$> ls) None = Ok (h', Some r)
              ∧ h' !! r = Some (OInt (sum_Z zs))
              ∧ reduce Z.add zs = Some (sum_Z zs)
              ∧ frame (length h) h h') as Hints.
  { clear. intros ls zs Hne Hls. unfold accumulate. rewrite omap_id_Some.
    destruct Hls as [|x1 z1 ls zs H1 Hls]; [done|].
    destruct Hls as [|x2 z2 ls zs H2 Hls].
    { exists h, x1. unfold sum_Z. simpl. rewrite Z.add_0_r.
      split_and!; [done|done|done|apply frame_refl]. }
    rewrite (add_addable _ _ _ _ _ _ H1 H2 eq_refl). unfold operator_add.
    rewrite (deref_lookup _ _ _ H1), (deref_lookup _ _ _ H2). simpl.
    edestruct (iadd_loop_ints fuel ls zs (h ++ [OInt (z1 + z2)]) (length h)
                 (z1 + z2)) as (h' & r & -> & Hr & Hfr).
    { by rewrite lookup_app_r, Nat.sub_diag. }
    { eapply Forall2_impl; [exact Hls|]. intros l zl Hl.
      by apply lookup_app_l_Some. }
    exists h', r. rewrite foldl_add_sum in Hr.
    assert (z1 + z2 + sum_Z zs = sum_Z (z1 :: z2 :: zs)) as Hs
      by (unfold sum_Z; simpl; lia).
    rewrite Hs in Hr.
    split_and!; [done|done| |].
    - cbn [reduce foldl]. by rewrite foldl_add_sum, Hs.
    - eapply frame_trans; [by apply frame_app|].
      eapply frame_le; [|done]. rewrite length_app. lia. }
  (* the result for sets, in any order *)
  assert (∀ ls ss, ls ≠ [] →
            Forall2 (fun l s => h !! l = Some (OSet s)) ls ss →
            ∃ h' r,
              accumulate (S fuel) h (Some <$> ls) None = Ok (h', Some r)
              ∧ h' !! r = Some (OSet (⋃ ss))
              ∧ reduce (∪) ss = Some (⋃ ss)
              ∧ frame (length h) h h') as Hsets.
  { clear. intros ls ss Hne Hls. unfold accumulate. rewrite omap_id_Some.
    assert (Forall2 (fun l s => (l < length h)%nat ∧ h !! l = Some (OSet s))
              ls ss) as Hls'.
    { eapply Forall2_impl; [exact Hls|]. intros l s Hl. simpl in *.
      split; [|done]. apply lookup_lt_is_Some. by eexists. }
    clear Hls.
    destruct Hls' as [|x1 s1 ls ss [_ H1] Hls]; [done|].
    destruct Hls as [|x2 s2 ls ss [_ H2] Hls].
    { exists h, x1. rewrite union_list_cons, union_list_nil, union_empty_r_L.
      split_and!; [done|done|done|apply frame_refl]. }
    rewrite (add_sets _ _ _ _ _ _ H1 H2 eq_refl eq_refl). unfold operator_or.
    rewrite (deref_lookup _ _ _ H1), (deref_lookup _ _ _ H2). simpl.
    edestruct (iadd_loop_sets fuel (length h) ls ss (h ++ [OSet (s1 ∪ s2)])
                 (length h) (s1 ∪ s2)) as (h' & -> & Hr & Hfr); [done| | |].
    { by rewrite lookup_app_r, Nat.sub_diag. }
    { eapply Forall2_impl; [exact Hls|]. intros l sl [? Hl].
      split; [done|]. by apply lookup_app_l_Some. }
    exists h', (length h). rewrite foldl_union_list in Hr.
    assert (s1 ∪ s2 ∪ ⋃ ss = ⋃ (s1 :: s2 :: ss)) as Hs
      by (rewrite !union_list_cons; by rewrite !(assoc_L (∪))).
    rewrite Hs in Hr.
    split_and!; [done|done| |].
    - cbn [reduce foldl]. by rewrite foldl_union_list, Hs.
    - eapply frame_trans; [by apply frame_app|done]. }
  split_and!.
  - intros Hls.
    destruct (Hints ls zs Hne Hls) as (h' & r & Hacc & Hr & Hred & Hfr).
    exists h', r, (sum_Z zs). split_and!; [done..|].
    intros ls' Hp.
    destruct (Forall2_perm_l _ _ _ _ Hp Hls) as (zs' & Hls' & Hpz).
    destruct (Hints ls' zs') as (h'' & r' & Hacc' & Hr' & _); [|done|].
    { intros ->. apply Permutation_nil_r in Hp. done. }
    exists h'', r'. split; [done|]. by rewrite (sum_Z_perm _ _ Hpz).
  - intros Hls.
    destruct (Hsets ls ss Hne Hls) as (h' & r & Hacc & Hr & Hred & Hfr).
    exists h', r, (⋃ ss). split_and!; [done..|].
    intros ls' Hp.
    destruct (Forall2_perm_l _ _ _ _ Hp Hls) as (ss' & Hls' & Hps).
    destruct (Hsets ls' ss') as (h'' & r' & Hacc' & Hr' & _); [|done|].
    { intros ->. apply Permutation_nil_r in Hp. done. }
    exists h'', r'. split; [done|].
    rewrite Hr'. do 2 f_equal. apply leibniz_equiv. by rewrite Hps.
  - intros x1 x2 rest ->. unfold accumulate. rewrite omap_id_Some.
    reflexivity.
Qed.

Lemma accumulate_folds_witness :
  ∃ h' r,
    accumulate 1 heap_ints [Some 0%nat; Some 1%nat; Some 2%nat] None
    = Ok (h', Some r)
    ∧ h' !! r = Some (OInt 10).
Proof.
  destruct (accumulate_folds 0 heap_ints [0; 1; 2]%nat [5; 7; -2] [])
    as (Hints & _ & _); [done|].
  destruct Hints as (h' & r & z & Hacc & Hr & Hred & _).
  { repeat constructor. }
  exists h', r. split; [exact Hacc|].
  injection Hred as <-. exact Hr.
Defined.

(** ** C6: when [add] raises its [ValueError] *)

Lemma refines_Err_iff {A B} (R : A → B → Prop) m spec e :
  refines R m spec → (m = Err e ↔ spec = Err e).
Proof.
  unfold refines. destruct spec as [b|e'].
  - intros (a & -> & _). by split.
  - intros ->. split; by intros [= ->].
Qed.

Lemma foldM_Err_first {A S} (f : S → A → result S) (l : list A) s e :
  foldM f l s = Err e ↔
  ∃ pre x suf s', l = pre ++ x :: suf ∧ foldM f pre s = Ok s' ∧ f s' x = Err e.
Proof.
  revert s. induction l as [|x l IH]; intros s; simpl.
  - split; [done|]. intros (pre & ? & ? & ? & Hl & _). by destruct pre.
  - destruct (f s x) as [s1|e1] eqn:Hf; simpl.
    + rewrite IH. split.
      * intros (pre & x' & suf & s' & -> & Hpre & Hx).
        exists (x :: pre), x', suf, s'. simpl. rewrite Hf. done.
      * intros (pre & x' & suf & s' & Hl & Hpre & Hx).
        destruct pre as [|x0 pre]; simpl in *.
        -- injection Hl as <- <-. injection Hpre as <-. congruence.
        -- injection Hl as <- ->. rewrite Hf in Hpre. simpl in Hpre.
           by exists pre, x', suf, s'.
    + split.
      * intros [= ->]. by exists [], x, l, s.
      * intros (pre & x' & suf & s' & Hl & Hpre & Hx).
        destruct pre as [|x0 pre]; simpl in *.
        -- injection Hl as <- <-. injection Hpre as <-. congruence.
        -- injection Hl as <- ->. by rewrite Hf in Hpre.
Qed.

(** The first loop of the merge fails at the first key of both whose
    values do not combine. *)
Lemma merge_shared_keys_Err (ia ib res0 : list (string * pyval)) e :
  foldM (fun res '(k, x) =>
           match assoc k ib with
           | Some y => let* z := add_val x y in Ok (assoc_set k z res)
           | None => Ok (assoc_set k x res)
           end) ia res0 = Err e ↔
  ∃ pre k x suf y,
    ia = pre ++ (k, x) :: suf ∧ assoc k ib = Some y ∧ add_val x y = Err e
    ∧ ∀ k' x' y', (k', x') ∈ pre → assoc k' ib = Some y' →
                  is_Ok (add_val x' y').
Proof.
  rewrite foldM_Err_first. split.
  - intros (pre & [k x] & suf & s' & -> & Hpre & Hx).
    destruct (assoc k ib) as [y|] eqn:Hy; [|done].
    destruct (add_val x y) as [z|e'] eqn:Hz; [done|]. injection Hx as ->.
    exists pre, k, x, suf, y. split_and!; [done..|].
    clear -Hpre. revert res0 Hpre.
    induction pre as [|[k0 x0] pre IH]; intros res0 Hpre k' x' y' Hin Hy'.
    { by apply elem_of_nil in Hin. }
    simpl in Hpre. bind_inv Hpre as s1 H1.
    apply elem_of_cons in Hin as [[= -> ->]|Hin].
    + rewrite Hy' in H1. destruct (add_val x0 y'); [by eexists|done].
    + by eapply IH.
  - intros (pre & k & x & suf & y & -> & Hy & Hx & Hpre).
    assert (∀ res0, is_Ok (foldM (fun res '(k, x) =>
              match assoc k ib with
              | Some y => let* z := add_val x y in Ok (assoc_set k z res)
              | None => Ok (assoc_set k x res)
              end) pre res0)) as Hok.
    { intros res. apply merge_shared_keys_ok. intros. by eapply Hpre. }
    destruct (Hok res0) as [s' Hs'].
    exists pre, (k, x), suf, s'. split_and!; [done|done|].
    by rewrite Hy, Hx.
Qed.

Lemma Counter_add_val_error vxs vys e :
  Counter_add_val vxs vys = Err e → e = OperandError.
Proof.
  unfold Counter_add_val. intros H.
  destruct (foldM _ vxs []) as [res|e1] eqn:H1; simpl in H.
  - destruct (foldM _ vys res) as [res'|e2] eqn:H2; simpl in H; [done|].
    injection H as <-. apply foldM_Err_first in H2
      as (pre & [k c] & suf & s' & _ & _ & Hx).
    destruct (assoc k vxs); [done|].
    destruct c; simpl in Hx; try (by injection Hx as <-).
    by destruct (0 <? z).
  - injection H as <-. apply foldM_Err_first in H1
      as (pre & [k c] & suf & s' & _ & _ & Hx).
    destruct c; simpl in Hx; try (by injection Hx as <-).
    unfold count_val in Hx. destruct (assoc k vys) as [[]|]; simpl in Hx;
      try (by injection Hx as <-); by destruct (0 <? _).
Qed.

Lemma operator_add_val_error a b e :
  operator_add_val a b = Err e → e = OperandError.
Proof.
  destruct a as [| | | | |[] ?], b as [| | | | |[] ?]; simpl;
    try (by intros [= <-]); try done.
  apply Counter_add_val_error.
Qed.

Lemma val_same_category_dicts ca ia cb ib :
  val_same_category (VDict ca ia) (VDict cb ib) = true.
Proof. unfold val_same_category. simpl. by rewrite orb_true_r. Qed.

Ltac no_category :=
  exfalso;
  match goal with
  | H : val_same_category (VDict _ _) (VDict _ _) = false |- _ =>
      by rewrite val_same_category_dicts in H
  end.

(** On values: [add_val] fails with a [ValueError] exactly on
    incompatible values. *)
Lemma add_val_ValueError n : ∀ h a b va vb m ta tb,
  view n h a = Some va → view n h b = Some vb →
  add_val va vb = Err (ValueError m ta tb)
  ↔ incompatible va vb (ValueError m ta tb).
Proof.
  induction n as [|n IH]; intros h a b va vb m ta tb Ha Hb; [done|].
  rewrite add_val_unfold.
  destruct (val_Addable va && val_Addable vb) eqn:Hadd.
  { split.
    - by intros ?%operator_add_val_error.
    - intros Hinc. exfalso. inversion Hinc; subst; try congruence.
      unfold val_same_category in *. by rewrite Hadd in *. }
  assert (∀ k x ia (items : list (string * loc)),
            mapM (fun '(k, v) => pair k <$> view n h v) items = Some ia →
            (k, x) ∈ ia → ∃ c, view n h c = Some x) as Hitem.
  { intros k x ia items Hm Hin. apply items_view_Forall2 in Hm.
    apply list_elem_of_lookup in Hin as [i Hi].
    destruct (Forall2_lookup_r _ _ _ _ _ Hm Hi) as ([k' c] & _ & _ & Hc).
    eauto. }
  destruct va as [x|x| |vxs|x|ca ia], vb as [y|y| |vys|y|cb ib];
    try (split; [intros [= <- <- <-]; apply inc_category;
                 unfold val_same_category; by rewrite Hadd
                |intros Hinc; inversion Hinc; subst; done]).
  (* two mappings *)
  - apply view_inv in Ha as (ia' & _ & _ & Hia).
    apply view_inv in Hb as (ib' & _ & _ & Hib).
    destruct (merge_class ca cb) as [c|e] eqn:Hc; simpl.
    + destruct (foldM _ ia []) as [res|e] eqn:Hl; simpl.
      * split; [by intros [=]|]. intros Hinc. exfalso.
        inversion Hinc as [| |? ? ? ? pre k x suf y e ? ? Hia' Hy Hpre Hxy];
          subst; [no_category|congruence|].
        destruct (Hitem k x _ _ Hia) as [cx Hcx].
        { apply elem_of_app. right. left. }
        destruct (Hitem k y _ _ Hib) as [cy Hcy].
        { by apply assoc_Some_elem. }
        apply (IH h cx cy x y m ta tb Hcx Hcy) in Hxy.
        assert (foldM (fun res '(k, x) =>
                  match assoc k ib with
                  | Some y => let* z := add_val x y in Ok (assoc_set k z res)
                  | None => Ok (assoc_set k x res)
                  end) (pre ++ (k, x) :: suf) [] = Err (ValueError m ta tb))
          as Herr.
        { apply merge_shared_keys_Err. by exists pre, k, x, suf, y. }
        congruence.
      * split.
        -- intros [= ->]. apply merge_shared_keys_Err in Hl
             as (pre & k & x & suf & y & -> & Hy & Hxy & Hpre).
           destruct (Hitem k x _ _ Hia) as [cx Hcx].
           { apply elem_of_app. right. left. }
           destruct (Hitem k y _ _ Hib) as [cy Hcy].
           { by apply assoc_Some_elem. }
           apply (IH h cx cy x y m ta tb Hcx Hcy) in Hxy.
           eapply inc_nested; [done|by eexists|done..].
        -- intros Hinc.
           inversion Hinc as [| |? ? ? ? pre k x suf y e' ? ? Hia' Hy Hpre Hxy];
             subst; [no_category|congruence|].
           destruct (Hitem k x _ _ Hia) as [cx Hcx].
           { apply elem_of_app. right. left. }
           destruct (Hitem k y _ _ Hib) as [cy Hcy].
           { by apply assoc_Some_elem. }
           apply (IH h cx cy x y m ta tb Hcx Hcy) in Hxy.
           assert (foldM (fun res '(k, x) =>
                     match assoc k ib with
                     | Some y => let* z := add_val x y in Ok (assoc_set k z res)
                     | None => Ok (assoc_set k x res)
                     end) (pre ++ (k, x) :: suf) [] = Err (ValueError m ta tb))
             as Herr.
           { apply merge_shared_keys_Err. by exists pre, k, x, suf, y. }
           congruence.
    + split.
      * intros [= ->]. by apply inc_classes.
      * intros Hinc.
        inversion Hinc as [| |? ? ? ? ? ? ? ? ? ? ? [c' Hc']]; subst;
          [no_category|congruence|congruence].
Qed.

(** The statement of the specification fails: here the two operands are
    both plain [dict]s, of one category and one class, and [add] raises
    the [ValueError], from the values of the key [k]; its message names
    [int] and [dict], the types of these values, not those of the
    operands. *)
Lemma add_ValueError_counterexample :
  heap_k_mismatch !! 1%nat = Some (ODict Dict [("k"%string, 0%nat)])
  ∧ heap_k_mismatch !! 3%nat = Some (ODict Dict [("k"%string, 2%nat)])
  ∧ same_category (ODict Dict [("k"%string, 0%nat)])
                  (ODict Dict [("k"%string, 2%nat)]) = true
  ∧ unrelated_mappings (ODict Dict [("k"%string, 0%nat)])
                       (ODict Dict [("k"%string, 2%nat)]) = false
  ∧ add 2 heap_k_mismatch 1 3 = Err (ValueError Accumulators TInt (TMap Dict)).
Proof. split_and!; reflexivity. Qed.

(** C6, amended.  On operands with finite values, [add] raises the
    [ValueError] with a given message exactly when the operands are
    incompatible in the sense of [incompatible]: they share no category,
    or they are mappings (not both addable) of unrelated classes, or they
    are mappings that are merged and the values of a key of both are
    incompatible in turn, every earlier key of both having combined; the
    message names the types of the pair at which the incompatibility
    lies. *)
Theorem add_ValueError_iff n h a b va vb m ta tb :
  view n h a = Some va → view n h b = Some vb →
  add n h a b = Err (ValueError m ta tb)
  ↔ incompatible va vb (ValueError m ta tb).
Proof.
  intros Ha Hb.
  rewrite (refines_Err_iff _ _ _ _
             (add_refines n h h a b va vb (frame_refl _ _) Ha Hb)).
  by eapply add_val_ValueError.
Qed.

Lemma add_ValueError_iff_witness :
  incompatible (VDict Dict [("k"%string, VInt 1)])
               (VDict Dict [("k"%string, VDict Dict [])])
               (ValueError Accumulators TInt (TMap Dict)).
Proof.
  apply (proj1 (add_ValueError_iff 2 heap_k_mismatch 1 3 _ _ _ _ _
                  eq_refl eq_refl)).
  reflexivity.
Defined.

(** ** C8: the category is decided for the pair *)

Example add_two_Counters :
  ∃ h' r, add 2 heap_counters 2 4 = Ok (h', r)
    ∧ view 2 h' r = Some (VDict Counter [("x"%string, VInt 3)]).
Proof. eexists _, _. split; reflexivity. Qed.


Lemma add_S fuel h a b oa ob :
  h !! a = Some oa → h !! b = Some ob →
  add (S fuel) h a b =
  if is_Addable oa && is_Addable ob then operator_add h a b
  else if is_MutableSet oa && is_MutableSet ob then operator_or h a b
  else if is_MutableMapping oa && is_MutableMapping ob then
    let* (h, out) :=
      if isinstance ob (type_of oa) then copy_copy h a
      else if isinstance oa (type_of ob) then copy_copy h b
      else Err (ValueError TwoMappings (type_of oa) (type_of ob)) in
    let* h := clear h out in
    let* h :=
      for_keys a h (fun h key =>
        if bool_decide (key ∈ keys_of ob) then
          let* va := getitem h a key in
          let* vb := getitem h b key in
          let* (h, v) := add fuel h va vb in
          setitem h out key v
        else
          let* va := getitem h a key in
          let* (h, v) := deepcopy fuel h va in
          setitem h out key v) in
    let* h :=
      for_keys b h (fun h key =>
        if bool_decide (key ∉ keys_of oa) then
          let* vb := getitem h b key in
          let* (h, v) := deepcopy fuel h vb in
          setitem h out key v
        else Ok h) in
    Ok (h, out)
  else Err (ValueError Accumulators (type_of oa) (type_of ob)).
Proof.
  intros Ha Hb. simpl.
  by rewrite (deref_lookup _ _ _ Ha), (deref_lookup _ _ _ Hb).
Qed.

Lemma iadd_S fuel h a b oa ob :
  h !! a = Some oa → h !! b = Some ob →
  iadd (S fuel) h a b =
  if is_Addable oa && is_Addable ob then operator_iadd h a b
  else if is_MutableSet oa && is_MutableSet ob then operator_ior h a b
  else if is_MutableMapping oa && is_MutableMapping ob then
    if negb (isinstance ob (type_of oa)) then
      Err (ValueError TwoMappings (type_of oa) (type_of ob))
    else
      let* h :=
        for_keys a h (fun h key =>
          if bool_decide (key ∈ keys_of ob) then
            let* va := getitem h a key in
            let* vb := getitem h b key in
            let* (h, v) := iadd fuel h va vb in
            setitem h a key v
          else Ok h) in
      let* h :=
        for_keys b h (fun h key =>
          if bool_decide (key ∉ keys_of oa) then
            let* vb := getitem h b key in
            let* (h, v) := deepcopy fuel h vb in
            setitem h a key v
          else Ok h) in
      Ok (h, a)
  else Err (ValueError Accumulators (type_of oa) (type_of ob)).
Proof.
  intros Ha Hb. simpl.
  by rewrite (deref_lookup _ _ _ Ha), (deref_lookup _ _ _ Hb).
Qed.

Lemma setitem_class h d key v h' c items :
  setitem h d key v = Ok h' → h !! d = Some (ODict c items) →
  ∃ items', h' !! d = Some (ODict c items').
Proof.
  unfold setitem. intros H Hd.
  rewrite (deref_lookup _ _ _ Hd) in H. simpl in H. injection H as <-.
  eexists. unfold store. apply list_lookup_insert_eq. by eapply lookup_lt_Some.
Qed.

(** The result of the mapping branch of [add] is the new shell. *)
Lemma add_mappings_shell fuel h a b ca ia cb ib h' r :
  h !! a = Some (ODict ca ia) → h !! b = Some (ODict cb ib) →
  is_Addable (ODict ca ia) && is_Addable (ODict cb ib) = false →
  add (S fuel) h a b = Ok (h', r) →
  r = length h
  ∧ ∃ c items, h' !! r = Some (ODict c items) ∧ merge_class ca cb = Ok c.
Proof.
  intros Ha Hb Hcat. rewrite (add_S _ _ _ _ _ _ Ha Hb), Hcat.
  cbn [is_MutableSet is_MutableMapping andb]. unfold isinstance.
  cbn [type_of keys_of]. intros H.
  bind_inv H as [h1 out] Hcp. bind_inv H as h2 Hcl.
  bind_inv H as h3 Hl1. bind_inv H as h4 Hl2. injection H as <- <-.
  assert (∃ c items, merge_class ca cb = Ok c ∧ out = length h
                     ∧ h1 = h ++ [ODict c items]) as (c & items & Hc & -> & ->).
  { unfold merge_class, copy_copy, alloc in *.
    destruct (issubclass (TMap cb) (TMap ca)).
    { rewrite (deref_lookup _ _ _ Ha) in Hcp. simpl in Hcp.
      injection Hcp as <- <-. eauto. }
    destruct (issubclass (TMap ca) (TMap cb)); [|done].
    rewrite (deref_lookup _ _ _ Hb) in Hcp. simpl in Hcp.
    injection Hcp as <- <-. eauto. }
  split; [done|]. exists c.
  assert (∃ items, h2 !! length h = Some (ODict c items)) as H2.
  { unfold clear in Hcl.
    rewrite (deref_lookup _ (length h) (ODict c items)) in Hcl
      by (by rewrite lookup_app_r, Nat.sub_diag).
    simpl in Hcl. injection Hcl as <-. rewrite store_app_last.
    exists []. by rewrite lookup_app_r, Nat.sub_diag. }
  set (I := fun hc : heap =>
    (length h < length hc)%nat ∧ ∃ items, hc !! length h = Some (ODict c items)).
  assert (∀ hc h5 v key hc',
            I hc → frame (length hc) hc h5 →
            setitem h5 (length h) key v = Ok hc' → I hc') as Hstep.
  { intros hc h5 v key hc' [Hlt [its Hout]] Hfr Hset.
    assert (h5 !! length h = Some (ODict c its)) as Hout5
      by by eapply frame_all_lookup.
    split.
    - apply frame_length in Hfr. unfold setitem in Hset.
      rewrite (deref_lookup _ _ _ Hout5) in Hset. simpl in Hset.
      injection Hset as <-. unfold store. rewrite length_insert. lia.
    - by eapply setitem_class. }
  assert (I h3) as H3.
  { unfold for_keys in Hl1. bind_inv Hl1 as o Ho. revert Hl1.
    apply (iterate_inv' I).
    { split; [|done]. apply lookup_lt_is_Some. destruct H2. by eexists. }
    intros k hc hc' _ HI Hbody _.
    destruct (bool_decide _).
    - bind_inv Hbody as va Hva. bind_inv Hbody as vb Hvb.
      bind_inv Hbody as [h5 v] Hadd. apply add_frame in Hadd. by eapply Hstep.
    - bind_inv Hbody as va Hva. bind_inv Hbody as [h5 v] Hcp'.
      apply deepcopy_frame in Hcp'. by eapply Hstep. }
  assert (I h4) as [_ [its H4]]; [|by exists its].
  unfold for_keys in Hl2. bind_inv Hl2 as o Ho. revert Hl2.
  apply (iterate_inv' I); [done|].
  intros k hc hc' _ HI Hbody _.
  destruct (bool_decide _); [|by inv_res].
  bind_inv Hbody as vb Hvb. bind_inv Hbody as [h5 v] Hcp'.
  apply deepcopy_frame in Hcp'. by eapply Hstep.
Qed.




(** ** [deepcopy] builds a closed region *)

Lemma keeps_atoms_frame h h' : frame (length h) h h' → keeps_atoms h h'.
Proof.
  intros Hfr l (o & Ho & Hat). exists o. split; [|done].
  by eapply frame_all_lookup.
Qed.

Lemma keeps_atoms_store h l o o' :
  h !! l = Some o → atomic o = false → keeps_atoms h (store h l o').
Proof.
  intros Ho Hat c (oc & Hc & Hatc). exists oc. split; [|done].
  unfold store. rewrite list_lookup_insert_ne; [done|]. intros ->.
  congruence.
Qed.



Lemma closed_region_app lo h os :
  closed_region lo (length h) h →
  (∀ o c, o ∈ os → c ∈ children o →
          (lo ≤ c < length h + length os)%nat ∨ atomic_at (h ++ os) c) →
  closed_region lo (length h + length os) (h ++ os).
Proof.
  intros Hc Hos l o c Hl Ho Hin.
  destruct (decide (l < length h)%nat) as [Hlt|Hge].
  - rewrite lookup_app_l in Ho by done.
    destruct (Hc l o c) as [?|Hat]; [lia|done|done|left; lia|right].
    eapply keeps_atoms_frame; [|done]. by apply frame_app.
  - rewrite lookup_app_r in Ho by lia.
    eapply Hos; [|done]. by eapply list_elem_of_lookup_2.
Qed.

Lemma in_region_keep lo hi h h' z :
  (hi ≤ length h')%nat → keeps_atoms h h' →
  in_region lo hi h z → in_region lo hi h' z.
Proof. intros ? Hat [?|?]; [by left|right; auto]. Qed.

(** Storing into a container of the region a content of the region. *)
Lemma closed_region_store lo h y o o' :
  (lo ≤ y)%nat → h !! y = Some o → atomic o = false →
  closed_region lo (length h) h →
  (∀ c, c ∈ children o' → c ∈ children o ∨ in_region lo (length h) h c) →
  closed_region lo (length (store h y o')) (store h y o').
Proof.
  intros Hlo Ho Hat Hc Hnew l ol c Hl Hol Hin.
  unfold store in Hl. rewrite length_insert in Hl.
  assert (keeps_atoms h (store h y o')) as Hk by by eapply keeps_atoms_store.
  unfold store at 1. rewrite length_insert.
  assert (∀ c, (lo ≤ c < length h)%nat ∨ atomic_at h c →
               (lo ≤ c < length h)%nat ∨ atomic_at (store h y o') c) as Hkeep.
  { intros c' [?|?]; [by left|right; auto]. }
  destruct (decide (l = y)) as [->|Hne].
  - unfold store in Hol. rewrite list_lookup_insert_eq in Hol
      by by eapply lookup_lt_Some.
    injection Hol as <-. apply Hkeep.
    destruct (Hnew c Hin) as [Hold|?]; [|done].
    apply (Hc y o c); [|done|done]. split; [done|]. by eapply lookup_lt_Some.
  - unfold store in Hol. rewrite list_lookup_insert_ne in Hol by done.
    apply Hkeep. by apply (Hc l ol c).
Qed.

Lemma assoc_set_values {A} k (v : A) (items : list (string * A)) c :
  c ∈ (assoc_set k v items).*2 → c ∈ items.*2 ∨ c = v.
Proof.
  induction items as [|[k0 v0] items IH]; simpl.
  - intros ->%list_elem_of_singleton. by right.
  - destruct (decide (k = k0)) as [->|]; simpl.
    + intros [-> |?]%elem_of_cons; [by right|]. left. by right.
    + intros [-> |?]%elem_of_cons; [left; left|].
      destruct IH as [?|?]; [done|left; by right|by right].
Qed.

Lemma deepcopy_memo_region lo fuel : ∀ h m x h' m' y,
  deepcopy_memo fuel h m x = Ok (h', m', y) →
  (lo ≤ length h)%nat → closed_region lo (length h) h →
  (∀ s t, memo_get m s = Some t → (lo ≤ t < length h)%nat) →
  closed_region lo (length h') h'
  ∧ (∀ s t, memo_get m' s = Some t → (lo ≤ t < length h')%nat)
  ∧ in_region lo (length h') h' y.
Proof.
  induction fuel as [|fuel IH]; intros h m x h' m' y H Hlo Hc Hm; [done|].
  simpl in H. destruct (memo_get m x) as [t|] eqn:Hx.
  { inv_res. split_and!; [done|done|]. left. by eapply Hm. }
  bind_inv H as o Ho. apply deref_Ok in Ho.
  assert (atomic o = true → Ok (h, m, x) = Ok (h', m', y) →
          closed_region lo (length h') h'
          ∧ (∀ s t, memo_get m' s = Some t → (lo ≤ t < length h')%nat)
          ∧ in_region lo (length h') h' y) as Hatom.
  { intros Hat [= <- <- <-]. split_and!; [done|done|]. right. by exists o. }
  (* the state after allocating a shell without content *)
  assert (∀ shell, children shell = [] →
            closed_region lo (length (h ++ [shell])) (h ++ [shell])
            ∧ (∀ s t, memo_get ((x, length h) :: m) s = Some t →
                 (lo ≤ t < length (h ++ [shell]))%nat)) as Hshell.
  { intros shell Hch. rewrite length_app. split.
    - apply closed_region_app; [done|].
      intros o' c ->%list_elem_of_singleton Hin. rewrite Hch in Hin.
      by apply elem_of_nil in Hin.
    - intros s t. rewrite memo_get_cons. destruct (decide (s = x)).
      + intros [= <-]. simpl. lia.
      + intros Hs. apply Hm in Hs. simpl. lia. }
  (* one step of either filling loop; [put] stores the copy *)
  assert (∀ (put : heap → loc → result heap) hc mc c hc' mc',
            (∀ h2 v h3, put h2 v = Ok h3 →
               ∃ o2 o3, h2 !! length h = Some o2 ∧ atomic o2 = false
                 ∧ h3 = store h2 (length h) o3
                 ∧ ∀ c, c ∈ children o3 → c ∈ children o2 ∨ c = v) →
            (let* (h2, m2, v) := deepcopy_memo fuel hc mc c in
             let* h3 := put h2 v in Ok (h3, m2)) = Ok (hc', mc') →
            ((length h < length hc)%nat ∧ closed_region lo (length hc) hc
             ∧ ∀ s t, memo_get mc s = Some t → (lo ≤ t < length hc)%nat) →
            ((length h < length hc')%nat ∧ closed_region lo (length hc') hc'
             ∧ ∀ s t, memo_get mc' s = Some t → (lo ≤ t < length hc')%nat))
    as Hstep.
  { intros put hc mc c hc' mc' Hput Hbody (Hlt & Hcc & Hmc).
    bind_inv Hbody as [[h2 m2] v] Hdc. bind_inv Hbody as h3 Hp.
    injection Hbody as <- <-.
    destruct (IH _ _ _ _ _ _ Hdc) as (Hc2 & Hm2 & Hv); [lia|done|done|].
    apply deepcopy_memo_frame, frame_length in Hdc.
    destruct (Hput _ _ _ Hp) as (o2 & o3 & Ho2 & Hat2 & -> & Hch).
    split_and!.
    - unfold store. rewrite length_insert. lia.
    - eapply closed_region_store; [lia|done|done|done|].
      intros c' Hc'. destruct (Hch c' Hc') as [?| ->]; [by left|by right].
    - intros s t Hs. unfold store. rewrite length_insert. by eapply Hm2. }
  destruct o as [z|s| |items|s|c items]; try (by apply Hatom).
  - bind_inv H as [h1 m1] Hfold. injection H as <- <- <-.
    destruct (Hshell (OList []) eq_refl) as [Hc1 Hm1].
    assert ((length h < length h1)%nat ∧ closed_region lo (length h1) h1
            ∧ ∀ s t, memo_get m1 s = Some t → (lo ≤ t < length h1)%nat)
      as (Hlt & Hc' & Hm').
    { revert Hfold.
      apply (foldM_inv (fun s =>
        (length h < length s.1)%nat ∧ closed_region lo (length s.1) s.1
        ∧ ∀ s0 t, memo_get s.2 s0 = Some t → (lo ≤ t < length s.1)%nat)).
      { simpl. split; [rewrite length_app; simpl; lia|done]. }
      intros [hc mc] item [hc' mc'] Hinv _ Hbody. simpl in *.
      eapply (Hstep (fun h2 v => list_append h2 (length h) v)); [|done|done].
      intros h2 v h3 Hp. unfold list_append in Hp. bind_inv Hp as o2 Ho2.
      apply deref_Ok in Ho2. destruct o2; try done. injection Hp as <-.
      eexists _, _. split_and!; [done|done|done|].
      simpl. intros c' [?|Hs]%elem_of_app; [by left|].
      apply list_elem_of_singleton in Hs as ->. by right. }
    split_and!; [done|done|]. left. lia.
  - injection H as <- <- <-.
    destruct (Hshell (OSet s) eq_refl) as [Hc1 Hm1].
    split_and!; [done|done|]. left. rewrite length_app. simpl. lia.
  - bind_inv H as [h1 m1] Hfold. injection H as <- <- <-.
    destruct (Hshell (ODict c []) eq_refl) as [Hc1 Hm1].
    assert ((length h < length h1)%nat ∧ closed_region lo (length h1) h1
            ∧ ∀ s t, memo_get m1 s = Some t → (lo ≤ t < length h1)%nat)
      as (Hlt & Hc' & Hm').
    { revert Hfold.
      apply (foldM_inv (fun s =>
        (length h < length s.1)%nat ∧ closed_region lo (length s.1) s.1
        ∧ ∀ s0 t, memo_get s.2 s0 = Some t → (lo ≤ t < length s.1)%nat)).
      { simpl. split; [rewrite length_app; simpl; lia|done]. }
      intros [hc mc] [key value] [hc' mc'] Hinv _ Hbody. simpl in *.
      eapply (Hstep (fun h2 v => setitem h2 (length h) key v)); [|done|done].
      intros h2 v h3 Hp. unfold setitem in Hp. bind_inv Hp as o2 Ho2.
      apply deref_Ok in Ho2. destruct o2 as [| | | | |c2 items2]; try done.
      injection Hp as <-.
      eexists _, _. split_and!; [done|done|done|].
      simpl. intros c'. apply assoc_set_values. }
    split_and!; [done|done|]. left. lia.
Qed.

(** ** Reachability in a closed region *)

Lemma reach_in_region lo hi h z l :
  closed_region lo hi h → in_region lo hi h z → reach h z l →
  in_region lo hi h l.
Proof.
  intros Hc Hz Hr. induction Hr as [z|z o c l Ho Hin Hr IH]; [done|].
  apply IH. destruct Hz as [Hz|(o' & Ho' & Hat)].
  - by apply (Hc z o c).
  - assert (o' = o) as -> by congruence.
    destruct o; try done; by apply elem_of_nil in Hin.
Qed.

Lemma deepcopy_region fuel h x h' y :
  deepcopy fuel h x = Ok (h', y) →
  frame (length h) h h'
  ∧ closed_region (length h) (length h') h'
  ∧ in_region (length h) (length h') h' y.
Proof.
  intros H. pose proof (deepcopy_frame _ _ _ _ _ H) as Hfr.
  unfold deepcopy in H. bind_inv H as [[h1 m1] y1] Hdc. injection H as <- <-.
  destruct (deepcopy_memo_region (length h) _ _ _ _ _ _ _ Hdc)
    as (Hc & _ & Hy); [done| |done|done].
  intros l o c Hl. lia.
Qed.

(** ** [evo]: general facts *)

Lemma slot_Some h x key y :
  slot h x key = Some y ↔
  ∃ c items, h !! x = Some (ODict c items) ∧ assoc key items = Some y.
Proof.
  unfold slot. split.
  - destruct (h !! x) as [[]|]; try done. eauto.
  - by intros (c & items & -> & ?).
Qed.

Lemma type_at_Some h l o : h !! l = Some o → type_at h l = Some (type_of o).
Proof. unfold type_at. by intros ->. Qed.

Lemma evo_refl h : evo h h.
Proof.
  split_and!; [done|eauto|auto|eauto|].
  intros x c items key y y' o _ _ Hy Hy' Ho.
  assert (y' = y) as -> by congruence. by apply type_at_Some.
Qed.

Lemma evo_length h h' : evo h h' → (length h ≤ length h')%nat.
Proof. by intros [? _]. Qed.

Lemma evo_keeps_atoms h h' : evo h h' → keeps_atoms h h'.
Proof.
  intros (_ & E2 & _) l (o & Ho & Hat).
  destruct (E2 l o Ho) as (o' & Ho' & _ & Heq). exists o.
  by rewrite Ho', Heq.
Qed.

Lemma evo_trans h1 h2 h3 : evo h1 h2 → evo h2 h3 → evo h1 h3.
Proof.
  intros H12 H23.
  pose proof (evo_keeps_atoms _ _ H23) as Hk23.
  destruct H12 as (L1 & T1 & S1 & K1 & Y1).
  destruct H23 as (L2 & T2 & S2 & K2 & Y2).
  split_and!.
  - lia.
  - intros l o Ho. destruct (T1 l o Ho) as (o' & Ho' & Ht & Ha).
    destruct (T2 l o' Ho') as (o'' & Ho'' & Ht' & Ha').
    exists o''. split_and!; [done|congruence|].
    intros Hat. rewrite (Ha Hat) in *. by apply Ha'.
  - intros x key y Hy. destruct (S2 x key y Hy) as [Hy2|[?|?]].
    + destruct (S1 x key y Hy2) as [?|[?|?]]; [by left|right; by left|].
      right. right. by apply Hk23.
    + right. left. lia.
    + right. by right.
  - intros x c items Hx Hc. destruct (K1 x c items Hx Hc) as (i2 & Hx2 & Hp).
    destruct (K2 x c i2 Hx2 Hc) as (i3 & Hx3 & Hp').
    exists i3. split; [done|]. by etrans.
  - intros x c items key y y' o Hx Hc Hy Hy' Ho.
    destruct (K1 x c items Hx Hc) as (i2 & Hx2 & Hp).
    assert (∃ y2, slot h2 x key = Some y2) as [y2 Hy2].
    { apply slot_Some in Hy as (c0 & i0 & Hx0 & Hk).
      assert (i0 = items) as -> by congruence.
      assert (is_Some (assoc key i2)) as [y2 Hk2].
      { apply assoc_is_Some. destruct Hp as [rest ->].
        apply elem_of_app. left. apply assoc_is_Some. eauto. }
      exists y2. apply slot_Some. eauto. }
    pose proof (Y1 x c items key y y2 o Hx Hc Hy Hy2 Ho) as Ht2.
    unfold type_at in Ht2. destruct (h2 !! y2) as [o2|] eqn:Ho2; [|done].
    injection Ht2 as <-. by eapply Y2.
Qed.

(** An operation that only allocates, and whose new mappings hold new or
    atomic objects. *)
Lemma evo_frame h h' :
  frame (length h) h h' →
  (∀ x key y, (length h ≤ x)%nat → slot h' x key = Some y →
              (length h ≤ y)%nat ∨ atomic_at h' y) →
  evo h h'.
Proof.
  intros Hfr Hnew.
  assert (∀ l o, h !! l = Some o → h' !! l = Some o) as Hkeep.
  { intros. by eapply frame_all_lookup. }
  assert (∀ x key, (x < length h)%nat → slot h' x key = slot h x key) as Hs.
  { intros x key Hx. unfold slot. destruct Hfr as [_ ->]; done. }
  split_and!.
  - by eapply frame_length.
  - intros l o Ho. exists o. auto.
  - intros x key y Hy. destruct (decide (x < length h)%nat).
    + left. by rewrite <- Hs.
    + right. eapply Hnew; [|done]. lia.
  - intros x c items Hx _. exists items. auto.
  - intros x c items key y y' o Hx _ Hy Hy' Ho.
    rewrite Hs in Hy' by by eapply lookup_lt_Some.
    assert (y' = y) as -> by congruence.
    apply type_at_Some. auto.
Qed.

(** ** [evo]: the steps of [iadd] *)

Lemma slot_store_ne h x x' o key :
  x ≠ x' → slot (store h x o) x' key = slot h x' key.
Proof.
  intros Hne. unfold slot, store. by rewrite list_lookup_insert_ne.
Qed.

(** Allocating atomic objects. *)
Lemma evo_app_atoms h os :
  Forall (fun o => atomic o = true) os → evo h (h ++ os).
Proof.
  intros Hos. apply evo_frame; [by apply frame_app|].
  intros x key y Hx Hy. exfalso.
  apply slot_Some in Hy as (c & items & Hx' & _).
  rewrite lookup_app_r in Hx' by done.
  apply list_elem_of_lookup_2 in Hx'. rewrite Forall_forall in Hos.
  by apply Hos in Hx'.
Qed.

(** Replacing the content of a list, of a set or of a [Counter]; a
    [Counter] is given atomic counts. *)
Lemma evo_store h x o o' :
  h !! x = Some o → type_of o' = type_of o → atomic o = false →
  (∀ c, type_of o = TMap c → c = Counter) →
  (∀ y, y ∈ dict_values o' → atomic_at h y) →
  evo h (store h x o').
Proof.
  intros Hx Ht Hat Hc Hvals.
  assert (keeps_atoms h (store h x o')) as Hk by by eapply keeps_atoms_store.
  assert (store h x o' !! x = Some o') as Hx'.
  { unfold store. apply list_lookup_insert_eq. by eapply lookup_lt_Some. }
  split_and!.
  - unfold store. by rewrite length_insert.
  - intros l ol Hl. destruct (decide (l = x)) as [->|Hne].
    + exists o'. assert (ol = o) as -> by congruence.
      split_and!; [done|done|congruence].
    + exists ol. unfold store. rewrite list_lookup_insert_ne by done. done.
  - intros x0 key y Hy. destruct (decide (x0 = x)) as [->|Hne].
    + right. right. apply Hk, Hvals.
      apply slot_Some in Hy as (c & items & Hx0 & Hk0).
      assert (o' = ODict c items) as -> by congruence. simpl.
      apply list_elem_of_fmap. exists (key, y). split; [done|].
      by apply assoc_Some_elem.
    + left. by rewrite slot_store_ne in Hy.
  - intros x0 c items Hx0 Hc0. exists items. split; [|done].
    unfold store. rewrite list_lookup_insert_ne; [done|]. intros ->.
    assert (o = ODict c items) as -> by congruence. by apply Hc0, Hc.
  - intros x0 c items key y y' oy Hx0 Hc0 Hy Hy' Hoy.
    assert (x0 ≠ x) as Hne.
    { intros ->. assert (o = ODict c items) as -> by congruence.
      by apply Hc0, Hc. }
    rewrite slot_store_ne in Hy' by done.
    assert (y' = y) as -> by congruence.
    destruct (decide (y = x)) as [->|Hney].
    + assert (oy = o) as -> by congruence. rewrite <- Ht.
      by apply type_at_Some.
    + apply type_at_Some. unfold store. by rewrite list_lookup_insert_ne.
Qed.

(** [d[key] = v] on a mapping that is not a [Counter], after changes that
    [evo] allows: the value is what [d] held under the key, or a new or
    atomic object, of the type of what it held. *)
Lemma evo_setitem h h1 x c items key v :
  evo h h1 → h1 !! x = Some (ODict c items) → c ≠ Counter →
  (slot h x key = Some v ∨ (length h ≤ v)%nat ∨ atomic_at h1 v) →
  (∀ y o, slot h x key = Some y → h !! y = Some o →
          type_at h1 v = Some (type_of o)) →
  evo h (store h1 x (ODict c (assoc_set key v items))).
Proof.
  intros Hevo Hx Hc Hv Hty.
  set (h2 := store h1 x (ODict c (assoc_set key v items))).
  assert (keeps_atoms h1 h2) as Hk by by eapply keeps_atoms_store.
  assert (h2 !! x = Some (ODict c (assoc_set key v items))) as Hx2.
  { unfold h2, store. apply list_lookup_insert_eq. by eapply lookup_lt_Some. }
  assert (∀ l, l ≠ x → h2 !! l = h1 !! l) as Hne2.
  { intros l Hl. unfold h2, store. by rewrite list_lookup_insert_ne. }
  assert (∀ l o, h1 !! l = Some o → type_at h2 l = Some (type_of o)) as Hty2.
  { intros l o Hl. destruct (decide (l = x)) as [->|Hne].
    - assert (o = ODict c items) as -> by congruence.
      by rewrite (type_at_Some _ _ _ Hx2).
    - apply type_at_Some. by rewrite Hne2. }
  assert (∀ key', key' ≠ key → slot h2 x key' = slot h1 x key') as Hsl.
  { intros key' Hne. unfold slot. rewrite Hx2, Hx. by apply assoc_set_ne. }
  assert (slot h2 x key = Some v) as Hslk.
  { unfold slot. rewrite Hx2. apply assoc_set_eq. }
  destruct Hevo as (L1 & T1 & S1 & K1 & Y1).
  split_and!.
  - unfold h2, store. by rewrite length_insert.
  - intros l o Hl. destruct (T1 l o Hl) as (o' & Ho' & Ht & Ha).
    destruct (decide (l = x)) as [->|Hne].
    + eexists. split; [exact Hx2|].
      assert (o' = ODict c items) as -> by congruence.
      split; [by rewrite <- Ht|]. intros Hat. clear Ha.
      by destruct o.
    + exists o'. by rewrite Hne2.
  - intros x0 key0 y Hy. destruct (decide (x0 = x)) as [->|Hne].
    + destruct (decide (key0 = key)) as [->|Hnek].
      * assert (y = v) as -> by congruence.
        destruct Hv as [?|[?|?]]; [by left|right; by left|].
        right. right. by apply Hk.
      * rewrite Hsl in Hy by done.
        destruct (S1 x key0 y Hy) as [?|[?|?]]; [by left|right; by left|].
        right. right. by apply Hk.
    + unfold h2 in Hy. rewrite slot_store_ne in Hy by done.
      destruct (S1 x0 key0 y Hy) as [?|[?|?]]; [by left|right; by left|].
      right. right. by apply Hk.
  - intros x0 c0 items0 Hx0 Hc0.
    destruct (K1 x0 c0 items0 Hx0 Hc0) as (i1 & Hx1 & Hp).
    destruct (decide (x0 = x)) as [->|Hne].
    + assert (c0 = c ∧ i1 = items) as [-> ->] by (split; congruence).
      eexists. split; [exact Hx2|].
      destruct (decide (key ∈ items.*1)).
      * by rewrite assoc_set_keys_in.
      * rewrite assoc_set_keys_notin, fmap_app by done.
        etrans; [done|]. by apply prefix_app_r.
    + exists i1. by rewrite Hne2.
  - intros x0 c0 items0 key0 y y' o Hx0 Hc0 Hy Hy' Ho.
    assert (∀ y1, slot h1 x0 key0 = Some y1 →
                  type_at h2 y1 = Some (type_of o)) as Hold.
    { intros y1 Hy1.
      pose proof (Y1 x0 c0 items0 key0 y y1 o Hx0 Hc0 Hy Hy1 Ho) as Ht1.
      unfold type_at in Ht1. destruct (h1 !! y1) as [o1|] eqn:Ho1; [|done].
      injection Ht1 as <-. by eapply Hty2. }
    destruct (decide (x0 = x)) as [->|Hne].
    + destruct (decide (key0 = key)) as [->|Hnek].
      * assert (y' = v) as -> by congruence.
        pose proof (Hty y o Hy Ho) as Htv.
        unfold type_at in Htv. destruct (h1 !! v) as [ov|] eqn:Hov; [|done].
        injection Htv as <-. by eapply Hty2.
      * rewrite Hsl in Hy' by done. by apply Hold.
    + unfold h2 in Hy'. rewrite slot_store_ne in Hy' by done. by apply Hold.
Qed.

Lemma keep_positive_ints h items items' :
  keep_positive h items = Ok items' →
  ∀ y, y ∈ items'.*2 → atomic_at h y.
Proof.
  revert items'. induction items as [|[elem c] items IH]; simpl; intros items' H.
  - injection H as <-. intros y Hy. by apply elem_of_nil in Hy.
  - bind_inv H as z Hz. bind_inv H as rest Hrest. injection H as <-.
    assert (atomic_at h c) as Hc.
    { unfold int_at in Hz. bind_inv Hz as o Ho. apply deref_Ok in Ho.
      destruct o; try done. by eexists. }
    intros y Hy. destruct (0 <? z).
    + rewrite fmap_cons in Hy. apply elem_of_cons in Hy as [->|Hy]; [done|].
      by eapply IH.
    + by eapply IH.
Qed.

Lemma returned_store h x o o' :
  h !! x = Some o → type_of o' = type_of o →
  returned h (store h x o') x x.
Proof.
  intros Hx Ht. split; [by left|]. intros o0 Ho0.
  assert (o0 = o) as -> by congruence. rewrite <- Ht.
  apply type_at_Some. unfold store. apply list_lookup_insert_eq.
  by eapply lookup_lt_Some.
Qed.

Lemma returned_evo h h1 h2 a :
  evo h h1 → returned h1 h2 a a → returned h h2 a a.
Proof.
  intros Hevo [_ Ht]. split; [by left|]. intros o Ho.
  destruct Hevo as (_ & T1 & _). destruct (T1 a o Ho) as (o' & Ho' & <- & _).
  by apply Ht.
Qed.

Lemma Counter_iadd_evo h a self other h' r :
  h !! a = Some (ODict Counter self) →
  Counter_iadd h a self other = Ok (h', r) →
  evo h h' ∧ returned h h' a r.
Proof.
  intros Ha H. unfold Counter_iadd in H.
  bind_inv H as [h1 items1] Hfold. bind_inv H as items2 Hkeep.
  injection H as <- <-.
  assert (∃ os, h1 = h ++ os ∧ Forall (fun o => atomic o = true) os)
    as (os & -> & Hos).
  { revert Hfold.
    apply (foldM_inv (fun s =>
      ∃ os, s.1 = h ++ os ∧ Forall (fun o => atomic o = true) os)).
    { exists []. by rewrite app_nil_r. }
    intros [hc ic] [elem c] [hc' ic'] (os & Hhc & Hos) _ Hbody. simpl in *.
    bind_inv Hbody as x Hx. bind_inv Hbody as y Hy. injection Hbody as <- <-.
    exists (os ++ [OInt (x + y)]). subst hc. rewrite <- app_assoc.
    split; [done|]. apply Forall_app. split; [done|]. by repeat constructor. }
  assert ((h ++ os) !! a = Some (ODict Counter self)) as Ha1
    by by apply lookup_app_l_Some.
  split.
  - eapply evo_trans; [by apply evo_app_atoms|].
    eapply evo_store; [done|done|done| |by eapply keep_positive_ints].
    by intros c [= <-].
  - eapply returned_evo; [by apply evo_app_atoms|]. by eapply returned_store.
Qed.

Lemma operator_add_atomic_evo h a b oa h' r :
  h !! a = Some oa → atomic oa = true →
  operator_add h a b = Ok (h', r) →
  evo h h' ∧ returned h h' a r.
Proof.
  intros Ha Hat H. unfold operator_add in H.
  rewrite (deref_lookup _ _ _ Ha) in H. simpl in H.
  bind_inv H as ob Hb.
  destruct oa as [x|x| | | |], ob as [y|y| | | |]; try done;
    injection H as <- <-.
  - split; [apply evo_app_atoms; by repeat constructor|].
    split.
    + right. split; [done|]. eexists.
      by rewrite lookup_app_r, Nat.sub_diag.
    + intros o Ho. assert (o = OInt x) as -> by congruence.
      unfold type_at. by rewrite lookup_app_r, Nat.sub_diag.
  - split; [apply evo_app_atoms; by repeat constructor|].
    split.
    + right. split; [done|]. eexists.
      by rewrite lookup_app_r, Nat.sub_diag.
    + intros o Ho. assert (o = OStr x) as -> by congruence.
      unfold type_at. by rewrite lookup_app_r, Nat.sub_diag.
Qed.

Lemma operator_iadd_evo h a b h' r :
  operator_iadd h a b = Ok (h', r) → evo h h' ∧ returned h h' a r.
Proof.
  intros H. unfold operator_iadd in H.
  bind_inv H as oa Ha. bind_inv H as ob Hb. apply deref_Ok in Ha, Hb.
  assert (∀ (strs : list string) (es : list loc) h1 ls,
            oa = OList es → alloc_list h (OStr <$> strs) = (h1, ls) →
            evo h (store h1 a (OList (es ++ ls)))
            ∧ returned h (store h1 a (OList (es ++ ls))) a a) as Hstrs.
  { intros strs es h1 ls -> [= <- <-].
    assert (evo h (h ++ (OStr <$> strs))) as Hevo.
    { apply evo_app_atoms. apply Forall_fmap. by apply Forall_true. }
    assert ((h ++ (OStr <$> strs)) !! a = Some (OList es)) as Ha1
      by by apply lookup_app_l_Some.
    split.
    - eapply evo_trans; [done|].
      eapply evo_store; [done|done|done|done|].
      intros y Hy. by apply elem_of_nil in Hy.
    - eapply returned_evo; [done|]. by eapply returned_store. }
  destruct oa as [x|x| |es|x|[] xs];
    try done; try (by eapply (operator_add_atomic_evo _ _ b)).
  - destruct ob as [y|y| |es'|y|cy ys]; try done.
    + destruct (alloc_list h (OStr <$> chars y)) as [h1 ls] eqn:Hal.
      injection H as <- <-. by eapply Hstrs.
    + injection H as <- <-. split.
      * eapply evo_store; [done|done|done|done|].
        intros y Hy. by apply elem_of_nil in Hy.
      * by eapply returned_store.
    + destruct (alloc_list h (OStr <$> ys.*1)) as [h1 ls] eqn:Hal.
      injection H as <- <-. by eapply Hstrs.
  - destruct ob as [y|y| |ys|y|[] ys]; try done.
    by eapply Counter_iadd_evo.
Qed.

Lemma operator_ior_evo h a b h' r :
  operator_ior h a b = Ok (h', r) → evo h h' ∧ returned h h' a r.
Proof.
  intros H. unfold operator_ior in H.
  bind_inv H as oa Ha. bind_inv H as ob Hb. apply deref_Ok in Ha, Hb.
  destruct oa, ob; try done. injection H as <- <-. split.
  - eapply evo_store; [done|done|done|done|].
    intros y Hy. by apply elem_of_nil in Hy.
  - by eapply returned_store.
Qed.

Lemma deepcopy_evo fuel h x h' y :
  deepcopy fuel h x = Ok (h', y) →
  evo h h' ∧ ((length h ≤ y)%nat ∨ atomic_at h' y).
Proof.
  intros H. destruct (deepcopy_region _ _ _ _ _ H) as (Hfr & Hc & Hy).
  split.
  - apply evo_frame; [done|]. intros x0 key z Hx0 Hz.
    apply slot_Some in Hz as (c & items & Hx0' & Hk).
    destruct (Hc x0 (ODict c items) z) as [?|?];
      [|done| |left; lia|by right].
    + split; [done|]. by eapply lookup_lt_Some.
    + simpl. apply list_elem_of_fmap. exists (key, z). split; [done|].
      by apply assoc_Some_elem.
  - destruct Hy as [?|?]; [left; lia|by right].
Qed.

Lemma returned_self h h' a : evo h h' → returned h h' a a.
Proof.
  intros (_ & T1 & _). split; [by left|]. intros o Ho.
  destruct (T1 a o Ho) as (o' & Ho' & <- & _). by apply type_at_Some.
Qed.

Lemma getitem_slot h d key v : getitem h d key = Ok v ↔ slot h d key = Some v.
Proof.
  unfold getitem, slot, deref, bind.
  destruct (h !! d) as [[| | | | |c items]|]; try (split; by intros [=]).
  destruct (assoc key items); split; by intros [= ->].
Qed.

(** The operands of the mapping branch: the first one is not a
    [Counter]. *)
Lemma mapping_branch oa ob :
  is_Addable oa && is_Addable ob = false →
  is_MutableMapping oa && is_MutableMapping ob = true →
  isinstance ob (type_of oa) = true →
  ∃ ca ia cb ib, oa = ODict ca ia ∧ ob = ODict cb ib ∧ ca ≠ Counter.
Proof.
  intros Hadd Hmap Hinst.
  destruct oa as [| | | | |ca ia]; try done.
  destruct ob as [| | | | |cb ib]; try (by rewrite andb_false_r in Hmap).
  exists ca, ia, cb, ib. split_and!; [done..|]. intros ->.
  by destruct cb.
Qed.

(** [iadd] changes the heap as [evo] allows, and returns its first
    operand or a new atomic object of the same type. *)
Lemma iadd_evo fuel : ∀ h a b h' r,
  iadd fuel h a b = Ok (h', r) → evo h h' ∧ returned h h' a r.
Proof.
  induction fuel as [|fuel IH]; intros h a b h' r H; [done|].
  destruct (h !! a) as [oa|] eqn:Ha;
    [|by unfold iadd, deref in H; rewrite Ha in H].
  destruct (h !! b) as [ob|] eqn:Hb;
    [|by unfold iadd, deref in H; rewrite Ha, Hb in H].
  rewrite (iadd_S _ _ _ _ _ _ Ha Hb) in H.
  destruct (is_Addable oa && is_Addable ob) eqn:Hadd;
    [by apply operator_iadd_evo in H|].
  destruct (is_MutableSet oa && is_MutableSet ob) eqn:Hset;
    [by apply operator_ior_evo in H|].
  destruct (is_MutableMapping oa && is_MutableMapping ob) eqn:Hmap; [|done].
  destruct (isinstance ob (type_of oa)) eqn:Hinst; [|done]. cbn [negb] in H.
  destruct (mapping_branch _ _ Hadd Hmap Hinst)
    as (ca & ia & cb & ib & -> & -> & Hca).
  cbn [keys_of] in H.
  bind_inv H as h1 Hl1. bind_inv H as h2 Hl2. injection H as <- <-.
  assert (∀ hc, evo h hc → ∃ items, hc !! a = Some (ODict ca items)) as Hshell.
  { intros hc (_ & _ & _ & K1 & _).
    destruct (K1 a ca ia Ha Hca) as (items & ? & _). by exists items. }
  assert (evo h h1) as H1.
  { unfold for_keys in Hl1. bind_inv Hl1 as o Ho. revert Hl1.
    apply (iterate_inv' (evo h)); [apply evo_refl|].
    intros key hc hc' _ Hevo Hbody _.
    destruct (bool_decide _); [|by inv_res].
    bind_inv Hbody as va Hva. bind_inv Hbody as vb Hvb.
    bind_inv Hbody as [h5 v] Hrec.
    apply IH in Hrec as [Hevo5 [Hr Hrt]].
    assert (evo h h5) as Hevo' by by eapply evo_trans.
    destruct (Hshell _ Hevo') as [items5 Ha5].
    unfold setitem in Hbody. rewrite (deref_lookup _ _ _ Ha5) in Hbody.
    simpl in Hbody. injection Hbody as <-.
    apply getitem_slot in Hva.
    apply evo_setitem; [done..| |].
    - destruct Hr as [->|[_ ?]]; [|right; by right].
      destruct Hevo as (_ & _ & S1 & _).
      destruct (S1 a key va Hva) as [?|[?|?]]; [by left|right; by left|].
      right. right. by apply (evo_keeps_atoms _ _ Hevo5).
    - intros y oy Hy Hoy.
      destruct Hevo as (_ & _ & _ & _ & Y1).
      pose proof (Y1 a ca ia key y va oy Ha Hca Hy Hva Hoy) as Ht.
      unfold type_at in Ht. destruct (hc !! va) as [o1|] eqn:Ho1; [|done].
      injection Ht as <-. by apply Hrt. }
  assert (evo h h2) as H2.
  { unfold for_keys in Hl2. bind_inv Hl2 as o Ho. revert Hl2.
    apply (iterate_inv' (evo h)); [done|].
    intros key hc hc' _ Hevo Hbody _.
    destruct (bool_decide_reflect (key ∉ ia.*1)) as [Hkey|]; [|by inv_res].
    bind_inv Hbody as vb Hvb. bind_inv Hbody as [h5 v] Hcp.
    apply deepcopy_evo in Hcp as [Hevo5 Hv].
    assert (evo h h5) as Hevo' by by eapply evo_trans.
    destruct (Hshell _ Hevo') as [items5 Ha5].
    unfold setitem in Hbody. rewrite (deref_lookup _ _ _ Ha5) in Hbody.
    simpl in Hbody. injection Hbody as <-.
    apply evo_setitem; [done..| |].
    - destruct Hv as [?|?]; [|right; by right].
      right. left. apply evo_length in Hevo. lia.
    - intros y oy Hy _. exfalso. apply Hkey.
      unfold slot in Hy. rewrite Ha in Hy.
      apply assoc_Some_elem in Hy. apply list_elem_of_fmap.
      by exists (key, y). }
  split; [done|]. by apply returned_self.
Qed.

(** ** C10: values of no common category under a key of both *)

Lemma caps_type o o' :
  type_of o' = type_of o →
  is_Addable o' = is_Addable o ∧ is_MutableSet o' = is_MutableSet o
  ∧ is_MutableMapping o' = is_MutableMapping o.
Proof. destruct o, o'; try done. by intros [= ->]. Qed.

Lemma same_category_type o1 o2 o1' o2' :
  type_of o1' = type_of o1 → type_of o2' = type_of o2 →
  same_category o1' o2' = same_category o1 o2.
Proof.
  intros H1 H2. unfold same_category.
  destruct (caps_type _ _ H1) as (-> & -> & ->).
  by destruct (caps_type _ _ H2) as (-> & -> & ->).
Qed.

Lemma add_no_category fuel h x y ox oy :
  h !! x = Some ox → h !! y = Some oy → same_category ox oy = false →
  add (S fuel) h x y = Err (ValueError Accumulators (type_of ox) (type_of oy)).
Proof.
  intros Hx Hy Hc. rewrite (add_S _ _ _ _ _ _ Hx Hy).
  unfold same_category in Hc.
  apply orb_false_iff in Hc as [Hc Hc3]. apply orb_false_iff in Hc as [Hc1 Hc2].
  by rewrite Hc1, Hc2, Hc3.
Qed.

Lemma iadd_no_category fuel h x y ox oy :
  h !! x = Some ox → h !! y = Some oy → same_category ox oy = false →
  iadd (S fuel) h x y = Err (ValueError Accumulators (type_of ox) (type_of oy)).
Proof.
  intros Hx Hy Hc. rewrite (iadd_S _ _ _ _ _ _ Hx Hy).
  unfold same_category in Hc.
  apply orb_false_iff in Hc as [Hc Hc3]. apply orb_false_iff in Hc as [Hc1 Hc2].
  by rewrite Hc1, Hc2, Hc3.
Qed.

Lemma category_MappingLike o :
  category_of o = Some MappingLike ↔
  ∃ c items, o = ODict c items ∧ c ≠ Counter.
Proof.
  split.
  - destruct o as [| | | | |c items]; try done.
    destruct c; try done; intros _; by eexists _, _.
  - intros (c & items & -> & Hc). by destruct c.
Qed.

(** Every key of a loop that has ended was visited, in a state that the
    bodies before it have led to. *)
Lemma iterate_Ok_body (I : heap → Prop) d n body ks h h' :
  I h →
  (∀ k h h1, k ∈ ks → I h → body h k = Ok h1 → I h1) →
  iterate d n body ks h = Ok h' →
  ∀ k, k ∈ ks → ∃ hc, I hc ∧ is_Ok (body hc k).
Proof.
  revert h. induction ks as [|j ks IH]; simpl; intros h Hh Hstep Hit k Hk.
  - by apply elem_of_nil in Hk.
  - bind_inv Hit as h1 Hb. destruct (decide _); [|done].
    apply elem_of_cons in Hk as [->|Hk].
    + exists h. split; [done|by eexists].
    + eapply (IH h1); [| |done|done].
      * eapply Hstep; [left|done|done].
      * intros k' h2 h3 Hk' ? ?. eapply Hstep; [by right|done..].
Qed.

(** The keys before the one at which the body fails leave the state as
    it is. *)
Lemma iterate_skip d n body pre k suf h e :
  (∀ j, j ∈ pre → body h j = Ok h) → dict_size h d = Some n →
  body h k = Err e → iterate d n body (pre ++ k :: suf) h = Err e.
Proof.
  intros Hpre Hsz Hk. induction pre as [|j pre IH]; simpl.
  - by rewrite Hk.
  - rewrite Hpre by left. simpl. rewrite decide_True by done.
    apply IH. intros j' Hj'. apply Hpre. by right.
Qed.

Lemma slot_frame n h h' d key :
  frame n h h' → (d < n)%nat → slot h' d key = slot h d key.
Proof. intros [_ Hfr] Hd. unfold slot. by rewrite Hfr. Qed.

Lemma slot_keys h d c items key y :
  h !! d = Some (ODict c items) → slot h d key = Some y → key ∈ items.*1.
Proof.
  unfold slot. intros -> Hk. apply assoc_is_Some. by eexists.
Qed.

(** One round of the first loop of [iadd]. *)
Lemma iadd_shared_step fuel h hc a b ca ia key hc' :
  h !! a = Some (ODict ca ia) → ca ≠ Counter → evo h hc →
  (let* va := getitem hc a key in
   let* vb := getitem hc b key in
   let* (h, v) := iadd fuel hc va vb in
   setitem h a key v) = Ok hc' →
  evo h hc'.
Proof.
  intros Ha Hca Hevo Hbody.
  bind_inv Hbody as va Hva. bind_inv Hbody as vb Hvb.
  bind_inv Hbody as [h5 v] Hrec.
  apply iadd_evo in Hrec as [Hevo5 [Hr Hrt]].
  assert (evo h h5) as Hevo' by by eapply evo_trans.
  destruct Hevo' as (L5 & T5 & S5 & K5 & Y5).
  destruct (K5 a ca ia Ha Hca) as (items5 & Ha5 & _).
  unfold setitem in Hbody. rewrite (deref_lookup _ _ _ Ha5) in Hbody.
  simpl in Hbody. injection Hbody as <-.
  apply getitem_slot in Hva.
  apply evo_setitem; [done..| |].
  - destruct Hr as [->|[_ ?]]; [|right; by right].
    destruct Hevo as (_ & _ & S1 & _).
    destruct (S1 a key va Hva) as [?|[?|?]]; [by left|right; by left|].
    right. right. by apply (evo_keeps_atoms _ _ Hevo5).
  - intros y oy Hy Hoy.
    destruct Hevo as (_ & _ & _ & _ & Y1).
    pose proof (Y1 a ca ia key y va oy Ha Hca Hy Hva Hoy) as Ht.
    unfold type_at in Ht. destruct (hc !! va) as [o1|] eqn:Ho1; [|done].
    injection Ht as <-. by apply Hrt.
Qed.

Lemma add_shared_mismatch fuel h a b oa ob k x y ox oy :
  h !! a = Some oa → h !! b = Some ob →
  is_Addable oa && is_Addable ob = false →
  slot h a k = Some x → slot h b k = Some y →
  h !! x = Some ox → h !! y = Some oy →
  same_category ox oy = false →
  ¬ is_Ok (add fuel h a b).
Proof.
  intros Ha Hb Hadd Hsa Hsb Hx Hy Hcat [[h' r] H].
  destruct fuel as [|fuel]; [done|].
  rewrite (add_S _ _ _ _ _ _ Ha Hb), Hadd in H.
  pose proof Hsa as Hsa'. pose proof Hsb as Hsb'.
  apply slot_Some in Hsa' as (ca & ia & Ha' & Hka).
  apply slot_Some in Hsb' as (cb & ib & Hb' & Hkb).
  assert (oa = ODict ca ia) as -> by congruence.
  assert (ob = ODict cb ib) as -> by congruence.
  cbn [is_MutableSet is_MutableMapping andb keys_of] in H.
  bind_inv H as [h1 out] Hcp. bind_inv H as h2 Hcl. bind_inv H as h3 Hl1.
  clear H.
  assert (frame (length h) h h1 ∧ out = length h) as [Hfr1 ->].
  { destruct (isinstance _ _); [by eapply copy_copy_frame|].
    destruct (isinstance _ _); [by eapply copy_copy_frame|done]. }
  assert (frame (length h) h h2) as Hfr2.
  { eapply frame_trans; [done|]. by eapply clear_frame. }
  unfold for_keys in Hl1. bind_inv Hl1 as o Ho. apply deref_Ok in Ho.
  assert (o = ODict ca ia) as ->.
  { pose proof (frame_all_lookup _ _ _ _ Hfr2 Ha). congruence. }
  cbn [keys_of] in Hl1.
  eapply (iterate_Ok_body (frame (length h) h)) with (k := k) in Hl1
    as (hc & Hfr & [hk Hbody]); [|exact Hfr2| |by eapply slot_keys].
  - rewrite bool_decide_eq_true_2 in Hbody by by eapply slot_keys.
    assert (getitem hc a k = Ok x) as Hga.
    { apply getitem_slot. rewrite (slot_frame _ _ _ _ _ Hfr); [done|].
      by eapply lookup_lt_Some. }
    assert (getitem hc b k = Ok y) as Hgb.
    { apply getitem_slot. rewrite (slot_frame _ _ _ _ _ Hfr); [done|].
      by eapply lookup_lt_Some. }
    rewrite Hga, Hgb in Hbody. simpl in Hbody.
    destruct fuel as [|fuel]; [done|].
    rewrite (add_no_category _ _ _ _ ox oy) in Hbody;
      [done|by eapply frame_all_lookup..|done].
  - intros j hc hc' _ Hfr Hbody.
    assert (∀ h5 v, frame (length hc) hc h5 →
              setitem h5 (length h) j v = Ok hc' → frame (length h) h hc')
      as Hstep.
    { intros h5 v Hfr5 Hset. eapply frame_trans; [|by eapply setitem_frame].
      eapply frame_step; [|done..]. by apply frame_length in Hfr. }
    destruct (bool_decide _).
    + bind_inv Hbody as va Hva. bind_inv Hbody as vb Hvb.
      bind_inv Hbody as [h5 v] Hrec. apply add_frame in Hrec. by eapply Hstep.
    + bind_inv Hbody as va Hva. bind_inv Hbody as [h5 v] Hrec.
      apply deepcopy_frame in Hrec. by eapply Hstep.
Qed.

Lemma iadd_shared_mismatch fuel h a b ca ia cb ib k x y ox oy :
  h !! a = Some (ODict ca ia) → h !! b = Some (ODict cb ib) →
  ca ≠ Counter → cb ≠ Counter →
  slot h a k = Some x → slot h b k = Some y →
  h !! x = Some ox → h !! y = Some oy →
  same_category ox oy = false →
  ¬ is_Ok (iadd fuel h a b).
Proof.
  intros Ha Hb Hca Hcb Hsa Hsb Hx Hy Hcat [[h' r] H].
  destruct fuel as [|fuel]; [done|].
  rewrite (iadd_S _ _ _ _ _ _ Ha Hb) in H.
  assert (is_Addable (ODict ca ia) = false) as Hadd by by destruct ca.
  rewrite Hadd in H.
  cbn [is_MutableSet is_MutableMapping andb keys_of] in H.
  destruct (negb _); [done|].
  bind_inv H as h1 Hl1. clear H.
  unfold for_keys in Hl1. bind_inv Hl1 as o Ho. apply deref_Ok in Ho.
  assert (o = ODict ca ia) as -> by congruence. cbn [keys_of] in Hl1.
  eapply (iterate_Ok_body (evo h)) with (k := k) in Hl1
    as (hc & Hevo & [hk Hbody]); [|apply evo_refl| |by eapply slot_keys].
  2:{ intros j hc hc' _ Hevo Hbody.
      destruct (bool_decide _); [|by inv_res].
      by eapply iadd_shared_step. }
  rewrite bool_decide_eq_true_2 in Hbody by by eapply slot_keys.
  bind_inv Hbody as va Hva. bind_inv Hbody as vb Hvb.
  bind_inv Hbody as [h5 v] Hrec. apply getitem_slot in Hva, Hvb.
  destruct Hevo as (_ & _ & _ & _ & Y1).
  pose proof (Y1 a ca ia k x va ox Ha Hca Hsa Hva Hx) as Hta.
  pose proof (Y1 b cb ib k y vb oy Hb Hcb Hsb Hvb Hy) as Htb.
  unfold type_at in Hta, Htb.
  destruct (hc !! va) as [oa'|] eqn:Hoa; [|done].
  destruct (hc !! vb) as [ob'|] eqn:Hob; [|done].
  injection Hta as Hta. injection Htb as Htb.
  destruct fuel as [|fuel]; [done|].
  rewrite (iadd_no_category _ _ _ _ oa' ob') in Hrec; [done..|].
  by rewrite (same_category_type ox oy).
Qed.

Lemma iadd_first_shared fuel h a b ca ia cb ib k x y ox oy :
  h !! a = Some (ODict ca ia) → h !! b = Some (ODict cb ib) →
  ca ≠ Counter →
  isinstance (ODict cb ib) (TMap ca) = true →
  first_shared_key k ia.*1 ib.*1 →
  slot h a k = Some x → slot h b k = Some y →
  h !! x = Some ox → h !! y = Some oy →
  same_category ox oy = false →
  iadd (S (S fuel)) h a b
  = Err (ValueError Accumulators (type_of ox) (type_of oy)).
Proof.
  intros Ha Hb Hca Hinst (pre & suf & Hkeys & Hk & Hpre) Hsa Hsb Hx Hy Hcat.
  rewrite (iadd_S _ _ _ _ _ _ Ha Hb).
  assert (is_Addable (ODict ca ia) = false) as -> by by destruct ca.
  cbn [is_MutableSet is_MutableMapping andb keys_of type_of].
  rewrite Hinst. cbn [negb]. unfold for_keys at 1.
  rewrite (deref_lookup _ _ _ Ha). cbn [bind keys_of]. rewrite Hkeys.
  rewrite (iterate_skip _ _ _ _ _ _ _
             (ValueError Accumulators (type_of ox) (type_of oy))); [done|..].
  - intros j Hj. by rewrite bool_decide_eq_false_2 by by apply Hpre.
  - unfold dict_size. rewrite Ha, <- Hkeys. by rewrite length_fmap.
  - rewrite bool_decide_eq_true_2 by done.
    apply getitem_slot in Hsa, Hsb. rewrite Hsa, Hsb. cbn [bind].
    by rewrite (iadd_no_category _ _ _ _ ox oy).
Qed.

Lemma add_first_shared n h a b ca ia cb ib va vb k x y ox oy :
  h !! a = Some (ODict ca ia) → h !! b = Some (ODict cb ib) →
  is_Addable (ODict ca ia) && is_Addable (ODict cb ib) = false →
  is_Ok (merge_class ca cb) →
  view n h a = Some va → view n h b = Some vb →
  first_shared_key k ia.*1 ib.*1 →
  slot h a k = Some x → slot h b k = Some y →
  h !! x = Some ox → h !! y = Some oy →
  same_category ox oy = false →
  add n h a b = Err (ValueError Accumulators (type_of ox) (type_of oy)).
Proof.
  intros Ha Hb Hadd Hcls Hva Hvb (pre & suf & Hkeys & Hk & Hpre)
    Hsa Hsb Hx Hy Hcat.
  apply (refines_Err_iff _ _ _ _
           (add_refines n h h a b va vb (frame_refl _ _) Hva Hvb)).
  apply (add_val_ValueError n h a b va vb _ _ _ Hva Hvb).
  destruct n as [|n]; [done|].
  destruct (view_caps _ _ _ _ _ Hva Ha) as (Hcapa & _).
  destruct (view_caps _ _ _ _ _ Hvb Hb) as (Hcapb & _).
  rewrite Hcapa, Hcapb in Hadd.
  pose proof (view_inv _ _ _ _ Hva) as Hia.
  pose proof (view_inv _ _ _ _ Hvb) as Hib.
  destruct va as [| | | | |ca' via];
    try congruence; try (destruct Hia as (? & ? & _); congruence).
  destruct vb as [| | | | |cb' vib];
    try congruence; try (destruct Hib as (? & ? & _); congruence).
  destruct Hia as (ia' & Ha' & Hnd & Hma).
  destruct Hib as (ib' & Hb' & _ & Hmb).
  assert (ca' = ca ∧ ia' = ia) as [-> ->] by (split; congruence).
  assert (cb' = cb ∧ ib' = ib) as [-> ->] by (split; congruence).
  clear Ha' Hb'.
  unfold slot in Hsa, Hsb. rewrite Ha in Hsa. rewrite Hb in Hsb.
  (* the value of [b] under [k] *)
  pose proof (items_assoc_view _ _ _ _ k Hmb) as Hky. rewrite Hsb in Hky.
  destruct (assoc k vib) as [vy|] eqn:Hvy; [|done].
  (* the items of [a] before [k], at [k] and after it *)
  apply fmap_app_inv in Hkeys as (ipre & irest & -> & Hrest & ->).
  symmetry in Hrest.
  apply fmap_cons_inv in Hrest as ([k0 x0] & isuf & Hk0 & _ & ->).
  simpl in Hk0. subst k0.
  rewrite fmap_app, fmap_cons in Hnd. apply NoDup_app in Hnd as (_ & Hnd & _).
  assert (x0 = x) as ->.
  { rewrite assoc_app_r in Hsa.
    - simpl in Hsa. rewrite decide_True in Hsa by done. congruence.
    - intros Hin. by eapply Hnd; [|left]. }
  apply items_view_Forall2 in Hma.
  apply Forall2_app_inv_l in Hma as (vpre & vrest & Hvpre & Hvrest & ->).
  apply Forall2_cons_inv_l in Hvrest as ([k0 vx] & vsuf & [Hk0 Hvx] & _ & ->).
  simpl in Hk0, Hvx. subst k0.
  destruct (view_caps _ _ _ _ _ Hvx Hx) as (Hx1 & Hx2 & Hx3 & ->).
  destruct (view_caps _ _ _ _ _ Hky Hy) as (Hy1 & Hy2 & Hy3 & ->).
  eapply (inc_nested ca _ cb vib vpre k vx vsuf vy); [done..| |].
  - intros k' x' y' Hin Hy'. exfalso.
    apply (Hpre k').
    + rewrite <- (Forall2_keys (fun l v => view n h l = Some v) _ _ Hvpre).
      apply list_elem_of_fmap.
      by exists (k', x').
    + rewrite <- (items_view_keys_eq _ _ _ _ Hmb). apply assoc_is_Some.
      by eexists.
  - apply inc_category. unfold val_same_category.
    unfold same_category in Hcat.
    by rewrite <- Hx1, <- Hx2, <- Hx3, <- Hy1, <- Hy2, <- Hy3.
Qed.

Lemma related_merge_class ca ia cb ib :
  unrelated_mappings (ODict ca ia) (ODict cb ib) = false →
  is_Ok (merge_class ca cb).
Proof.
  unfold unrelated_mappings, merge_class, isinstance. cbn [type_of].
  destruct (issubclass (TMap cb) (TMap ca)); [by eexists|].
  destruct (issubclass (TMap ca) (TMap cb)); [by eexists|done].
Qed.

Lemma items_view_elem n h (items : list (string * loc)) vitems k x :
  mapM (fun '(k, v) => pair k <$> view n h v) items = Some vitems →
  (k, x) ∈ vitems → ∃ c, view n h c = Some x.
Proof.
  intros Hm Hin. apply items_view_Forall2 in Hm.
  apply list_elem_of_lookup in Hin as [i Hi].
  destruct (Forall2_lookup_r _ _ _ _ _ Hm Hi) as ([k' c] & _ & _ & Hc).
  eauto.
Qed.

Lemma add_val_errors n : ∀ h a b va vb e,
  view n h a = Some va → view n h b = Some vb →
  add_val va vb = Err e →
  e = OperandError ∨ ∃ m ta tb, e = ValueError m ta tb.
Proof.
  induction n as [|n IH]; intros h a b va vb e Ha Hb; [done|].
  rewrite add_val_unfold.
  destruct (val_Addable va && val_Addable vb) eqn:Hadd.
  { intros ?%operator_add_val_error. by left. }
  destruct va as [x|x| |vxs|x|ca ia], vb as [y|y| |vys|y|cb ib];
    try (intros [= <-]; right; by eexists _, _, _); try done.
  apply view_inv in Ha as (ia' & _ & _ & Hia).
  apply view_inv in Hb as (ib' & _ & _ & Hib).
  destruct (merge_class ca cb) as [c|e'] eqn:Hc; cbn [bind].
  - destruct (foldM _ ia []) as [res|e'] eqn:Hl; cbn [bind]; [done|].
    intros [= ->].
    apply merge_shared_keys_Err in Hl
      as (pre & k & x & suf & y & -> & Hy & Hxy & Hpre).
    destruct (items_view_elem _ _ _ _ k x Hia) as [cx Hcx].
    { apply elem_of_app. right. left. }
    destruct (items_view_elem _ _ _ _ k y Hib) as [cy Hcy].
    { by apply assoc_Some_elem. }
    exact (IH h cx cy x y e Hcx Hcy Hxy).
  - intros [= <-]. right. unfold merge_class in Hc.
    destruct (issubclass _ _); [done|]. destruct (issubclass _ _); [done|].
    injection Hc as <-. by eexists _, _, _.
Qed.

(** [add] on operands with finite values, with its result as a value. *)
Lemma add_value n h a b va vb :
  view n h a = Some va → view n h b = Some vb →
  match add_val va vb with
  | Ok v => ∃ h' r, add n h a b = Ok (h', r) ∧ view n h' r = Some v
  | Err e => add n h a b = Err e
  end.
Proof.
  intros Ha Hb.
  pose proof (add_refines n h h a b va vb (frame_refl _ _) Ha Hb) as Href.
  unfold refines in Href. destruct (add_val va vb) as [v|e]; [|done].
  destruct Href as ([h' r] & Hadd & Hfr & Hrob).
  exists h', r. split; [done|]. apply Hrob; [done|apply agree_refl].
Qed.

Lemma iterate_app d n body ks1 ks2 h :
  iterate d n body (ks1 ++ ks2) h
  = let* h1 := iterate d n body ks1 h in iterate d n body ks2 h1.
Proof.
  revert h. induction ks1 as [|k ks1 IH]; intros h; [done|].
  cbn [app iterate]. destruct (body h k) as [h1|e]; [|done]. cbn [bind].
  destruct (decide _); [apply IH|done].
Qed.

(** A shared key under which the values do not combine makes [add] raise:
    it neither returns nor runs out of fuel. *)
Lemma add_shared_raises n h a b oa ob va vb k x y ox oy :
  h !! a = Some oa → h !! b = Some ob →
  is_Addable oa && is_Addable ob = false →
  view n h a = Some va → view n h b = Some vb →
  slot h a k = Some x → slot h b k = Some y →
  h !! x = Some ox → h !! y = Some oy →
  same_category ox oy = false →
  ∃ e, add n h a b = Err e
       ∧ (e = OperandError ∨ ∃ m ta tb, e = ValueError m ta tb).
Proof.
  intros Ha Hb Hadd Hva Hvb Hsa Hsb Hx Hy Hcat.
  pose proof (add_value n h a b va vb Hva Hvb) as Hv.
  destruct (add_val va vb) as [v|e] eqn:Hval.
  - destruct Hv as (h' & r & Hr & _). exfalso.
    eapply (add_shared_mismatch n h a b); [done..|]. by eexists.
  - exists e. split; [done|].
    exact (add_val_errors n h a b va vb e Hva Hvb Hval).
Qed.

(** When the keys of both before [k] combine, [add] raises the error of
    the values under [k]. *)
Lemma add_reaches_shared n h a b ca ia cb ib va vb pre k suf x y ox oy :
  h !! a = Some (ODict ca ia) → h !! b = Some (ODict cb ib) →
  is_Addable (ODict ca ia) && is_Addable (ODict cb ib) = false →
  is_Ok (merge_class ca cb) →
  view n h a = Some va → view n h b = Some vb →
  ia.*1 = pre ++ k :: suf →
  (∀ j xj yj, j ∈ pre → slot h a j = Some xj → slot h b j = Some yj →
              is_Ok (add n h xj yj)) →
  slot h a k = Some x → slot h b k = Some y →
  h !! x = Some ox → h !! y = Some oy →
  same_category ox oy = false →
  add n h a b = Err (ValueError Accumulators (type_of ox) (type_of oy)).
Proof.
  intros Ha Hb Hadd Hcls Hva Hvb Hkeys Hpre Hsa Hsb Hx Hy Hcat.
  apply (refines_Err_iff _ _ _ _
           (add_refines n h h a b va vb (frame_refl _ _) Hva Hvb)).
  apply (add_val_ValueError n h a b va vb _ _ _ Hva Hvb).
  destruct n as [|n]; [done|].
  destruct (view_caps _ _ _ _ _ Hva Ha) as (Hcapa & _).
  destruct (view_caps _ _ _ _ _ Hvb Hb) as (Hcapb & _).
  rewrite Hcapa, Hcapb in Hadd.
  pose proof (view_inv _ _ _ _ Hva) as Hia.
  pose proof (view_inv _ _ _ _ Hvb) as Hib.
  destruct va as [| | | | |ca' via];
    try congruence; try (destruct Hia as (? & ? & _); congruence).
  destruct vb as [| | | | |cb' vib];
    try congruence; try (destruct Hib as (? & ? & _); congruence).
  destruct Hia as (ia' & Ha' & Hnd & Hma).
  destruct Hib as (ib' & Hb' & _ & Hmb).
  assert (ca' = ca ∧ ia' = ia) as [-> ->] by (split; congruence).
  assert (cb' = cb ∧ ib' = ib) as [-> ->] by (split; congruence).
  clear Ha' Hb'.
  pose proof Hsa as Hsa'. pose proof Hsb as Hsb'.
  unfold slot in Hsa', Hsb'. rewrite Ha in Hsa'. rewrite Hb in Hsb'.
  (* the value of [b] under [k] *)
  pose proof (items_assoc_view _ _ _ _ k Hmb) as Hky. rewrite Hsb' in Hky.
  destruct (assoc k vib) as [vy|] eqn:Hvy; [|done].
  (* the items of [a] before [k], at [k] and after it *)
  apply fmap_app_inv in Hkeys as (ipre & irest & -> & Hrest & Hia).
  symmetry in Hrest.
  apply fmap_cons_inv in Hrest as ([k0 x0] & isuf & Hk0 & _ & ->).
  simpl in Hk0. subst k0.
  assert (x0 = x) as ->.
  { assert (assoc k ia = Some x0) as Hx0; [|congruence].
    apply assoc_elem_NoDup; [done|]. rewrite Hia.
    apply elem_of_app. right. left. }
  pose proof Hma as Hma'. apply items_view_Forall2 in Hma'. rewrite Hia in Hma'.
  apply Forall2_app_inv_l in Hma' as (vpre & vrest & Hvpre & Hvrest & ->).
  apply Forall2_cons_inv_l in Hvrest as ([k0 vx] & vsuf & [Hk0 Hvx] & _ & ->).
  simpl in Hk0, Hvx. subst k0.
  destruct (view_caps _ _ _ _ _ Hvx Hx) as (Hx1 & Hx2 & Hx3 & ->).
  destruct (view_caps _ _ _ _ _ Hky Hy) as (Hy1 & Hy2 & Hy3 & ->).
  eapply (inc_nested ca _ cb vib vpre k vx vsuf vy); [done..| |].
  - intros k' x' y' Hin Hy'.
    apply list_elem_of_lookup in Hin as [i Hi].
    destruct (Forall2_lookup_r _ _ _ _ _ Hvpre Hi)
      as ([k0 xl] & Hil & Hk0 & Hxl).
    simpl in Hk0, Hxl. subst k0.
    pose proof (items_assoc_view _ _ _ _ k' Hmb) as Hyl. rewrite Hy' in Hyl.
    destruct (assoc k' ib) as [yl|] eqn:Hbl; [|done].
    assert (is_Ok (add (S n) h xl yl)) as [[h' r] Hr].
    { apply (Hpre k').
      - apply list_elem_of_fmap. exists (k', xl). split; [done|].
        by eapply list_elem_of_lookup_2.
      - unfold slot. rewrite Ha. apply assoc_elem_NoDup; [done|].
        rewrite Hia. apply elem_of_app. left.
        by eapply list_elem_of_lookup_2.
      - unfold slot. by rewrite Hb. }
    pose proof (add_value (S n) h xl yl x' y' (view_S _ _ _ _ Hxl)
                  (view_S _ _ _ _ Hyl)) as Hv.
    destruct (add_val x' y') as [v|e]; [by eexists|congruence].
  - apply inc_category. unfold val_same_category.
    unfold same_category in Hcat.
    by rewrite <- Hx1, <- Hx2, <- Hx3, <- Hy1, <- Hy2, <- Hy3.
Qed.

(** [iadd] raises the error of the first shared key that does not
    combine: the one of the values under [k], when the loop gets there. *)
Lemma iadd_reaches_shared fuel h a b ca ia cb ib pre k suf x y ox oy :
  h !! a = Some (ODict ca ia) → h !! b = Some (ODict cb ib) →
  ca ≠ Counter → cb ≠ Counter →
  isinstance (ODict cb ib) (TMap ca) = true →
  ia.*1 = pre ++ k :: suf →
  slot h a k = Some x → slot h b k = Some y →
  h !! x = Some ox → h !! y = Some oy →
  same_category ox oy = false →
  iadd (S (S fuel)) h a b
  = match iadd_shared_loop (S fuel) a b ib.*1 (length ia.*1) pre h with
    | Ok _ => Err (ValueError Accumulators (type_of ox) (type_of oy))
    | Err e => Err e
    end.
Proof.
  intros Ha Hb Hca Hcb Hinst Hkeys Hsa Hsb Hx Hy Hcat.
  rewrite (iadd_S _ _ _ _ _ _ Ha Hb).
  assert (is_Addable (ODict ca ia) = false) as -> by by destruct ca.
  cbn [is_MutableSet is_MutableMapping andb keys_of type_of].
  rewrite Hinst. cbn [negb]. unfold for_keys at 1, iadd_shared_loop.
  rewrite (deref_lookup _ _ _ Ha). cbn [bind keys_of].
  generalize (length ia.*1). intros n. rewrite Hkeys, iterate_app.
  match goal with
  | |- context [iterate a n ?body pre h] =>
      destruct (iterate a n body pre h) as [h1|e] eqn:Hpre; [|done]
  end.
  cbn [bind iterate].
  eapply (iterate_inv' (evo h)) in Hpre; [|apply evo_refl|].
  2:{ intros j hc hc' _ Hevo Hbody _.
      destruct (bool_decide _); [|by inv_res].
      exact (iadd_shared_step (S fuel) h hc a b ca ia j hc' Ha Hca Hevo Hbody). }
  rewrite bool_decide_eq_true_2 by by eapply slot_keys.
  pose proof Hpre as (_ & _ & _ & K1 & Y1).
  destruct (K1 a ca ia Ha Hca) as (ia1 & Ha1 & Hpa).
  destruct (K1 b cb ib Hb Hcb) as (ib1 & Hb1 & Hpb).
  assert (∃ va, slot h1 a k = Some va) as [va Hva].
  { unfold slot. rewrite Ha1. apply assoc_is_Some.
    eapply elem_of_prefix; [|done]. by eapply slot_keys. }
  assert (∃ vb, slot h1 b k = Some vb) as [vb Hvb].
  { unfold slot. rewrite Hb1. apply assoc_is_Some.
    eapply elem_of_prefix; [|done]. by eapply slot_keys. }
  pose proof (Y1 a ca ia k x va ox Ha Hca Hsa Hva Hx) as Hta.
  pose proof (Y1 b cb ib k y vb oy Hb Hcb Hsb Hvb Hy) as Htb.
  apply getitem_slot in Hva, Hvb. rewrite Hva, Hvb. cbn [bind].
  unfold type_at in Hta, Htb.
  destruct (h1 !! va) as [oa'|] eqn:Hoa; [|done].
  destruct (h1 !! vb) as [ob'|] eqn:Hob; [|done].
  injection Hta as Hta. injection Htb as Htb.
  rewrite (iadd_no_category _ _ _ _ oa' ob'); [by rewrite Hta, Htb|done..|].
  by rewrite (same_category_type ox oy).
Qed.

(** C10.  Let [a] and [b] be mapping-like values -- mappings that are not
    addable -- which hold, under a key [k] of both, two values that share
    none of the three categories.  Then combining these two values raises
    the [ValueError] that names their types, and neither [add(a, b)] nor
    [iadd(a, b)] returns, whatever the other keys hold.  Which exception
    they raise is that of the first key of both, in the order of [a],
    whose values do not combine, so that the error of the values under
    [k] is raised when the keys of both before [k] combine:
    - on operands with finite values [add(a, b)] raises, either the
      exception of an operand's own [+] or the module's [ValueError]; and
      when the classes of [a] and [b] are compatible and [add] returns on
      the two values of every key of both that comes before [k] in [a],
      it raises the error of the values under [k];
    - for [b] an instance of the class of [a], [iadd(a, b)] raises what
      its first loop raises on the keys of [a] before [k], and the error
      of the values under [k] when the loop gets past these keys;
    - when [k] is the first key of [a] that is a key of [b] too, the
      outcome of both is the error of the values under [k]. *)
Theorem shared_key_mismatch h a b oa ob k x y ox oy :
  h !! a = Some oa → h !! b = Some ob →
  category_of oa = Some MappingLike → category_of ob = Some MappingLike →
  slot h a k = Some x → slot h b k = Some y →
  h !! x = Some ox → h !! y = Some oy →
  same_category ox oy = false →
  let e := ValueError Accumulators (type_of ox) (type_of oy) in
  (∀ fuel, add (S fuel) h x y = Err e ∧ iadd (S fuel) h x y = Err e)
  ∧ (∀ fuel, ¬ is_Ok (add fuel h a b) ∧ ¬ is_Ok (iadd fuel h a b))
  ∧ (∀ n va vb, view n h a = Some va → view n h b = Some vb →
       (∃ e', add n h a b = Err e'
              ∧ (e' = OperandError ∨ ∃ m ta tb, e' = ValueError m ta tb))
       ∧ (unrelated_mappings oa ob = false →
          ∀ pre suf, keys_of oa = pre ++ k :: suf →
          (∀ j xj yj, j ∈ pre →
                      slot h a j = Some xj → slot h b j = Some yj →
                      is_Ok (add n h xj yj)) →
          add n h a b = Err e))
  ∧ (isinstance ob (type_of oa) = true →
     ∀ pre suf fuel, keys_of oa = pre ++ k :: suf →
       iadd (S (S fuel)) h a b
       = match iadd_shared_loop (S fuel) a b (keys_of ob)
                 (length (keys_of oa)) pre h with
         | Ok _ => Err e
         | Err e' => Err e'
         end)
  ∧ (first_shared_key k (keys_of oa) (keys_of ob) →
     (unrelated_mappings oa ob = false →
      ∀ n va vb, view n h a = Some va → view n h b = Some vb →
                 add n h a b = Err e)
     ∧ (isinstance ob (type_of oa) = true →
        ∀ fuel, iadd (S (S fuel)) h a b = Err e)).
Proof.
  intros Ha Hb Hca Hcb Hsa Hsb Hx Hy Hcat e.
  apply category_MappingLike in Hca as (ca & ia & -> & Hca).
  apply category_MappingLike in Hcb as (cb & ib & -> & Hcb).
  assert (is_Addable (ODict ca ia) && is_Addable (ODict cb ib) = false)
    as Hadd by by destruct ca.
  split_and!.
  - intros fuel. split.
    + by apply add_no_category.
    + by apply iadd_no_category.
  - intros fuel. split.
    + by eapply add_shared_mismatch.
    + by eapply iadd_shared_mismatch.
  - intros n va vb Hva Hvb. split.
    + exact (add_shared_raises n h a b _ _ va vb k x y ox oy
               Ha Hb Hadd Hva Hvb Hsa Hsb Hx Hy Hcat).
    + intros Hrel pre suf Hkeys Hpre.
      eapply (add_reaches_shared n h a b ca ia cb ib va vb pre k suf x y);
        try done.
      by eapply related_merge_class.
  - intros Hinst pre suf fuel Hkeys.
    exact (iadd_reaches_shared fuel h a b ca ia cb ib pre k suf x y ox oy
             Ha Hb Hca Hcb Hinst Hkeys Hsa Hsb Hx Hy Hcat).
  - intros Hfirst. split.
    + intros Hrel n va vb Hva Hvb.
      eapply add_first_shared; try done. by eapply related_merge_class.
    + intros Hinst fuel. by eapply iadd_first_shared.
Qed.

Lemma shared_key_mismatch_witness :
  (∀ fuel, ¬ is_Ok (add fuel heap_j_int_k 2 4)
           ∧ ¬ is_Ok (iadd fuel heap_j_int_k 2 4))
  ∧ add 2 heap_j_int_k 2 4
    = Err (ValueError Accumulators TNoneType TNoneType)
  ∧ ∀ fuel, iadd (S (S fuel)) heap_j_int_k 2 4
            = Err (ValueError Accumulators TNoneType TNoneType).
Proof.
  destruct (shared_key_mismatch heap_j_int_k 2 4 _ _ "k" 1 1 _ _
              eq_refl eq_refl eq_refl eq_refl eq_refl eq_refl
              eq_refl eq_refl eq_refl) as (_ & Hnever & Hadd & Hiadd & _).
  split; [exact Hnever|]. split.
  - destruct (Hadd 2%nat _ _ eq_refl eq_refl) as [_ Hk].
    apply (Hk eq_refl ["j"%string] [] eq_refl).
    intros j xj yj ->%list_elem_of_singleton [= <-] [= <-]. by eexists.
  - intros fuel. exact (Hiadd eq_refl ["j"%string] [] fuel eq_refl).
Defined.

(** With [a = {j: 1, k: None}] and [b = {j: 's', k: None}], two [dict]s,
    the two values under the key [k] of both share no category; yet
    [add(a, b)] and [iadd(a, b)] raise the exception of [1 + 's'], which
    comes from the key [j] before [k], and not the [ValueError]. *)
Lemma shared_key_mismatch_counterexample :
  ∃ oa ob,
    heap_j_str_k !! 2%nat = Some oa ∧ heap_j_str_k !! 4%nat = Some ob
    ∧ category_of oa = Some MappingLike ∧ category_of ob = Some MappingLike
    ∧ unrelated_mappings oa ob = false
    ∧ slot heap_j_str_k 2 "k" = Some 1%nat
    ∧ slot heap_j_str_k 4 "k" = Some 1%nat
    ∧ heap_j_str_k !! 1%nat = Some ONone
    ∧ same_category ONone ONone = false
    ∧ ∀ fuel, add (S (S fuel)) heap_j_str_k 2 4 = Err OperandError
              ∧ iadd (S (S fuel)) heap_j_str_k 2 4 = Err OperandError.
Proof. eexists _, _. split_and!; try reflexivity. intros fuel. by split. Qed.

(** ** C9: the values of keys of one side are deep copies *)








(** [a = {k: [1, 2]}], [b = {}] and [r = add(a, b)]: after
    [r[k].append(1)], [a[k]] is still [[1, 2]]. *)
Example append_to_copy :
  ∃ h1 r z h2,
    add 3 heap_list_payload 3 4 = Ok (h1, r)
    ∧ slot h1 r "k" = Some z
    ∧ list_append h1 z 0 = Ok h2
    ∧ view 3 h2 r
      = Some (VDict Dict [("k"%string, VList [VInt 1; VInt 2; VInt 1])])
    ∧ view 3 h2 3
      = Some (VDict Dict [("k"%string, VList [VInt 1; VInt 2])]).
Proof. eexists _, _, _, _. split_and!; reflexivity. Qed.



(** ** C3: what [iadd] returns and what it changes *)

Lemma dreach_dangling h x l : (length h ≤ x)%nat → dreach h x l → l = x.
Proof.
  intros Hx Hr. destruct Hr as [|x key c l Hs _]; [done|].
  apply slot_Some in Hs as (c0 & items & Hx' & _).
  apply lookup_lt_Some in Hx'. lia.
Qed.

Lemma dreach_atomic h x l : atomic_at h x → dreach h x l → l = x.
Proof.
  intros (o & Ho & Hat) Hr. destruct Hr as [|x key c l Hs _]; [done|].
  apply slot_Some in Hs as (c0 & items & Hx' & _).
  assert (o = ODict c0 items) as -> by congruence. done.
Qed.

(** What is reached in a later heap was reached before, or is new, or is
    atomic. *)
Lemma dreach_back h hc x l :
  evo h hc → dreach hc x l →
  dreach h x l ∨ (length h ≤ l)%nat ∨ atomic_at hc l.
Proof.
  intros Hevo Hr. induction Hr as [x|x key c l Hs Hr IH]; [left; constructor|].
  destruct IH as [IH|[?|?]]; [|right; by left|right; by right].
  pose proof Hevo as (_ & T1 & S1 & _).
  destruct (S1 x key c Hs) as [Hs0|[Hnew|Hat]].
  - left. by eapply dreach_step.
  - right. left. by rewrite (dreach_dangling _ _ _ Hnew IH).
  - destruct (decide (c < length h)%nat) as [Hlt|Hge].
    + apply lookup_lt_is_Some in Hlt as [o Ho].
      destruct (T1 c o Ho) as (o' & Ho' & Ht & _).
      destruct Hat as (o'' & Ho'' & Hat).
      assert (o'' = o') as -> by congruence.
      assert (atomic_at h c) as Hat0.
      { exists o. split; [done|]. by destruct o, o'. }
      right. right. rewrite (dreach_atomic _ _ _ Hat0 IH). by exists o'.
    + assert (length h ≤ c)%nat as Hnew by lia.
      right. left. by rewrite (dreach_dangling _ _ _ Hnew IH).
Qed.

(** The same, from what a mapping holds under a key. *)
Lemma dreach_slot_back h hc a j va l :
  evo h hc → slot hc a j = Some va → dreach hc va l →
  (l < length h)%nat → ¬ atomic_at hc l →
  slot h a j = Some va ∧ dreach h va l.
Proof.
  intros Hevo Hs Hr Hl Hna.
  destruct (dreach_back _ _ _ _ Hevo Hr) as [Hr0|[?|?]]; [|lia|done].
  pose proof Hevo as (_ & T1 & S1 & _).
  destruct (S1 a j va Hs) as [Hs0|[Hnew|Hat]]; [done|exfalso..].
  - rewrite (dreach_dangling _ _ _ Hnew Hr0) in Hl. lia.
  - destruct (decide (va < length h)%nat) as [Hlt|Hge].
    + apply lookup_lt_is_Some in Hlt as [o Ho].
      destruct (T1 va o Ho) as (o' & Ho' & Ht & _).
      destruct Hat as (o'' & Ho'' & Hat).
      assert (o'' = o') as -> by congruence.
      assert (atomic_at h va) as Hat0.
      { exists o. split; [done|]. by destruct o, o'. }
      rewrite (dreach_atomic _ _ _ Hat0 Hr0) in Hna. apply Hna. by exists o'.
    + assert (length h ≤ va)%nat as Hnew by lia.
      rewrite (dreach_dangling _ _ _ Hnew Hr0) in Hl. lia.
Qed.

(** [evo] keeps atomic objects as they are. *)
Lemma evo_atomic h h' l o :
  evo h h' → h !! l = Some o → atomic o = true → h' !! l = Some o.
Proof.
  intros (_ & T1 & _) Ho Hat.
  destruct (T1 l o Ho) as (o' & Ho' & _ & Heq). by rewrite Ho', (Heq Hat).
Qed.

(** The operators change their first operand only. *)
Lemma Counter_iadd_only h a self other h' r l :
  Counter_iadd h a self other = Ok (h', r) →
  (l < length h)%nat → l ≠ a → h' !! l = h !! l.
Proof.
  intros H Hl Hne. unfold Counter_iadd in H.
  bind_inv H as [h1 items1] Hfold. bind_inv H as items2 Hkeep.
  injection H as <- <-.
  unfold store. rewrite list_lookup_insert_ne by done.
  revert Hfold.
  apply (foldM_inv (fun s => (length h ≤ length s.1)%nat ∧ s.1 !! l = h !! l));
    [done|].
  intros [hc ic] [elem c] [hc' ic'] [Hlen Hhc] _ Hbody. simpl in *.
  bind_inv Hbody as x Hx. bind_inv Hbody as y Hy. injection Hbody as <- <-.
  rewrite length_app. split; [lia|]. by rewrite lookup_app_l by lia.
Qed.

Lemma operator_iadd_only h a b h' r l :
  operator_iadd h a b = Ok (h', r) →
  (l < length h)%nat → l ≠ a → h' !! l = h !! l.
Proof.
  intros H Hl Hne. unfold operator_iadd in H.
  bind_inv H as oa Ha. bind_inv H as ob Hb.
  assert (∀ h1 o, (length h ≤ length h1)%nat → h1 !! l = h !! l →
                  store h1 a o !! l = h !! l) as Hst.
  { intros h1 o _ <-. unfold store. by rewrite list_lookup_insert_ne. }
  destruct oa as [x|x| |es|x|[] xs]; try done.
  - apply operator_add_frame in H as [Hfr _]. by apply Hfr.
  - apply operator_add_frame in H as [Hfr _]. by apply Hfr.
  - destruct ob as [y|y| |es'|y|cy ys]; try done.
    + destruct (alloc_list h (OStr <$> chars y)) as [h1 ls] eqn:Hal.
      injection Hal as <- <-. injection H as <- <-.
      apply Hst; [rewrite length_app; lia|]. by rewrite lookup_app_l.
    + injection H as <- <-. by apply Hst.
    + destruct (alloc_list h (OStr <$> ys.*1)) as [h1 ls] eqn:Hal.
      injection Hal as <- <-. injection H as <- <-.
      apply Hst; [rewrite length_app; lia|]. by rewrite lookup_app_l.
  - destruct ob as [y|y| |es'|y|[] ys]; try done.
    by eapply Counter_iadd_only.
Qed.

Lemma operator_ior_only h a b h' r l :
  operator_ior h a b = Ok (h', r) →
  (l < length h)%nat → l ≠ a → h' !! l = h !! l.
Proof.
  intros H Hl Hne. unfold operator_ior in H.
  bind_inv H as oa Ha. bind_inv H as ob Hb.
  destruct oa, ob; try done. injection H as <- <-.
  unfold store. by rewrite list_lookup_insert_ne.
Qed.

Lemma setitem_only h d key v h' l :
  setitem h d key v = Ok h' → l ≠ d → h' !! l = h !! l.
Proof.
  unfold setitem. intros H Hne. bind_inv H as o Ho.
  destruct o; try done. injection H as <-.
  unfold store. by rewrite list_lookup_insert_ne.
Qed.

(** One round of the first loop of [iadd] leaves an object that is not
    [touched] as it is, when the calls that it makes do. *)
Lemma iadd_shared_step_footprint fuel h hc a b ca ia j hc' l :
  (∀ h a b h' r l, iadd fuel h a b = Ok (h', r) →
     (l < length h)%nat → ¬ touched h a b l → h' !! l = h !! l) →
  h !! a = Some (ODict ca ia) → ca ≠ Counter → is_Some (slot h b j) →
  evo h hc → hc !! l = h !! l →
  (l < length h)%nat → ¬ touched h a b l →
  (let* va := getitem hc a j in
   let* vb := getitem hc b j in
   let* (h, v) := iadd fuel hc va vb in
   setitem h a j v) = Ok hc' →
  hc' !! l = h !! l.
Proof.
  intros IH Ha Hca Hbj Hevo Hhc Hl Hnt Hbody.
  assert (l ≠ a) as Hne by (intros ->; apply Hnt; by left).
  bind_inv Hbody as va Hva. bind_inv Hbody as vb Hvb.
  bind_inv Hbody as [h5 v] Hrec.
  rewrite (setitem_only _ _ _ _ _ _ Hbody Hne), <- Hhc.
  apply lookup_lt_is_Some in Hl as [o' Ho']. rewrite Ho' in Hhc.
  destruct (atomic o') eqn:Hat.
  { rewrite Hhc.
    eapply (evo_atomic hc h5); [apply (iadd_evo _ _ _ _ _ _ Hrec)|done..]. }
  eapply IH; [done| |].
  { apply evo_length in Hevo. apply lookup_lt_Some in Ho'. lia. }
  apply getitem_slot in Hva.
  assert (¬ atomic_at hc l) as Hna.
  { intros (o'' & Ho'' & Hat''). congruence. }
  assert (dreach hc va l → False) as Hnr.
  { intros Hr.
    destruct (dreach_slot_back _ _ _ _ _ _ Hevo Hva Hr) as [Hs0 Hr0];
      [by eapply lookup_lt_Some|done|].
    apply Hnt. right. by exists j, va. }
  intros [->|(k & x & Hs & _ & Hr)]; [apply Hnr; constructor|].
  apply Hnr. by eapply dreach_step.
Qed.

(** The footprint of [iadd]: an object that is not [touched] is left as
    it is. *)
Lemma iadd_footprint fuel : ∀ h a b h' r l,
  iadd fuel h a b = Ok (h', r) →
  (l < length h)%nat → ¬ touched h a b l → h' !! l = h !! l.
Proof.
  induction fuel as [|fuel IH]; intros h a b h' r l H Hl Hnt; [done|].
  assert (l ≠ a) as Hne by (intros ->; apply Hnt; by left).
  destruct (h !! a) as [oa|] eqn:Ha;
    [|by unfold iadd, deref in H; rewrite Ha in H].
  destruct (h !! b) as [ob|] eqn:Hb;
    [|by unfold iadd, deref in H; rewrite Ha, Hb in H].
  rewrite (iadd_S _ _ _ _ _ _ Ha Hb) in H.
  destruct (is_Addable oa && is_Addable ob) eqn:Hadd;
    [by eapply operator_iadd_only|].
  destruct (is_MutableSet oa && is_MutableSet ob) eqn:Hset;
    [by eapply operator_ior_only|].
  destruct (is_MutableMapping oa && is_MutableMapping ob) eqn:Hmap; [|done].
  destruct (isinstance ob (type_of oa)) eqn:Hinst; [|done]. cbn [negb] in H.
  destruct (mapping_branch _ _ Hadd Hmap Hinst)
    as (ca & ia & cb & ib & -> & -> & Hca).
  cbn [keys_of] in H.
  bind_inv H as h1 Hl1. bind_inv H as h2 Hl2. injection H as <- <-.
  set (I := fun hc : heap => evo h hc ∧ hc !! l = h !! l).
  assert (I h1) as [Hevo1 Hh1].
  { unfold for_keys in Hl1. bind_inv Hl1 as o Ho. revert Hl1.
    apply (iterate_inv' I); [split; [apply evo_refl|done]|].
    intros j hc hc' _ [Hevo Hhc] Hbody _.
    destruct (bool_decide_reflect (j ∈ ib.*1)) as [Hj|]; [|by inv_res].
    split; [eapply iadd_shared_step; [exact Ha|done..]|].
    eapply (iadd_shared_step_footprint fuel h hc a b); try done.
    unfold slot. rewrite Hb. by apply assoc_is_Some. }
  unfold for_keys in Hl2. bind_inv Hl2 as o Ho. revert Hl2.
  apply (iterate_inv' (fun hc => (length h ≤ length hc)%nat ∧ hc !! l = h !! l)).
  { split; [by apply evo_length|done]. }
  - intros j hc hc' _ [Hlen Hhc] Hbody _.
    destruct (bool_decide _); [|by inv_res].
    bind_inv Hbody as vb Hvb. bind_inv Hbody as [h5 v] Hcp.
    apply deepcopy_frame in Hcp.
    split.
    + apply frame_length in Hcp. unfold setitem in Hbody.
      bind_inv Hbody as o5 Ho5. destruct o5; try done. injection Hbody as <-.
      unfold store. rewrite length_insert. lia.
    + rewrite (setitem_only _ _ _ _ _ _ Hbody Hne), <- Hhc.
      apply Hcp. lia.
Qed.



(** ** What [iadd] returns *)


Lemma iadd_not_atomic fuel h a b oa h' r :
  h !! a = Some oa → atomic oa = false →
  iadd fuel h a b = Ok (h', r) → r = a.
Proof.
  intros Ha Hat H. apply iadd_evo in H as [_ [[?|[_ Hr]] Ht]]; [done|].
  specialize (Ht _ Ha). destruct Hr as (o & Ho & Hato).
  unfold type_at in Ht. rewrite Ho in Ht. injection Ht as Ht.
  by destruct o, oa.
Qed.

(** ** Values that are left as they are *)

Lemma view_reach n h h' : ∀ x v,
  (∀ l o, reach h x l → h !! l = Some o → h' !! l = Some o) →
  view n h x = Some v → view n h' x = Some v.
Proof.
  induction n as [|n IH]; simpl; intros x v Hincl Hv; [done|].
  destruct (h !! x) as [o|] eqn:Ho; [|done].
  rewrite (Hincl x o (reach_refl _ _) Ho).
  assert (∀ c, c ∈ children o → ∀ w, view n h c = Some w →
               view n h' c = Some w) as Hch.
  { intros c Hc w Hw. apply IH; [|done].
    intros l o' Hr Hl. apply Hincl; [|done]. by eapply reach_step. }
  destruct o as [z|s| |items|s|c items]; try done.
  - apply fmap_Some in Hv as (vs & Hvs & ->).
    apply fmap_Some. exists vs. split; [|done].
    eapply (mapM_Forall2 eq); [by apply Forall_Forall2_diag, Forall_true| |done].
    intros c ? w Hin <- Hw. by apply Hch.
  - destruct (decide _); [|done].
    apply fmap_Some in Hv as (vs & Hvs & ->).
    apply fmap_Some. exists vs. split; [|done].
    eapply (mapM_Forall2 eq); [by apply Forall_Forall2_diag, Forall_true| |done].
    intros [k c'] ? [k' w] Hin <- Hx.
    apply fmap_Some in Hx as (w' & Hw & [= -> ->]).
    apply fmap_Some. exists w'. split; [|done]. apply Hch; [|done].
    simpl. apply list_elem_of_fmap. by exists (k, c').
Qed.








(** * Further properties of the code *)

(** ** What [add] returns is new *)

Lemma dreach_reach h x l : dreach h x l → reach h x l.
Proof.
  induction 1 as [|x key c l Hs _ IH]; [constructor|].
  apply slot_Some in Hs as (cls & items & Hx & Hk).
  eapply reach_step; [done| |done].
  simpl. apply list_elem_of_fmap. exists (key, c). split; [done|].
  by apply assoc_Some_elem.
Qed.

Lemma dclosed_keep lo hi h h' z :
  dclosed lo hi h z → agree lo hi h h' → keeps_atoms h h' →
  (hi ≤ length h')%nat → dclosed lo hi h' z.
Proof.
  intros Hz Hag Hk Hhi l Hr.
  assert (dreach h z l) as Hr0.
  { clear Hhi. induction Hr as [|z key c l Hs _ IH]; [constructor|].
    assert (slot h z key = Some c) as Hs0.
    { destruct (Hz z (dreach_refl _ _)) as [Hin|Hat].
      - unfold slot in *. by rewrite <- (Hag z Hin).
      - apply Hk in Hat as (o & Ho & Hat).
        unfold slot in Hs. rewrite Ho in Hs. by destruct o. }
    eapply dreach_step; [done|]. apply IH.
    intros l' Hl'. apply Hz. by eapply dreach_step. }
  eapply in_region_keep; [done..|]. by apply Hz.
Qed.

Lemma dclosed_le lo lo' hi hi' h z :
  (lo' ≤ lo)%nat → (hi ≤ hi')%nat → dclosed lo hi h z → dclosed lo' hi' h z.
Proof.
  intros Hlo Hhi Hz l Hl. destruct (Hz l Hl) as [?|?]; [left; lia|by right].
Qed.

(** An object that holds atomic values only, or no value. *)
Lemma dclosed_leaf lo hi h r o :
  h !! r = Some o → (lo ≤ r < hi)%nat →
  (∀ y, y ∈ dict_values o → atomic_at h y) →
  dclosed lo hi h r.
Proof.
  intros Ho Hr Hvals l Hl. destruct Hl as [|r key c l Hs Hl]; [by left|].
  right. apply slot_Some in Hs as (cls & items & Hr' & Hk).
  assert (o = ODict cls items) as -> by congruence.
  assert (atomic_at h c) as Hc.
  { apply Hvals. simpl. apply list_elem_of_fmap. exists (key, c).
    split; [done|]. by apply assoc_Some_elem. }
  by rewrite (dreach_atomic _ _ _ Hc Hl).
Qed.

Lemma isolated_dclosed lo h z :
  isolated lo h z → dclosed lo (length h) h z.
Proof.
  intros (lo' & hi & Hlo & Hhi & Hc & Hz) l Hl.
  apply dreach_reach in Hl.
  destruct (reach_in_region _ _ _ _ _ Hc Hz Hl) as [?|?]; [left; lia|by right].
Qed.

Lemma int_at_atomic h c z : int_at h c = Ok z → atomic_at h c.
Proof.
  unfold int_at. intros H. bind_inv H as o Ho. apply deref_Ok in Ho.
  destruct o; try done. by eexists.
Qed.

Lemma Counter_add_values h self other h' r :
  Counter_add h self other = Ok (h', r) →
  ∃ res, h' !! r = Some (ODict Counter res)
         ∧ (length h ≤ r < length h')%nat
         ∧ ∀ y, y ∈ res.*2 → atomic_at h' y.
Proof.
  unfold Counter_add. intros H.
  bind_inv H as [h1 res1] Hf1. bind_inv H as res2 Hf2. injection H as <- <-.
  assert ((length h ≤ length h1)%nat ∧ ∀ y, y ∈ res1.*2 → atomic_at h1 y)
    as [Hlen H1].
  { revert Hf1.
    apply (foldM_inv (fun s => (length h ≤ length s.1)%nat
                               ∧ ∀ y, y ∈ s.2.*2 → atomic_at s.1 y)).
    { split; [done|]. intros y Hy. by apply elem_of_nil in Hy. }
    intros [hc res] [elem c] [hc' res'] [Hlen HI] _ Hstep. simpl in *.
    bind_inv Hstep as x Hx. bind_inv Hstep as y Hy.
    destruct (0 <? _); [|by injection Hstep as <- <-].
    injection Hstep as <- <-. rewrite length_app. split; [lia|].
    intros c' [Hc'| ->]%assoc_set_values.
    - apply (keeps_atoms_frame hc); [by apply frame_app|by apply HI].
    - exists (OInt (x + y)). by rewrite lookup_app_r, Nat.sub_diag. }
  assert (∀ y, y ∈ res2.*2 → atomic_at h1 y) as H2.
  { revert Hf2.
    apply (foldM_inv (fun res => ∀ y, y ∈ res.*2 → atomic_at h1 y)); [done|].
    intros res [elem c] res' HI _ Hstep.
    destruct (assoc elem self); [by injection Hstep as <-|].
    bind_inv Hstep as y Hy. destruct (0 <? _); [|by injection Hstep as <-].
    injection Hstep as <-.
    intros c' [Hc'| ->]%assoc_set_values; [by apply HI|].
    by eapply int_at_atomic. }
  exists res2. split_and!.
  - by rewrite lookup_app_r, Nat.sub_diag.
  - lia.
  - rewrite length_app. simpl. lia.
  - intros y Hy. apply (keeps_atoms_frame h1); [by apply frame_app|by apply H2].
Qed.

Lemma operator_add_dclosed h a b h' r :
  operator_add h a b = Ok (h', r) →
  dclosed (length h) (length h') h' r.
Proof.
  intros H. unfold operator_add in H.
  bind_inv H as oa Ha. bind_inv H as ob Hb.
  assert (∀ o, dict_values o = [] →
               dclosed (length h) (length (h ++ [o])) (h ++ [o]) (length h))
    as Hleaf.
  { intros o Ho. eapply dclosed_leaf.
    - by rewrite lookup_app_r, Nat.sub_diag.
    - rewrite length_app. simpl. lia.
    - rewrite Ho. intros y Hy. by apply elem_of_nil in Hy. }
  destruct oa as [x|x| |xs|x|[] xs], ob as [y|y| |ys|y|[] ys]; try done;
    try (injection H as <- <-; by apply Hleaf).
  destruct (Counter_add_values _ _ _ _ _ H) as (res & Hr & Hlt & Hvals).
  by eapply dclosed_leaf.
Qed.

Lemma operator_or_dclosed h a b h' r :
  operator_or h a b = Ok (h', r) →
  dclosed (length h) (length h') h' r.
Proof.
  intros H. unfold operator_or in H.
  bind_inv H as oa Ha. bind_inv H as ob Hb.
  destruct oa, ob; try done. injection H as <- <-.
  eapply dclosed_leaf.
  - by rewrite lookup_app_r, Nat.sub_diag.
  - rewrite length_app. simpl. lia.
  - intros y Hy. by apply elem_of_nil in Hy.
Qed.

(** [d[j] = v] on the new mapping, where what [v] reaches through
    mapping values is new or atomic. *)
Lemma setitem_dclosed out hc h5 j v hc' :
  (out < length hc)%nat →
  (∀ key z, slot hc out key = Some z →
            ∃ hi, (hi ≤ length hc)%nat ∧ dclosed (S out) hi hc z) →
  frame (length hc) hc h5 →
  dclosed (length hc) (length h5) h5 v →
  setitem h5 out j v = Ok hc' →
  (out < length hc')%nat
  ∧ ∀ key z, slot hc' out key = Some z →
             ∃ hi, (hi ≤ length hc')%nat ∧ dclosed (S out) hi hc' z.
Proof.
  intros Hout HJ Hfr Hv Hset.
  unfold setitem in Hset. bind_inv Hset as o Ho. apply deref_Ok in Ho.
  destruct o as [| | | | |c items5]; try done. injection Hset as <-.
  pose proof (frame_length _ _ _ Hfr) as Hlen.
  set (hc' := store h5 out (ODict c (assoc_set j v items5))).
  assert (length hc' = length h5) as Hlen'
    by (unfold hc', store; by rewrite length_insert).
  assert (keeps_atoms h5 hc') as Hk5 by by eapply keeps_atoms_store.
  assert (keeps_atoms hc h5) as Hk by by apply keeps_atoms_frame.
  assert (∀ l, l ≠ out → hc' !! l = h5 !! l) as Hne.
  { intros l Hl. unfold hc', store. by rewrite list_lookup_insert_ne. }
  assert (hc' !! out = Some (ODict c (assoc_set j v items5))) as Hout'.
  { unfold hc', store. apply list_lookup_insert_eq. by eapply lookup_lt_Some. }
  split; [lia|]. intros key z Hz.
  unfold slot in Hz. rewrite Hout' in Hz.
  destruct (decide (key = j)) as [->|Hkey].
  - rewrite assoc_set_eq in Hz. injection Hz as <-.
    exists (length h5). split; [lia|].
    eapply dclosed_keep; [| |done|lia].
    + eapply dclosed_le; [| |done]; lia.
    + intros l Hl. apply Hne. lia.
  - rewrite assoc_set_ne in Hz by done.
    destruct (HJ key z) as (hi & Hhi & Hcl).
    { rewrite <- (slot_frame _ _ _ _ key Hfr) by lia.
      unfold slot. by rewrite Ho. }
    exists hi. split; [lia|].
    eapply (dclosed_keep _ _ h5); [| |done|lia].
    + eapply dclosed_keep; [done| |done|lia].
      intros l Hl. apply Hfr. lia.
    + intros l Hl. apply Hne. lia.
Qed.

Lemma add_dclosed n : ∀ h a b h' r,
  add n h a b = Ok (h', r) → dclosed (length h) (length h') h' r.
Proof.
  induction n as [|n IH]; intros h a b h' r H; [done|].
  destruct (h !! a) as [oa|] eqn:Ha;
    [|by unfold add, deref in H; rewrite Ha in H].
  destruct (h !! b) as [ob|] eqn:Hb;
    [|by unfold add, deref in H; rewrite Ha, Hb in H].
  rewrite (add_S _ _ _ _ _ _ Ha Hb) in H.
  destruct (is_Addable oa && is_Addable ob) eqn:Hadd;
    [by apply operator_add_dclosed in H|].
  destruct (is_MutableSet oa && is_MutableSet ob) eqn:Hset;
    [by apply operator_or_dclosed in H|].
  destruct (is_MutableMapping oa && is_MutableMapping ob) eqn:Hmap; [|done].
  bind_inv H as [h1 out] Hcp. bind_inv H as h2 Hcl.
  bind_inv H as h3 Hl1. bind_inv H as h4 Hl2. injection H as <- <-.
  assert (frame (length h) h h1 ∧ out = length h) as [Hfr1 ->].
  { destruct (isinstance _ _); [by eapply copy_copy_frame|].
    destruct (isinstance _ _); [by eapply copy_copy_frame|done]. }
  set (J := fun hc : heap =>
    (length h < length hc)%nat
    ∧ ∀ key z, slot hc (length h) key = Some z →
               ∃ hi, (hi ≤ length hc)%nat ∧ dclosed (S (length h)) hi hc z).
  assert (J h2) as H2.
  { unfold clear in Hcl. bind_inv Hcl as o Ho. apply deref_Ok in Ho.
    destruct o; try done. injection Hcl as <-. split.
    - unfold store. rewrite length_insert. by eapply lookup_lt_Some.
    - intros key' z' Hz'. unfold slot, store in Hz'.
      rewrite list_lookup_insert_eq in Hz' by by eapply lookup_lt_Some.
      done. }
  assert (∀ hc x h5 v, deepcopy n hc x = Ok (h5, v) →
            frame (length hc) hc h5 ∧ dclosed (length hc) (length h5) h5 v)
    as Hcopy.
  { intros hc x h5 v Hrec.
    apply deepcopy_region in Hrec as (Hfr & Hc & Hin). split; [done|].
    apply isolated_dclosed. exists (length hc), (length h5).
    split_and!; [done..]. }
  assert (J h3) as H3.
  { unfold for_keys in Hl1. bind_inv Hl1 as o Ho. revert Hl1.
    apply (iterate_inv' J); [done|].
    intros k hc hc' Hk [Hlen HJ] Hbody _.
    destruct (bool_decide _).
    - bind_inv Hbody as va Hva. bind_inv Hbody as vb Hvb.
      bind_inv Hbody as [h5 v] Hrec.
      pose proof (add_frame _ _ _ _ _ _ Hrec) as Hfr. apply IH in Hrec.
      by eapply setitem_dclosed.
    - bind_inv Hbody as va Hva. bind_inv Hbody as [h5 v] Hrec.
      apply Hcopy in Hrec as [Hfr Hv]. by eapply setitem_dclosed. }
  assert (J h4) as [Hlen4 H4].
  { unfold for_keys in Hl2. bind_inv Hl2 as o Ho. revert Hl2.
    apply (iterate_inv' J); [done|].
    intros k hc hc' Hk [Hlen HJ] Hbody _.
    destruct (bool_decide _); [|by inv_res].
    bind_inv Hbody as vb Hvb. bind_inv Hbody as [h5 v] Hrec.
    apply Hcopy in Hrec as [Hfr Hv]. by eapply setitem_dclosed. }
  intros l Hl. destruct Hl as [|out key c l Hs Hl]; [left; lia|].
  destruct (H4 key c Hs) as (hi & Hhi & Hc).
  destruct (Hc l Hl) as [?|?]; [left; lia|by right].
Qed.

Lemma add_result_range n h a b h' r :
  add n h a b = Ok (h', r) → (length h ≤ r < length h')%nat.
Proof.
  intros H. destruct n as [|n]; [done|].
  destruct (h !! a) as [oa|] eqn:Ha;
    [|by unfold add, deref in H; rewrite Ha in H].
  destruct (h !! b) as [ob|] eqn:Hb;
    [|by unfold add, deref in H; rewrite Ha, Hb in H].
  pose proof H as H'. rewrite (add_S _ _ _ _ _ _ Ha Hb) in H'.
  destruct (is_Addable oa && is_Addable ob) eqn:Hadd;
    [by apply operator_add_frame in H' as [_ ?]|].
  destruct (is_MutableSet oa && is_MutableSet ob) eqn:Hset;
    [by apply operator_or_frame in H' as [_ ?]|].
  destruct (is_MutableMapping oa && is_MutableMapping ob) eqn:Hmap; [|done].
  destruct oa as [| | | | |ca ia]; try done.
  destruct ob as [| | | | |cb ib]; try done.
  destruct (add_mappings_shell _ _ _ _ _ _ _ _ _ _ Ha Hb Hadd H)
    as (-> & c & items & Hr & _).
  split; [done|]. by eapply lookup_lt_Some.
Qed.

(** X1.  Whenever [add(a, b)] returns, every object that is reached from
    the result through mapping values -- the result itself to begin
    with -- is either an object that did not exist before the call or an
    immutable one: the nested mappings of the result are all its own.  In
    particular a result that is a list, a set or a mapping is a new
    object, and neither operand.  (Of an [int] or a [str] that is
    returned nothing is said but that it is immutable: whether [+] makes
    a new object for it is up to the interpreter.) *)
Theorem add_returns_new n h a b h' r :
  add n h a b = Ok (h', r) →
  (∀ l, dreach h' r l → (length h ≤ l < length h')%nat ∨ atomic_at h' l)
  ∧ (¬ atomic_at h' r → (length h ≤ r < length h')%nat ∧ r ≠ a ∧ r ≠ b).
Proof.
  intros H.
  assert (∀ l, dreach h' r l →
            (length h ≤ l < length h')%nat ∨ atomic_at h' l) as Hown.
  { intros l Hl. by apply (add_dclosed _ _ _ _ _ _ H). }
  split; [done|]. intros Hr.
  destruct (Hown r) as [Hnew|?]; [constructor| |done].
  assert (∀ x, is_Some (h !! x) → r ≠ x) as Hne.
  { intros x Hx%lookup_lt_is_Some. lia. }
  split; [done|]. split.
  - apply Hne. destruct n; [done|].
    unfold add, deref in H. by destruct (h !! a).
  - apply Hne. destruct n; [done|].
    unfold add, deref in H. destruct (h !! a); [|done]. cbn [bind] in H.
    by destruct (h !! b).
Qed.

Lemma add_returns_new_witness :
  ∃ h' r,
    add 3 heap_nested 2 6 = Ok (h', r) ∧ r = 7%nat
    ∧ (∀ l, dreach h' r l → (7 ≤ l < length h')%nat ∨ atomic_at h' l)
    ∧ (¬ atomic_at h' r → (7 ≤ r < length h')%nat ∧ r ≠ 2%nat ∧ r ≠ 6%nat).
Proof.
  eexists _, _. split; [reflexivity|]. split; [reflexivity|].
  apply (add_returns_new 3 heap_nested 2 6 _ _ eq_refl).
Defined.

(** ** What [accumulate] changes *)

(** One [iadd] into an accumulator: what it changes lies within what the
    accumulator owned, and it owns what it returns. *)
Lemma iadd_owned (D : loc → Prop) fuel h0 hc r x h5 r' :
  (length h0 ≤ length hc)%nat →
  changes_within D h0 hc → owned D h0 hc r →
  iadd fuel hc r x = Ok (h5, r') →
  (length h0 ≤ length h5)%nat ∧ changes_within D h0 h5 ∧ owned D h0 h5 r'.
Proof.
  intros Hlen Hch Hown H.
  pose proof (iadd_evo _ _ _ _ _ _ H) as [Hevo [Hr _]].
  pose proof (evo_length _ _ Hevo) as Hlen5.
  split; [lia|]. split.
  - intros l o Ho Hl. pose proof (Hch l o Ho Hl) as Hc.
    destruct (atomic o) eqn:Hat; [by eapply evo_atomic|].
    destruct Hl as [HD|?]; [|done].
    rewrite <- Hc. eapply iadd_footprint; [done|by eapply lookup_lt_Some|].
    assert (dreach hc r l → False) as Hnr.
    { intros Hd. destruct (Hown l Hd) as [?|[?|(o' & Ho' & Hat')]]; [done| |].
      - apply lookup_lt_Some in Ho. lia.
      - congruence. }
    intros [->|(k & y & Hs & _ & Hd)]; [apply Hnr; constructor|].
    apply Hnr. by eapply dreach_step.
  - intros l Hd.
    destruct (dreach_back _ _ _ _ Hevo Hd) as [Hd0|[?|?]];
      [|right; left; lia|right; by right].
    destruct Hr as [->|[Hnew Hat]].
    + destruct (Hown l Hd0) as [?|[?|?]]; [by left|right; by left|].
      right. right. by apply (evo_keeps_atoms _ _ Hevo).
    + right. left. rewrite (dreach_dangling _ _ _ Hnew Hd0). lia.
Qed.

Lemma iadd_loop_owned (D : loc → Prop) fuel h0 gen : ∀ hc r h' r',
  (length h0 ≤ length hc)%nat →
  changes_within D h0 hc → owned D h0 hc r →
  iadd_loop fuel hc r gen = Ok (h', r') →
  (length h0 ≤ length h')%nat ∧ changes_within D h0 h' ∧ owned D h0 h' r'.
Proof.
  induction gen as [|x gen IH]; intros hc r h' r' Hlen Hch Hown H.
  - by injection H as <- <-.
  - cbn [iadd_loop] in H. bind_inv H as [h5 r5] Hstep.
    destruct (iadd_owned _ _ _ _ _ _ _ _ Hlen Hch Hown Hstep)
      as (Hlen5 & Hch5 & Hown5).
    by eapply IH.
Qed.

(** A mutable accumulator is what the loop returns. *)
Lemma iadd_loop_same fuel gen : ∀ hc acc o h' r,
  hc !! acc = Some o → atomic o = false →
  iadd_loop fuel hc acc gen = Ok (h', r) →
  r = acc ∧ ∃ o', h' !! acc = Some o' ∧ type_of o' = type_of o.
Proof.
  induction gen as [|x gen IH]; intros hc acc o h' r Ho Hat H.
  - injection H as <- <-. split; [done|]. by exists o.
  - cbn [iadd_loop] in H. bind_inv H as [h5 r5] Hstep.
    pose proof (iadd_not_atomic _ _ _ _ _ _ _ Ho Hat Hstep) as ->.
    pose proof (iadd_evo _ _ _ _ _ _ Hstep) as [(_ & T1 & _) _].
    destruct (T1 acc o Ho) as (o5 & Ho5 & Ht5 & _).
    assert (atomic o5 = false) as Hat5 by by destruct o, o5.
    destruct (IH _ _ _ _ _ Ho5 Hat5 H) as (-> & o' & Ho' & Ht').
    split; [done|]. exists o'. split; [done|]. congruence.
Qed.

(** X2.  With no initial accumulator, [accumulate] leaves every object
    that existed before the call as it was, whatever the items are and
    however they share objects: the first two items are combined into a
    new object, all of whose nested mappings are new, and the in-place
    merges that follow change these only.  So every item has afterwards
    the value that it had. *)
Theorem accumulate_keeps_items fuel h items h' r :
  accumulate fuel h items None = Ok (h', r) →
  (length h ≤ length h')%nat
  ∧ (∀ l o, h !! l = Some o → h' !! l = Some o)
  ∧ (∀ n l v, view n h l = Some v → view n h' l = Some v).
Proof.
  intros H.
  assert ((length h ≤ length h')%nat
          ∧ ∀ l o, h !! l = Some o → h' !! l = Some o) as [Hlen Hkeep].
  { unfold accumulate in H.
    destruct (omap id items) as [|x [|y gen]].
    - by injection H as <- <-.
    - by injection H as <- <-.
    - bind_inv H as [h1 acc] Hadd. bind_inv H as [h2 acc2] Hloop.
      injection H as <- <-.
      pose proof (add_frame _ _ _ _ _ _ Hadd) as Hfr.
      destruct (iadd_loop_owned (fun _ => False) fuel h gen h1 acc h2 acc2)
        as (Hlen & Hch & _); [by eapply frame_length| | |done|].
      + intros l o Ho _. by eapply frame_all_lookup.
      + intros l Hd. destruct (add_dclosed _ _ _ _ _ _ Hadd l Hd) as [?|?];
          [right; left; lia|right; by right].
      + split; [done|]. intros l o Ho. apply (Hch l o Ho). left. tauto. }
  split; [done|]. split; [done|].
  intros n l v. by apply view_frame.
Qed.

Lemma accumulate_keeps_items_witness :
  ∃ h' r,
    accumulate 3 heap_nested [Some 2%nat; None; Some 6%nat; Some 2%nat] None
    = Ok (h', Some r)
    ∧ view 3 h' r
      = Some (VDict Dict [("a"%string,
                VDict Dict [("x"%string, VInt 4); ("y"%string, VInt 5)])])
    ∧ (∀ l o, heap_nested !! l = Some o → h' !! l = Some o).
Proof.
  eexists _, _. split; [reflexivity|]. split; [reflexivity|].
  apply (accumulate_keeps_items 3 heap_nested
           [Some 2%nat; None; Some 6%nat; Some 2%nat] _ _ eq_refl).
Defined.

(** X3.  With an initial accumulator, [accumulate] returns that very
    object when it is mutable (a list, a set or a mapping); it changes no
    atomic object and no object that the accumulator does not reach
    through mapping values, so an item keeps its value when the mutable
    objects that it reaches are none of these. *)
Theorem accumulate_into fuel h items acc oa h' r :
  h !! acc = Some oa →
  accumulate fuel h items (Some acc) = Ok (h', r) →
  (atomic oa = false →
   r = Some acc ∧ ∃ o', h' !! acc = Some o' ∧ type_of o' = type_of oa)
  ∧ changes_within (dreach h acc) h h'
  ∧ (∀ x, (∀ l, reach h x l → dreach h acc l → atomic_at h l) →
          ∀ n v, view n h x = Some v → view n h' x = Some v).
Proof.
  intros Ha H. unfold accumulate in H.
  bind_inv H as [h2 r2] Hloop. injection H as <- <-.
  assert (changes_within (dreach h acc) h h2) as Hch.
  { destruct (iadd_loop_owned (dreach h acc) fuel h (omap id items)
                h acc h2 r2) as (_ & Hch & _); [done| | |done..].
    - by intros l o Ho _.
    - intros l Hd. by left. }
  split_and!.
  - intros Hat.
    destruct (iadd_loop_same _ _ _ _ _ _ _ Ha Hat Hloop) as (-> & Ho').
    by split.
  - done.
  - intros x Hsep n v Hv. eapply view_reach; [|done].
    intros l o Hr Ho. apply (Hch l o Ho).
    destruct (atomic o) eqn:Hat; [by right|left].
    intros Hd. destruct (Hsep l Hr Hd) as (o' & Ho' & Hat'). congruence.
Qed.

Lemma accumulate_into_witness :
  ∃ h',
    accumulate 3 heap_nested [Some 6%nat; None] (Some 2%nat) = Ok (h', Some 2%nat)
    ∧ view 3 h' 2
      = Some (VDict Dict [("a"%string,
                VDict Dict [("x"%string, VInt 3); ("y"%string, VInt 5)])])
    ∧ changes_within (dreach heap_nested 2) heap_nested h'.
Proof.
  eexists. split; [reflexivity|]. split; [reflexivity|].
  apply (accumulate_into 3 heap_nested [Some 6%nat; None] 2 _ _ _
           eq_refl eq_refl).
Defined.

(** ** Accumulating in chunks *)

Lemma iadd_loop_app fuel (gen1 gen2 : list loc) : ∀ h acc,
  iadd_loop fuel h acc (gen1 ++ gen2)
  = let* (h1, r1) := iadd_loop fuel h acc gen1 in
    iadd_loop fuel h1 r1 gen2.
Proof.
  induction gen1 as [|x gen1 IH]; intros h acc; [done|].
  cbn [app iadd_loop]. destruct (iadd fuel h acc x) as [[h1 r1]|e]; [|done].
  cbn [bind]. apply IH.
Qed.

(** X4.  Accumulating a sequence in two chunks, the second into the result
    of the first, is accumulating the whole sequence -- result and heap --
    when an initial accumulator is given, or the first chunk has not
    exactly one item that is present.  (A first chunk of one item returns
    that item itself, which the second chunk would then change in place,
    where the whole sequence combines it into a new object.) *)
Theorem accumulate_chunks fuel h (items1 items2 : list (option loc)) accum :
  is_Some accum ∨ length (omap id items1) ≠ 1%nat →
  accumulate fuel h (items1 ++ items2) accum
  = let* (h1, r1) := accumulate fuel h items1 accum in
    accumulate fuel h1 items2 r1.
Proof.
  intros Hcond. unfold accumulate. rewrite omap_app.
  destruct accum as [acc|].
  - rewrite iadd_loop_app.
    destruct (iadd_loop fuel h acc (omap id items1)) as [[h1 r1]|e]; [|done].
    done.
  - destruct Hcond as [[? [=]]|Hlen].
    destruct (omap id items1) as [|x [|y gen]]; [done|done|].
    cbn [app]. destruct (add fuel h x y) as [[h1 acc]|e]; [|done].
    cbn [bind]. rewrite iadd_loop_app.
    destruct (iadd_loop fuel h1 acc gen) as [[h2 r2]|e]; [|done].
    done.
Qed.

Lemma accumulate_chunks_witness :
  accumulate 3 heap_nested ([Some 2%nat; Some 6%nat] ++ [Some 2%nat]) None
  = let* (h1, r1) := accumulate 3 heap_nested [Some 2%nat; Some 6%nat] None in
    accumulate 3 h1 [Some 2%nat] r1.
Proof.
  apply (accumulate_chunks 3 heap_nested [Some 2%nat; Some 6%nat]).
  right. simpl. lia.
Defined.

(** The condition is needed: with a first chunk of one item, the second
    chunk changes that item, and the whole sequence does not. *)
Example accumulate_chunks_one_item :
  (∃ h', accumulate 3 heap_nested [Some 2%nat; Some 6%nat] None
         = Ok (h', Some 7%nat)
         ∧ h' !! 2%nat = heap_nested !! 2%nat
         ∧ h' !! 1%nat = heap_nested !! 1%nat)
  ∧ (∃ h1 h', accumulate 3 heap_nested [Some 2%nat] None = Ok (h1, Some 2%nat)
         ∧ accumulate 3 h1 [Some 6%nat] (Some 2%nat) = Ok (h', Some 2%nat)
         ∧ h' !! 1%nat ≠ heap_nested !! 1%nat).
Proof.
  split.
  - eexists. split_and!; reflexivity.
  - eexists _, _. split_and!; [reflexivity..|]. by intros [=].
Qed.

(** ** What [iadd] keeps, whatever is shared *)



(** A [Counter] does lose keys: [+=] drops the counts that are not
    positive. *)
Example iadd_Counter_drops_key :
  ∃ h', iadd 1 heap_counters 2 4 = Ok (h', 2%nat)
    ∧ view 2 heap_counters 2
      = Some (VDict Counter [("x"%string, VInt 1); ("y"%string, VInt (-1))])
    ∧ view 2 h' 2 = Some (VDict Counter [("x"%string, VInt 3)]).
Proof. eexists. split_and!; reflexivity. Qed.

(** ** The outcomes of [add] *)

(** X6.  On operands with finite values, [add] ends within the depth of
    the values, and in one of three ways: it returns, it raises the
    module's [ValueError], or an operand's own [+] raises.  It never fails
    on a key, and never finds that a mapping has changed size while it
    goes through it. *)
Theorem add_outcomes n h a b va vb :
  view n h a = Some va → view n h b = Some vb →
  is_Ok (add n h a b)
  ∨ (∃ m ta tb, add n h a b = Err (ValueError m ta tb))
  ∨ add n h a b = Err OperandError.
Proof.
  intros Ha Hb. pose proof (add_value n h a b va vb Ha Hb) as Hv.
  destruct (add_val va vb) as [v|e] eqn:Hval.
  - left. destruct Hv as (h' & r & -> & _). by eexists.
  - right. rewrite Hv.
    destruct (add_val_errors _ _ _ _ _ _ _ Ha Hb Hval) as [->|(m & ta & tb & ->)].
    + by right.
    + left. by eexists _, _, _.
Qed.

Lemma add_outcomes_witness :
  is_Ok (add 3 heap_nested 2 6)
  ∨ (∃ m ta tb, add 3 heap_nested 2 6 = Err (ValueError m ta tb))
  ∨ add 3 heap_nested 2 6 = Err OperandError.
Proof.
  apply (add_outcomes 3 heap_nested 2 6 _ _ eq_refl eq_refl).
Defined.

(** ** Merging with an empty mapping *)









(** ** Accumulating lists *)

Lemma iadd_loop_lists fuel (rest : list loc) : ∀ (ess : list (list loc)) h es,
  Forall2 (fun l es => h !! l = Some (OList es)) rest ess →
  iadd_loop (S fuel) (h ++ [OList es]) (length h) rest
  = Ok (h ++ [OList (es ++ concat ess)], length h).
Proof.
  induction rest as [|x rest IH]; intros ess h es Hrest;
    inversion Hrest as [|? ex ? ess' Hx Hrest']; subst.
  - simpl. by rewrite app_nil_r.
  - cbn [iadd_loop].
    assert ((h ++ [OList es]) !! length h = Some (OList es)) as Hacc
      by by rewrite lookup_app_r, Nat.sub_diag.
    assert ((h ++ [OList es]) !! x = Some (OList ex)) as Hx'
      by by apply lookup_app_l_Some.
    rewrite (iadd_addable _ _ _ _ _ _ Hacc Hx' eq_refl).
    unfold operator_iadd.
    rewrite (deref_lookup _ _ _ Hacc), (deref_lookup _ _ _ Hx').
    cbn [bind]. rewrite store_app_last.
    rewrite (IH ess'); [|done]. simpl. by rewrite <- app_assoc.
Qed.

(** X8.  For two lists or more, [accumulate] allocates one new list,
    which ends as the concatenation of the items in their order, holding
    the very elements of the items (they are not copied); nothing else is
    allocated and no item is changed. *)
Theorem accumulate_lists fuel h x1 x2 (rest : list loc) es1 es2 ess :
  h !! x1 = Some (OList es1) → h !! x2 = Some (OList es2) →
  Forall2 (fun l es => h !! l = Some (OList es)) rest ess →
  accumulate (S fuel) h (Some <$> x1 :: x2 :: rest) None
  = Ok (h ++ [OList (es1 ++ es2 ++ concat ess)], Some (length h)).
Proof.
  intros H1 H2 Hrest. unfold accumulate. rewrite omap_id_Some.
  rewrite (add_addable _ _ _ _ _ _ H1 H2 eq_refl). unfold operator_add.
  rewrite (deref_lookup _ _ _ H1), (deref_lookup _ _ _ H2).
  cbn [bind alloc]. rewrite (iadd_loop_lists _ _ ess); [|done].
  cbn [bind]. by rewrite <- app_assoc.
Qed.

Lemma accumulate_lists_witness :
  accumulate 1 heap_list_payload [Some 2%nat; Some 2%nat; Some 2%nat] None
  = Ok (heap_list_payload ++ [OList [0; 1; 0; 1; 0; 1]%nat], Some 5%nat).
Proof.
  apply (accumulate_lists 0 heap_list_payload 2 2 [2%nat] _ _ [[0; 1]%nat]
           eq_refl eq_refl).
  by repeat constructor.
Defined.

(** ** Mappings of integers: [iadd] adds key by key *)

(** A loop returns when every round does and keeps the size. *)
Lemma iterate_ok (I : list string → heap → Prop) d n body ks h :
  I [] h →
  (∀ pre k suf hc, ks = pre ++ k :: suf → I pre hc →
     ∃ hc', body hc k = Ok hc' ∧ dict_size hc' d = Some n
            ∧ I (pre ++ [k]) hc') →
  ∃ h', iterate d n body ks h = Ok h' ∧ I ks h'.
Proof.
  intros Hs Hstep.
  assert (∀ suf pre h0, ks = pre ++ suf → I pre h0 →
            ∃ h', iterate d n body suf h0 = Ok h' ∧ I ks h') as Hgen.
  { induction suf as [|k suf IH]; intros pre h0 Hks Hpre.
    - exists h0. split; [done|]. by rewrite Hks, app_nil_r.
    - destruct (Hstep pre k suf h0 Hks Hpre) as (hc' & Hb & Hsz & HI).
      cbn [iterate]. rewrite Hb. cbn [bind]. rewrite decide_True by done.
      apply (IH (pre ++ [k])); [by rewrite <- app_assoc|done]. }
  by apply (Hgen ks []).
Qed.

Lemma deepcopy_int fuel h x z :
  h !! x = Some (OInt z) → deepcopy (S fuel) h x = Ok (h, x).
Proof.
  intros Hx. unfold deepcopy. cbn [deepcopy_memo memo_get].
  by rewrite (deref_lookup _ _ _ Hx).
Qed.

Lemma iadd_ints fuel h x y zx zy :
  h !! x = Some (OInt zx) → h !! y = Some (OInt zy) →
  iadd (S fuel) h x y = Ok (h ++ [OInt (zx + zy)], length h).
Proof.
  intros Hx Hy. rewrite (iadd_addable _ _ _ _ _ _ Hx Hy eq_refl).
  unfold operator_iadd, operator_add.
  by rewrite !(deref_lookup _ _ _ Hx), !(deref_lookup _ _ _ Hy).
Qed.

Section int_mappings.
Context (fuel : nat) (h : heap) (a b : loc) (ca cb : dict_class).
Context (ia ib : list (string * loc)).
Hypothesis Ha : h !! a = Some (ODict ca ia).
Hypothesis Hb : h !! b = Some (ODict cb ib).
Hypothesis Hnda : NoDup ia.*1.
Hypothesis Hndb : NoDup ib.*1.
Hypothesis Hinta : ∀ k x, assoc k ia = Some x → ∃ z, h !! x = Some (OInt z).
Hypothesis Hintb : ∀ k x, assoc k ib = Some x → ∃ z, h !! x = Some (OInt z).

Lemma int_not_a x z : h !! x = Some (OInt z) → x ≠ a.
Proof. intros Hx ->. congruence. Qed.

Lemma int_mappings_loop1 :
  ∃ h1,
    for_keys a h (fun h key =>
      if bool_decide (key ∈ ib.*1) then
        let* va := getitem h a key in
        let* vb := getitem h b key in
        let* (h, v) := iadd (S fuel) h va vb in
        setitem h a key v
      else Ok h) = Ok h1
    ∧ shared_done h a ca ia ib ia.*1 h1.
Proof.
  unfold for_keys. rewrite (deref_lookup _ _ _ Ha). cbn [bind keys_of].
  apply (iterate_ok (shared_done h a ca ia ib)).
  { split; [done|]. split; [done|]. exists ia. split; [done|]. split; [done|].
    intros k x Hk. split; [by intros ?%elem_of_nil|done]. }
  intros pre k suf hc Hks (Hlen & Hfr & items & Hac & Hkeys & Hit).
  assert (k ∉ pre) as Hkpre.
  { rewrite Hks in Hnda. apply NoDup_app in Hnda as (_ & Hd & _).
    intros Hin. apply (Hd k Hin). left. }
  assert (is_Some (assoc k ia)) as [x Hx].
  { apply assoc_is_Some. rewrite Hks. apply elem_of_app. right. left. }
  assert (assoc k items = Some x) as Hkx by by apply (Hit k x Hx).
  assert (dict_size hc a = Some (length ia.*1)) as Hsz.
  { unfold dict_size. rewrite Hac. by rewrite <- Hkeys, length_fmap. }
  destruct (bool_decide_reflect (k ∈ ib.*1)) as [Hkb|Hkb].
  - apply assoc_is_Some in Hkb as [y Hy].
    destruct (Hinta k x Hx) as [zx Hzx]. destruct (Hintb k y Hy) as [zy Hzy].
    pose proof (int_not_a _ _ Hzx) as Hxa.
    pose proof (int_not_a _ _ Hzy) as Hya.
    assert (getitem hc a k = Ok x) as ->.
    { apply getitem_slot. unfold slot. by rewrite Hac. }
    assert (getitem hc b k = Ok y) as ->.
    { apply getitem_slot. unfold slot.
      destruct (decide (b = a)) as [->|Hne].
      - rewrite Hac. assert (ib = ia) as Heq by congruence.
        rewrite Heq in Hy. congruence.
      - rewrite Hfr by (done || by eapply lookup_lt_Some). by rewrite Hb. }
    cbn [bind].
    assert (hc !! x = Some (OInt zx)) as Hcx.
    { rewrite Hfr; [done|by eapply lookup_lt_Some|done]. }
    assert (hc !! y = Some (OInt zy)) as Hcy.
    { rewrite Hfr; [done|by eapply lookup_lt_Some|done]. }
    rewrite (iadd_ints _ _ _ _ _ _ Hcx Hcy). cbn [bind].
    assert (a < length hc)%nat as Halt by by eapply lookup_lt_Some.
    unfold setitem.
    rewrite (deref_lookup _ _ (ODict ca items)) by by apply lookup_app_l_Some.
    cbn [bind]. eexists. split; [done|].
    set (hc' := store (hc ++ [OInt (zx + zy)]) a
                  (ODict ca (assoc_set k (length hc) items))).
    assert (hc' !! a = Some (ODict ca (assoc_set k (length hc) items))) as Hac'.
    { unfold hc', store. apply list_lookup_insert_eq.
      rewrite length_app. simpl. lia. }
    assert (∀ l, l ≠ a → (l < length hc)%nat → hc' !! l = hc !! l) as Hold.
    { intros l Hl Hlt. unfold hc', store.
      rewrite list_lookup_insert_ne by done. by rewrite lookup_app_l. }
    assert (k ∈ items.*1) as Hkin.
    { apply assoc_is_Some. by eexists. }
    split.
    { unfold dict_size. rewrite Hac'.
      rewrite <- (length_fmap fst), assoc_set_keys_in by done.
      by rewrite Hkeys. }
    split_and!.
    + unfold hc', store. rewrite length_insert, length_app. lia.
    + intros l Hl Hne. rewrite Hold by (done || lia). by apply Hfr.
    + eexists. split; [done|]. split; [by rewrite assoc_set_keys_in|].
      intros k' x' Hx'. destruct (decide (k' = k)) as [->|Hne].
      * assert (x' = x) as -> by congruence. split.
        -- intros _ y' Hy'. assert (y' = y) as -> by congruence.
           exists (length hc), zx, zy. rewrite assoc_set_eq.
           split_and!; [done| |done..].
           unfold hc', store. rewrite list_lookup_insert_ne by lia.
           by rewrite lookup_app_r, Nat.sub_diag.
        -- intros Hno. rewrite Hno in Hy; [done|].
           apply elem_of_app. right. by left.
      * rewrite assoc_set_ne by done.
        destruct (Hit k' x' Hx') as [Hdone Hnot]. split.
        -- intros Hin y' Hy'.
           apply elem_of_app in Hin as [Hin|Hin];
             [|by apply list_elem_of_singleton in Hin].
           destruct (Hdone Hin y' Hy') as (z & zx' & zy' & Hz & Hcz & ? & ?).
           exists z, zx', zy'. split_and!; [done| |done..].
           rewrite Hold; [done| |by eapply lookup_lt_Some].
           intros ->. congruence.
        -- intros Hno. apply Hnot. intros Hin. apply Hno.
           apply elem_of_app. by left.
  - eexists. split; [done|]. split; [done|].
    split_and!; [done..|].
    exists items. split; [done|]. split; [done|].
    intros k' x' Hx'. destruct (Hit k' x' Hx') as [Hdone Hnot]. split.
    + intros Hin y' Hy'.
      apply elem_of_app in Hin as [Hin|Hin]; [by apply Hdone|].
      apply list_elem_of_singleton in Hin as ->.
      exfalso. apply Hkb. apply assoc_is_Some. by eexists.
    + intros Hno. apply Hnot. intros Hin. apply Hno.
      apply elem_of_app. by left.
Qed.

Lemma filter_none {A} (P : A → Prop) `{∀ x, Decision (P x)} (l : list A) :
  (∀ x, x ∈ l → ¬ P x) → filter P l = [].
Proof.
  induction l as [|x l IH]; intros Hl; [done|].
  rewrite filter_cons_False by (apply Hl; left).
  apply IH. intros y Hy. apply Hl. by right.
Qed.

Lemma int_mappings_loop2 h1 items1 :
  (length h ≤ length h1)%nat →
  (∀ l, (l < length h)%nat → l ≠ a → h1 !! l = h !! l) →
  h1 !! a = Some (ODict ca items1) → items1.*1 = ia.*1 →
  ∃ h2,
    for_keys b h1 (fun h key =>
      if bool_decide (key ∉ ia.*1) then
        let* vb := getitem h b key in
        let* (h, v) := deepcopy (S fuel) h vb in
        setitem h a key v
      else Ok h) = Ok h2
    ∧ new_done h1 a ca items1 ib ib.*1 h2.
Proof.
  intros Hlen Hfr Ha1 Hkeys1.
  assert (b = a → ib = ia) as Hsame by (intros ->; congruence).
  assert (∃ c1 items_b, h1 !! b = Some (ODict c1 items_b)
                        ∧ items_b.*1 = ib.*1) as (c1 & items_b & Hb1 & Hk1).
  { destruct (decide (b = a)) as [->|Hne].
    - eexists _, _. split; [done|]. by rewrite Hkeys1, Hsame.
    - exists cb, ib. split; [|done].
      rewrite Hfr; [done|by eapply lookup_lt_Some|done]. }
  unfold for_keys. rewrite (deref_lookup _ _ _ Hb1). cbn [bind keys_of].
  rewrite Hk1.
  assert (∀ pre hc, new_done h1 a ca items1 ib pre hc → pre ⊆ ib.*1 →
                    dict_size hc b = Some (length ib.*1)) as Hsize.
  { intros pre hc (Hl & Hf & items & Hac & Hit & _) Hsub. unfold dict_size.
    destruct (decide (b = a)) as [->|Hne].
    - rewrite Hac, <- (length_fmap fst), Hit.
      rewrite filter_none, app_nil_r; [by rewrite Hkeys1, Hsame|].
      intros k Hk Hn. apply Hn. rewrite Hkeys1, <- Hsame by done. by apply Hsub.
    - rewrite Hf, Hb1 by done. by rewrite <- Hk1, length_fmap. }
  apply (iterate_ok (new_done h1 a ca items1 ib)).
  { split; [done|]. split; [done|]. exists items1.
    split_and!; [done|by rewrite app_nil_r|done|].
    by intros k ?%elem_of_nil. }
  intros pre k suf hc Hks Hinv.
  assert (k ∉ pre) as Hkpre.
  { rewrite Hks in Hndb. apply NoDup_app in Hndb as (_ & Hd & _).
    intros Hin. apply (Hd k Hin). left. }
  assert (pre ++ [k] ⊆ ib.*1) as Hsub.
  { rewrite Hks. intros k' Hk'. apply elem_of_app in Hk' as [?|Hk'].
    - apply elem_of_app. by left.
    - apply list_elem_of_singleton in Hk' as ->. apply elem_of_app. right. left. }
  pose proof Hinv as (Hl & Hf & items & Hac & Hit & Hold & Hnew).
  destruct (bool_decide_reflect (k ∉ ia.*1)) as [Hka|Hka].
  - assert (b ≠ a) as Hne.
    { intros Heq. apply Hka. rewrite <- (Hsame Heq), Hks.
      apply elem_of_app. right. left. }
    assert (is_Some (assoc k ib)) as [y Hy].
    { apply assoc_is_Some. rewrite Hks. apply elem_of_app. right. left. }
    destruct (Hintb k y Hy) as [zy Hzy].
    pose proof (int_not_a _ _ Hzy) as Hya.
    assert (hc !! b = Some (ODict cb ib)) as Hcb.
    { rewrite Hf, Hfr; [done|by eapply lookup_lt_Some|done..]. }
    assert (getitem hc b k = Ok y) as ->.
    { apply getitem_slot. unfold slot. by rewrite Hcb. }
    cbn [bind].
    assert (hc !! y = Some (OInt zy)) as Hcy.
    { rewrite Hf, Hfr; [done|by eapply lookup_lt_Some|done..]. }
    rewrite (deepcopy_int _ _ _ _ Hcy). cbn [bind].
    unfold setitem. rewrite (deref_lookup _ _ _ Hac). cbn [bind].
    eexists. split; [done|].
    set (hc' := store hc a (ODict ca (assoc_set k y items))).
    assert (hc' !! a = Some (ODict ca (assoc_set k y items))) as Hac'.
    { unfold hc', store. apply list_lookup_insert_eq. by eapply lookup_lt_Some. }
    assert (∀ l, l ≠ a → hc' !! l = hc !! l) as Hother.
    { intros l Hl'. unfold hc', store. by rewrite list_lookup_insert_ne. }
    assert (k ∉ items.*1) as Hkit.
    { rewrite Hit, Hkeys1. intros [?|Hin]%elem_of_app; [done|].
      by apply list_elem_of_filter in Hin as [_ ?]. }
    assert (new_done h1 a ca items1 ib (pre ++ [k]) hc') as Hinv'.
    { split_and!.
      - unfold hc', store. by rewrite length_insert.
      - intros l Hl'. rewrite Hother by done. by apply Hf.
      - eexists. split; [done|]. split_and!.
        + rewrite assoc_set_keys_notin, fmap_app, Hit by done.
          rewrite filter_app, filter_cons_True, filter_nil, app_assoc;
            [done|by rewrite Hkeys1].
        + intros k' Hk'. rewrite assoc_set_ne; [by apply Hold|].
          intros ->. apply Hka. by rewrite <- Hkeys1.
        + intros k' Hin Hk'.
          apply elem_of_app in Hin as [Hin|Hin].
          * rewrite assoc_set_ne by (intros ->; done). by apply Hnew.
          * apply list_elem_of_singleton in Hin as ->.
            by rewrite assoc_set_eq. }
    split; [|done].
    rewrite <- (Hsize _ _ Hinv' Hsub). done.
  - assert (new_done h1 a ca items1 ib (pre ++ [k]) hc) as Hinv'.
    { split; [done|]. split; [done|]. exists items. split_and!.
      - done.
      - rewrite filter_app, filter_cons_False, filter_nil, app_nil_r;
          [done|]. rewrite Hkeys1. by intros ?.
      - done.
      - intros k' Hin Hk'.
        apply elem_of_app in Hin as [Hin|Hin]; [by apply Hnew|].
        apply list_elem_of_singleton in Hin as ->.
        exfalso. apply Hka. by rewrite <- Hkeys1. }
    exists hc. split; [done|]. split; [|done].
    by apply (Hsize _ _ Hinv' Hsub).
Qed.

End int_mappings.

(** X9.  Let [a] and [b] be mappings whose values are integers, [a] not
    a [Counter] and [b] of a class that [a]'s allows; [b] may be [a]
    itself.  Then [iadd(a, b)] returns [a], which is again such a mapping:
    its keys are those it had, in their order, followed by the other keys
    of [b], in their order, and under every key it holds the sum of what
    the two held, a key that one of them lacks counting for nothing.
    Every object other than [a] is as it was. *)
Theorem iadd_int_mappings fuel h a b ca cb :
  int_mapping h a ca → int_mapping h b cb → ca ≠ Counter →
  issubclass (TMap cb) (TMap ca) = true →
  ∃ h',
    iadd (S (S fuel)) h a b = Ok (h', a)
    ∧ int_mapping h' a ca
    ∧ keys_at h' a
      = keys_at h a ++ filter (fun k => k ∉ keys_at h a) (keys_at h b)
    ∧ (∀ k, int_slot h' a k = sum_slots (int_slot h a k) (int_slot h b k))
    ∧ (∀ l o, h !! l = Some o → l ≠ a → h' !! l = Some o).
Proof.
  intros (ia & Ha & Hnda & Hinta) (ib & Hb & Hndb & Hintb) Hca Hsub.
  rewrite (iadd_S _ _ _ _ _ _ Ha Hb).
  assert (is_Addable (ODict ca ia) = false) as -> by by destruct ca.
  cbn [is_MutableSet is_MutableMapping andb keys_of type_of].
  unfold isinstance. cbn [type_of]. rewrite Hsub. cbn [negb].
  destruct (int_mappings_loop1 fuel h a b ca cb ia ib Ha Hb Hnda Hinta Hintb)
    as (h1 & -> & Hlen1 & Hfr1 & items1 & Ha1 & Hkeys1 & Hit1).
  cbn [bind].
  destruct (int_mappings_loop2 fuel h a b ca cb ia ib Ha Hb Hndb Hintb
              h1 items1 Hlen1 Hfr1 Ha1 Hkeys1)
    as (h2 & -> & Hlen2 & Hfr2 & items2 & Ha2 & Hkeys2 & Hold2 & Hnew2).
  cbn [bind]. exists h2. split; [done|].
  assert (a < length h)%nat as Halt by by eapply lookup_lt_Some.
  assert (∀ x z, h !! x = Some (OInt z) → h2 !! x = Some (OInt z)) as Hint.
  { intros x z Hx. assert (x ≠ a) as Hne by (intros ->; congruence).
    rewrite Hfr2, Hfr1; [done|by eapply lookup_lt_Some|done..]. }
  assert (∀ k,
    match assoc k ia, assoc k ib with
    | Some x, Some y =>
        ∃ z zx zy, assoc k items2 = Some z ∧ h2 !! z = Some (OInt (zx + zy))
                   ∧ h !! x = Some (OInt zx) ∧ h !! y = Some (OInt zy)
    | Some x, None => assoc k items2 = Some x
    | None, y => assoc k items2 = y
    end) as Hmerge.
  { intros k. destruct (assoc k ia) as [x|] eqn:Hx.
    - assert (k ∈ ia.*1) as Hk by (apply assoc_is_Some; by eexists).
      rewrite Hold2 by by rewrite Hkeys1.
      destruct (Hit1 k x Hx) as [Hdone Hnot].
      destruct (assoc k ib) as [y|] eqn:Hy.
      + destruct (Hdone Hk y eq_refl) as (z & zx & zy & Hz & Hcz & Hzx & Hzy).
        exists z, zx, zy. split_and!; [done| |done..].
        rewrite Hfr2; [done|]. intros ->. congruence.
      + by apply Hnot.
    - apply assoc_None in Hx.
      destruct (assoc k ib) as [y|] eqn:Hy.
      + rewrite Hnew2; [done| |by rewrite Hkeys1].
        apply assoc_is_Some. by eexists.
      + apply assoc_None. rewrite Hkeys2, Hkeys1.
        intros [?|Hin]%elem_of_app; [done|].
        apply list_elem_of_filter in Hin as [_ Hin].
        by apply assoc_None in Hy. }
  assert (items2.*1 = ia.*1 ++ filter (fun k => k ∉ ia.*1) ib.*1) as Hkeys.
  { by rewrite Hkeys2, Hkeys1. }
  split_and!.
  - exists items2. split; [done|]. split.
    + rewrite Hkeys. apply NoDup_app. split_and!; [done| |].
      * intros k Hk Hin. by apply list_elem_of_filter in Hin as [? _].
      * by apply NoDup_filter.
    + intros k x Hkx. specialize (Hmerge k). rewrite Hkx in Hmerge.
      destruct (assoc k ia) as [x0|] eqn:Hx0, (assoc k ib) as [y0|] eqn:Hy0.
      * destruct Hmerge as (z & zx & zy & [= ->] & Hz & _). by eexists.
      * injection Hmerge as ->. destruct (Hinta k x0 Hx0) as [z Hz].
        exists z. by apply Hint.
      * injection Hmerge as ->. destruct (Hintb k y0 Hy0) as [z Hz].
        exists z. by apply Hint.
      * done.
  - unfold keys_at. rewrite Ha2, Ha, Hb. done.
  - intros k. unfold int_slot, slot. rewrite Ha2, Ha, Hb.
    specialize (Hmerge k).
    destruct (assoc k ia) as [x0|] eqn:Hx0, (assoc k ib) as [y0|] eqn:Hy0.
    + destruct Hmerge as (z & zx & zy & -> & -> & -> & ->). done.
    + rewrite Hmerge. destruct (Hinta k x0 Hx0) as [z Hz].
      by rewrite Hz, (Hint _ _ Hz).
    + rewrite Hmerge. destruct (Hintb k y0 Hy0) as [z Hz].
      by rewrite Hz, (Hint _ _ Hz).
    + by rewrite Hmerge.
  - intros l o Ho Hne. rewrite Hfr2, Hfr1; [done|by eapply lookup_lt_Some|done..].
Qed.

(** [{x: 1, y: 2}] and [{y: 10, z: 3}] are mappings of integers. *)
Lemma heap_xy_yz_int_mappings :
  int_mapping heap_xy_yz 2 Dict ∧ int_mapping heap_xy_yz 5 Dict.
Proof.
  split; eexists; (split; [reflexivity|]); split.
  - apply NoDup_cons. split; [|apply NoDup_singleton].
    by intros ?%list_elem_of_singleton.
  - intros k x. simpl. repeat case_decide; intros [= <-]; by eexists.
  - apply NoDup_cons. split; [|apply NoDup_singleton].
    by intros ?%list_elem_of_singleton.
  - intros k x. simpl. repeat case_decide; intros [= <-]; by eexists.
Qed.

Lemma iadd_int_mappings_witness :
  ∃ h',
    iadd 2 heap_xy_yz 2 5 = Ok (h', 2%nat)
    ∧ keys_at h' 2 = ["x"; "y"; "z"]%string
    ∧ int_slot h' 2 "x" = Some 1 ∧ int_slot h' 2 "y" = Some 12
    ∧ int_slot h' 2 "z" = Some 3.
Proof.
  destruct heap_xy_yz_int_mappings as [Ha Hb].
  destruct (iadd_int_mappings 0 heap_xy_yz 2 5 Dict Dict Ha Hb)
    as (h' & Hiadd & _ & Hkeys & Hslots & _); [done|reflexivity|].
  exists h'. split; [exact Hiadd|]. split; [exact Hkeys|].
  rewrite !Hslots. by split_and!.
Defined.

(** ** Mappings of integers: [add] and [accumulate] *)

Lemma int_slot_assoc h d c items k :
  h !! d = Some (ODict c items) →
  int_slot h d k
  = match assoc k items with
    | Some x => match h !! x with Some (OInt z) => Some z | _ => None end
    | None => None
    end.
Proof. intros Hd. unfold int_slot, slot. by rewrite Hd. Qed.

Lemma view_dict_intro n h d c (items : list (string * loc)) vitems :
  h !! d = Some (ODict c items) → NoDup items.*1 →
  mapM (fun '(k, v) => pair k <$> view n h v) items = Some vitems →
  view (S n) h d = Some (VDict c vitems).
Proof.
  intros Hd Hnd Hm. simpl. rewrite Hd, decide_True by done. by rewrite Hm.
Qed.

(** The value of a mapping of integers. *)
Lemma int_mapping_view n h d c :
  int_mapping h d c →
  ∃ vitems,
    view (S (S n)) h d = Some (VDict c vitems)
    ∧ vitems.*1 = keys_at h d
    ∧ ∀ k, assoc k vitems = VInt <$> int_slot h d k.
Proof.
  intros (items & Hd & Hnd & Hint).
  assert (∃ vitems,
    mapM (fun '(k, v) => pair k <$> view (S n) h v) items = Some vitems
    ∧ vitems.*1 = items.*1
    ∧ ∀ k, assoc k vitems
           = VInt <$> match assoc k items with
                      | Some x =>
                          match h !! x with Some (OInt z) => Some z | _ => None end
                      | None => None
                      end) as (vitems & Hm & Hk & Hv).
  { clear Hd. induction items as [|[k0 x0] items IH].
    - by exists [].
    - rewrite fmap_cons in Hnd. apply NoDup_cons in Hnd as [Hk0 Hnd].
      destruct (Hint k0 x0) as [z0 Hz0].
      { simpl. by rewrite decide_True. }
      destruct IH as (vrest & Hm & Hk & Hv); [done| |].
      { intros k x Hkx. apply (Hint k). simpl.
        rewrite decide_False; [done|]. intros ->. apply Hk0.
        apply assoc_is_Some. by eexists. }
      exists ((k0, VInt z0) :: vrest). split_and!.
      + apply mapM_Some. constructor; [|by apply mapM_Some].
        simpl. by rewrite Hz0.
      + rewrite !fmap_cons. by rewrite Hk.
      + intros k. simpl. destruct (decide (k = k0)); [by rewrite Hz0|done]. }
  exists vitems. split_and!.
  - by eapply view_dict_intro.
  - unfold keys_at. by rewrite Hd.
  - intros k. by rewrite Hv, (int_slot_assoc _ _ _ _ _ Hd).
Qed.

(** A mapping whose value holds integers only is a mapping of integers. *)
Lemma view_int_mapping n h r c vitems :
  view (S (S n)) h r = Some (VDict c vitems) →
  (∀ k v, assoc k vitems = Some v → ∃ z, v = VInt z) →
  int_mapping h r c ∧ keys_at h r = vitems.*1
  ∧ ∀ k, VInt <$> int_slot h r k = assoc k vitems.
Proof.
  intros Hv Hints. apply view_inv in Hv as (items & Hr & Hnd & Hm).
  assert (∀ k,
    match assoc k items, assoc k vitems with
    | Some x, Some v => ∃ z, v = VInt z ∧ h !! x = Some (OInt z)
    | None, None => True
    | _, _ => False
    end) as Hkey.
  { intros k. pose proof (items_assoc_view _ _ _ _ k Hm) as Hk.
    destruct (assoc k items) as [x|], (assoc k vitems) as [v|] eqn:Hkv;
      try done.
    destruct (Hints k v Hkv) as [z ->]. exists z. split; [done|].
    by apply view_inv in Hk. }
  split_and!.
  - exists items. split; [done|]. split; [done|].
    intros k x Hx. specialize (Hkey k). rewrite Hx in Hkey.
    destruct (assoc k vitems); [|done]. destruct Hkey as (z & _ & Hz).
    by exists z.
  - unfold keys_at. rewrite Hr. simpl.
    by rewrite (items_view_keys_eq _ _ _ _ Hm).
  - intros k. rewrite (int_slot_assoc _ _ _ _ _ Hr). specialize (Hkey k).
    destruct (assoc k items) as [x|], (assoc k vitems) as [v|]; try done.
    destruct Hkey as (z & -> & ->). done.
Qed.

(** [add] on two mappings of integers. *)
Lemma add_int_mappings fuel h a b ca cb c :
  int_mapping h a ca → int_mapping h b cb → ca ≠ Counter →
  merge_class ca cb = Ok c →
  ∃ h' r,
    add (S (S fuel)) h a b = Ok (h', r)
    ∧ (length h ≤ r)%nat
    ∧ int_mapping h' r c
    ∧ keys_at h' r
      = keys_at h a ++ filter (fun k => k ∉ keys_at h a) (keys_at h b)
    ∧ (∀ k, int_slot h' r k = sum_slots (int_slot h a k) (int_slot h b k))
    ∧ (∀ l o, h !! l = Some o → h' !! l = Some o).
Proof.
  intros Hia Hib Hca Hc.
  destruct (int_mapping_view fuel _ _ _ Hia) as (via & Hva & Hka & Hla).
  destruct (int_mapping_view fuel _ _ _ Hib) as (vib & Hvb & Hkb & Hlb).
  assert (NoDup via.*1) as Hnda.
  { destruct Hia as (ia & Ha & Hnd & _). rewrite Hka. unfold keys_at.
    by rewrite Ha. }
  assert (NoDup vib.*1) as Hndb.
  { destruct Hib as (ib & Hb & Hnd & _). rewrite Hkb. unfold keys_at.
    by rewrite Hb. }
  assert (val_Addable (VDict ca via) && val_Addable (VDict cb vib) = false)
    as Hadd by by destruct ca.
  destruct (add_val_dict_ok ca via cb vib Hadd) as [v Hv];
    [by eexists| |done|].
  { intros k x y Hx Hy. rewrite Hla in Hx. rewrite Hlb in Hy.
    destruct (int_slot h a k); [|done]. destruct (int_slot h b k); [|done].
    injection Hx as <-. injection Hy as <-. by eexists. }
  pose proof (add_value _ _ _ _ _ _ Hva Hvb) as Hval. rewrite Hv in Hval.
  destruct Hval as (h' & r & Hadd' & Hvr).
  destruct (add_val_dict _ _ _ _ _ Hnda Hndb Hadd Hv)
    as (c' & ir & -> & Hc' & Hkeys & Hboth & Hleft & Hright).
  assert (c' = c) as -> by congruence.
  assert (∀ k, assoc k ir
               = VInt <$> sum_slots (int_slot h a k) (int_slot h b k)) as Hir.
  { intros k. specialize (Hla k). specialize (Hlb k).
    destruct (int_slot h a k) as [za|], (int_slot h b k) as [zb|];
      simpl in *.
    - destruct (Hboth k _ _ Hla Hlb) as (z & Hz & ->). by injection Hz as <-.
    - by apply Hleft.
    - by apply Hright.
    - apply assoc_None. rewrite Hkeys. apply assoc_None in Hla, Hlb.
      intros [?|Hin]%elem_of_app; [done|].
      by apply list_elem_of_filter in Hin as [_ ?]. }
  destruct (view_int_mapping _ _ _ _ _ Hvr) as (Hint & Hkr & Hlr).
  { intros k v Hkv. rewrite Hir in Hkv.
    destruct (sum_slots _ _) as [z|]; [|done]. injection Hkv as <-.
    by exists z. }
  exists h', r. split_and!; [done| |done| | |].
  - apply add_result_range in Hadd'. lia.
  - by rewrite Hkr, Hkeys, Hka, Hkb.
  - intros k. specialize (Hlr k). rewrite Hir in Hlr.
    destruct (int_slot h' r k), (sum_slots _ _); simpl in Hlr; congruence.
  - intros l o. apply frame_all_lookup. by eapply add_frame.
Qed.

(** A mapping of integers stays one while its objects are kept. *)
Lemma int_mapping_keep h hc x c :
  (∀ l o, h !! l = Some o → hc !! l = Some o) →
  int_mapping h x c →
  int_mapping hc x c ∧ keys_at hc x = keys_at h x
  ∧ ∀ k, int_slot hc x k = int_slot h x k.
Proof.
  intros Hkeep (items & Hx & Hnd & Hint).
  pose proof (Hkeep _ _ Hx) as Hx'. split_and!.
  - exists items. split; [done|]. split; [done|].
    intros k y Hy. destruct (Hint k y Hy) as [z Hz]. exists z. by apply Hkeep.
  - unfold keys_at. by rewrite Hx, Hx'.
  - intros k. rewrite (int_slot_assoc _ _ _ _ _ Hx),
      (int_slot_assoc _ _ _ _ _ Hx').
    destruct (assoc k items) as [y|] eqn:Hy; [|done].
    destruct (Hint k y Hy) as [z Hz]. by rewrite Hz, (Hkeep _ _ Hz).
Qed.

Lemma issubclass_refl t : issubclass t t = true.
Proof.
  destruct t as [| | | | |[]]; simpl; try done; by rewrite bool_decide_eq_true_2.
Qed.

Lemma iadd_loop_int_mappings fuel h c (rest : list loc) :
  c ≠ Counter → Forall (fun l => int_mapping h l c) rest →
  ∀ hc r,
    (length h ≤ r)%nat → int_mapping hc r c →
    (∀ l o, h !! l = Some o → hc !! l = Some o) →
    ∃ h',
      iadd_loop (S (S fuel)) hc r rest = Ok (h', r)
      ∧ int_mapping h' r c
      ∧ keys_at h' r
        = foldl (fun acc l => acc ++ filter (fun k => k ∉ acc) (keys_at h l))
                (keys_at hc r) rest
      ∧ (∀ k, int_slot h' r k
              = foldl (fun s l => sum_slots s (int_slot h l k))
                      (int_slot hc r k) rest)
      ∧ (∀ l o, h !! l = Some o → h' !! l = Some o).
Proof.
  intros Hc. induction 1 as [|x rest Hx Hrest IH]; intros hc r Hr Hint Hkeep.
  - exists hc. by split_and!.
  - cbn [iadd_loop foldl].
    destruct (int_mapping_keep _ _ _ _ Hkeep Hx) as (Hx' & Hkx & Hsx).
    destruct (iadd_int_mappings fuel hc r x c c Hint Hx' Hc
                (issubclass_refl _))
      as (h5 & -> & Hint5 & Hkeys5 & Hslots5 & Hfr5).
    cbn [bind].
    destruct (IH h5 r Hr Hint5) as (h' & Hloop & Hint' & Hkeys' & Hslots' & Hkeep').
    { intros l o Ho. apply Hfr5; [by apply Hkeep|].
      apply lookup_lt_Some in Ho. lia. }
    exists h'. split_and!; [done..| | |done].
    + by rewrite Hkeys', Hkeys5, Hkx.
    + intros k. by rewrite Hslots', Hslots5, Hsx.
Qed.

Lemma sum_slots_None_l y : sum_slots None y = y.
Proof. done. Qed.

Lemma sum_slots_swap s x y :
  sum_slots (sum_slots s x) y = sum_slots (sum_slots s y) x.
Proof. destruct s, x, y; simpl; f_equal; lia. Qed.

Lemma foldl_sum_slots_perm {A} (f : A → option Z) (l l' : list A) :
  l ≡ₚ l' →
  ∀ s, foldl (fun s x => sum_slots s (f x)) s l
       = foldl (fun s x => sum_slots s (f x)) s l'.
Proof.
  induction 1 as [|x l l' _ IH|x y l|l1 l2 l3 _ IH1 _ IH2]; intros s; simpl.
  - done.
  - apply IH.
  - by rewrite sum_slots_swap.
  - by rewrite IH1.
Qed.

Lemma filter_all {A} (P : A → Prop) `{∀ x, Decision (P x)} (l : list A) :
  (∀ x, x ∈ l → P x) → filter P l = l.
Proof.
  induction l as [|x l IH]; intros Hl; [done|].
  rewrite filter_cons_True by (apply Hl; left).
  f_equal. apply IH. intros y Hy. apply Hl. by right.
Qed.

Lemma accumulate_int_mappings_fold fuel h c (ls : list loc) :
  c ≠ Counter → ls ≠ [] → Forall (fun l => int_mapping h l c) ls →
  ∃ h' r,
    accumulate (S (S fuel)) h (Some <$> ls) None = Ok (h', Some r)
    ∧ int_mapping h' r c
    ∧ keys_at h' r
      = foldl (fun acc l => acc ++ filter (fun k => k ∉ acc) (keys_at h l))
              [] ls
    ∧ (∀ k, int_slot h' r k
            = foldl (fun s l => sum_slots s (int_slot h l k)) None ls)
    ∧ (∀ l o, h !! l = Some o → h' !! l = Some o).
Proof.
  intros Hc Hne Hls. unfold accumulate. rewrite omap_id_Some.
  destruct ls as [|x1 [|x2 rest]]; [done| |].
  - apply Forall_cons in Hls as [H1 _]. exists h, x1. cbn [foldl].
    split_and!; [done..| | |done].
    + simpl. rewrite filter_all; [done|]. intros k _. apply not_elem_of_nil.
    + done.
  - apply Forall_cons in Hls as [H1 Hls]. apply Forall_cons in Hls as [H2 Hls].
    assert (merge_class c c = Ok c) as Hmc.
    { unfold merge_class. by rewrite issubclass_refl. }
    destruct (add_int_mappings fuel h x1 x2 c c c H1 H2 Hc Hmc)
      as (h1 & r & -> & Hr & Hint1 & Hkeys1 & Hslots1 & Hkeep1).
    cbn [bind].
    destruct (iadd_loop_int_mappings fuel h c rest Hc Hls h1 r Hr Hint1 Hkeep1)
      as (h' & -> & Hint' & Hkeys' & Hslots' & Hkeep').
    cbn [bind]. exists h', r. split_and!; [done..| | |done].
    + rewrite Hkeys', Hkeys1. cbn [foldl]. simpl.
      rewrite (filter_all _ (keys_at h x1)); [done|].
      intros k _. apply not_elem_of_nil.
    + intros k. by rewrite Hslots', Hslots1.
Qed.

(** X10.  For mappings of integers of one class, which is not [Counter]
    -- such as the cut flows of an analysis --, [accumulate] returns a
    mapping of integers that holds under every key the sum of what the
    items hold under it, an item that lacks the key counting for nothing;
    its keys come in the order in which the items bring them.  No item is
    changed.  The sums do not depend on the order of the items, though the
    order of the keys may. *)
Theorem accumulate_int_mappings fuel h c (ls : list loc) :
  c ≠ Counter → ls ≠ [] → Forall (fun l => int_mapping h l c) ls →
  ∃ h' r,
    accumulate (S (S fuel)) h (Some <$> ls) None = Ok (h', Some r)
    ∧ int_mapping h' r c
    ∧ keys_at h' r
      = foldl (fun acc l => acc ++ filter (fun k => k ∉ acc) (keys_at h l))
              [] ls
    ∧ (∀ k, int_slot h' r k
            = foldl (fun s l => sum_slots s (int_slot h l k)) None ls)
    ∧ (∀ l o, h !! l = Some o → h' !! l = Some o)
    ∧ ∀ ls', ls ≡ₚ ls' →
        ∃ h'' r',
          accumulate (S (S fuel)) h (Some <$> ls') None = Ok (h'', Some r')
          ∧ ∀ k, int_slot h'' r' k = int_slot h' r k.
Proof.
  intros Hc Hne Hls.
  destruct (accumulate_int_mappings_fold fuel h c ls Hc Hne Hls)
    as (h' & r & Hacc & Hint & Hkeys & Hslots & Hkeep).
  exists h', r. split_and!; [done..|].
  intros ls' Hperm.
  destruct (accumulate_int_mappings_fold fuel h c ls' Hc)
    as (h'' & r' & Hacc' & _ & _ & Hslots' & _).
  { intros ->. by apply Permutation_nil_r in Hperm. }
  { by rewrite <- Hperm. }
  exists h'', r'. split; [done|]. intros k.
  rewrite Hslots', Hslots. symmetry. by apply foldl_sum_slots_perm.
Qed.

Lemma accumulate_int_mappings_witness :
  ∃ h' r,
    accumulate 2 heap_xy_yz [Some 2%nat; Some 5%nat; Some 2%nat] None
    = Ok (h', Some r)
    ∧ keys_at h' r = ["x"; "y"; "z"]%string
    ∧ int_slot h' r "x" = Some 2 ∧ int_slot h' r "y" = Some 14
    ∧ int_slot h' r "z" = Some 3.
Proof.
  destruct heap_xy_yz_int_mappings as [Ha Hb].
  destruct (accumulate_int_mappings 0 heap_xy_yz Dict [2; 5; 2]%nat)
    as (h' & r & Hacc & _ & Hkeys & Hslots & _); [done|done| |].
  { by repeat constructor. }
  exists h', r. split; [exact Hacc|]. split; [exact Hkeys|].
  rewrite !Hslots. by split_and!.
Defined.

(** ** [add] does not depend on the order of its operands *)

Lemma val_equiv_view n : ∀ h x v, view n h x = Some v → val_equiv v v.
Proof.
  induction n as [|n IH]; intros h x v Hv; [done|].
  pose proof (view_inv _ _ _ _ Hv) as Hinv.
  destruct v as [z|s| |vs|s|c vitems]; try by constructor.
  - destruct Hinv as (items & _ & Hm). constructor.
    apply mapM_Some in Hm. apply Forall_Forall2_diag.
    apply Forall_forall. intros v Hin.
    apply list_elem_of_lookup in Hin as [i Hi].
    destruct (Forall2_lookup_r _ _ _ _ _ Hm Hi) as (c & _ & Hc).
    by eapply IH.
  - destruct Hinv as (items & _ & _ & Hm). constructor. intros k.
    destruct (assoc k vitems) as [v|] eqn:Hk; constructor.
    destruct (items_view_elem _ _ _ _ k v Hm) as [c' Hc'].
    { by apply assoc_Some_elem. }
    by eapply IH.
Qed.

Lemma merge_class_sym ca cb c :
  merge_class ca cb = Ok c → merge_class cb ca = Ok c.
Proof. destruct ca, cb; simpl; by intros [= <-]. Qed.

Lemma merge_class_Err_sym ca cb e :
  merge_class ca cb = Err e → ∃ e', merge_class cb ca = Err e'.
Proof. destruct ca, cb; simpl; try done; by eexists. Qed.

Lemma commutes_dict c (items : list (string * pyval)) :
  commutes (VDict c items) = true →
  c ≠ Counter ∧ ∀ k x, (k, x) ∈ items → commutes x = true.
Proof.
  simpl. intros [Hc Hall]%andb_true_iff. split.
  - by apply bool_decide_eq_true in Hc.
  - intros k x Hin. rewrite forallb_forall in Hall.
    by apply (Hall (k, x)), list_elem_of_In.
Qed.

Lemma add_val_comm n : ∀ h a b va vb,
  view n h a = Some va → view n h b = Some vb →
  commutes va = true → commutes vb = true →
  match add_val va vb, add_val vb va with
  | Ok v, Ok w => val_equiv v w
  | Err _, Err _ => True
  | _, _ => False
  end.
Proof.
  induction n as [|n IH]; intros h a b va vb Ha Hb Hca Hcb; [done|].
  destruct va as [x|x| |vxs|x|ca ia]; try done;
    destruct vb as [y|y| |vys|y|cb ib]; try done.
  - simpl. rewrite Z.add_comm. constructor.
  - by destruct cb; simpl in *.
  - simpl. rewrite (comm_L (∪) x y). constructor.
  - by destruct cb; simpl in *.
  - by destruct ca; simpl in *.
  - by destruct ca; simpl in *.
  - (* two mappings *)
    apply commutes_dict in Hca as [Hca Hia]. apply commutes_dict in Hcb as [Hcb Hib].
    apply view_inv in Ha as (ia' & _ & Hnda & Hma).
    apply view_inv in Hb as (ib' & _ & Hndb & Hmb).
    rewrite <- (items_view_keys_eq _ _ _ _ Hma) in Hnda.
    rewrite <- (items_view_keys_eq _ _ _ _ Hmb) in Hndb.
    assert (val_Addable (VDict ca ia) && val_Addable (VDict cb ib) = false)
      as Hadd by by destruct ca.
    assert (val_Addable (VDict cb ib) && val_Addable (VDict ca ia) = false)
      as Hadd' by by destruct cb.
    assert (∀ k x y, assoc k ia = Some x → assoc k ib = Some y →
              match add_val x y, add_val y x with
              | Ok v, Ok w => val_equiv v w
              | Err _, Err _ => True
              | _, _ => False
              end) as Hshared.
    { intros k x y Hx Hy.
      apply assoc_Some_elem in Hx, Hy.
      destruct (items_view_elem _ _ _ _ k x Hma Hx) as [cx Hcx].
      destruct (items_view_elem _ _ _ _ k y Hmb Hy) as [cy Hcy].
      eapply (IH h cx cy); [done..| |]; [by eapply Hia|by eapply Hib]. }
    destruct (add_val (VDict ca ia) (VDict cb ib)) as [v|e] eqn:H1,
             (add_val (VDict cb ib) (VDict ca ia)) as [w|e'] eqn:H2; [| | |done].
    + destruct (add_val_dict _ _ _ _ _ Hnda Hndb Hadd H1)
        as (c & ir & -> & Hc & Hkeys & Hboth & Hleft & Hright).
      destruct (add_val_dict _ _ _ _ _ Hndb Hnda Hadd' H2)
        as (c' & ir' & -> & Hc' & Hkeys' & Hboth' & Hleft' & Hright').
      apply merge_class_sym in Hc'. assert (c' = c) as -> by congruence.
      constructor. intros k.
      destruct (assoc k ia) as [x|] eqn:Hx, (assoc k ib) as [y|] eqn:Hy.
      * destruct (Hboth k x y Hx Hy) as (z & Hz & ->).
        destruct (Hboth' k y x Hy Hx) as (z' & Hz' & ->).
        constructor. specialize (Hshared k x y Hx Hy).
        by rewrite Hz, Hz' in Hshared.
      * rewrite (Hleft k x Hx Hy), (Hright' k x Hy Hx). constructor.
        apply assoc_Some_elem in Hx.
        destruct (items_view_elem _ _ _ _ k x Hma Hx) as [cx Hcx].
        by eapply val_equiv_view.
      * rewrite (Hright k y Hx Hy), (Hleft' k y Hy Hx). constructor.
        apply assoc_Some_elem in Hy.
        destruct (items_view_elem _ _ _ _ k y Hmb Hy) as [cy Hcy].
        by eapply val_equiv_view.
      * apply assoc_None in Hx, Hy.
        assert (assoc k ir = None) as ->.
        { apply assoc_None. rewrite Hkeys.
          intros [?|Hin]%elem_of_app; [done|].
          by apply list_elem_of_filter in Hin as [_ ?]. }
        assert (assoc k ir' = None) as ->.
        { apply assoc_None. rewrite Hkeys'.
          intros [?|Hin]%elem_of_app; [done|].
          by apply list_elem_of_filter in Hin as [_ ?]. }
        constructor.
    + destruct (add_val_dict _ _ _ _ _ Hnda Hndb Hadd H1)
        as (c & ir & -> & Hc & Hkeys & Hboth & _).
      destruct (add_val_dict_ok cb ib ca ia Hadd') as [w Hw];
        [exists c; by apply merge_class_sym| |done|congruence].
      intros k y x Hy Hx. destruct (Hboth k x y Hx Hy) as (z & Hz & _).
      specialize (Hshared k x y Hx Hy). rewrite Hz in Hshared.
      destruct (add_val y x); [by eexists|done].
    + destruct (add_val_dict _ _ _ _ _ Hndb Hnda Hadd' H2)
        as (c & ir & -> & Hc & Hkeys & Hboth & _).
      destruct (add_val_dict_ok ca ia cb ib Hadd) as [v Hv];
        [exists c; by apply merge_class_sym| |done|congruence].
      intros k x y Hx Hy. destruct (Hboth k y x Hy Hx) as (z & Hz & _).
      specialize (Hshared k x y Hx Hy). rewrite Hz in Hshared.
      destruct (add_val x y); [by eexists|done].
Qed.

(** X11.  On operands with finite values made of integers, sets and
    mappings other than [Counter]s, however nested, [add(a, b)] and
    [add(b, a)] both return or both raise; and when they return, the two
    results have the same value up to the order of the keys of the
    mappings in them. *)
Theorem add_commutes n h a b va vb :
  view n h a = Some va → view n h b = Some vb →
  commutes va = true → commutes vb = true →
  match add n h a b, add n h b a with
  | Ok (h1, r1), Ok (h2, r2) =>
      ∃ v w, view n h1 r1 = Some v ∧ view n h2 r2 = Some w ∧ val_equiv v w
  | Err _, Err _ => True
  | _, _ => False
  end.
Proof.
  intros Ha Hb Hca Hcb.
  pose proof (add_val_comm n h a b va vb Ha Hb Hca Hcb) as Hcomm.
  pose proof (add_value n h a b va vb Ha Hb) as H1.
  pose proof (add_value n h b a vb va Hb Ha) as H2.
  destruct (add_val va vb) as [v|e], (add_val vb va) as [w|e']; try done.
  - destruct H1 as (h1 & r1 & -> & Hv). destruct H2 as (h2 & r2 & -> & Hw).
    by exists v, w.
  - by rewrite H1, H2.
Qed.

Lemma add_commutes_witness :
  ∃ h1 r1 h2 r2 v w,
    add 3 heap_nested 2 6 = Ok (h1, r1) ∧ add 3 heap_nested 6 2 = Ok (h2, r2)
    ∧ view 3 h1 r1 = Some v ∧ view 3 h2 r2 = Some w ∧ val_equiv v w.
Proof.
  pose proof (add_commutes 3 heap_nested 2 6 _ _ eq_refl eq_refl
                eq_refl eq_refl) as H.
  destruct (add 3 heap_nested 2 6) as [[h1 r1]|e] eqn:H1;
    destruct (add 3 heap_nested 6 2) as [[h2 r2]|e'] eqn:H2;
    try discriminate H1; try discriminate H2.
  destruct H as (v & w & Hv & Hw & Hvw).
  by exists h1, r1, h2, r2, v, w.
Defined.

(** ** The [ValueError]s name types that do not combine *)

Lemma bind_Err {A B} (m : result A) (k : A → result B) e :
  bind m k = Err e → m = Err e ∨ ∃ x, m = Ok x ∧ k x = Err e.
Proof. destruct m as [x|e']; simpl; intros H; [right; by exists x|left; by injection H as ->]. Qed.

Lemma iterate_Err d n body ks h e :
  iterate d n body ks h = Err e →
  e = RuntimeError ∨ ∃ hc k, body hc k = Err e.
Proof.
  revert h. induction ks as [|k ks IH]; intros h H; [done|].
  cbn [iterate] in H. apply bind_Err in H as [H|(h1 & Hb & H)].
  - right. by exists h, k.
  - destruct (decide _); [by eapply IH|]. left. by injection H as <-.
Qed.

Lemma foldM_Err {A S} (f : S → A → result S) (l : list A) s e :
  foldM f l s = Err e → ∃ s' x, f s' x = Err e.
Proof.
  intros (pre & x & suf & s' & _ & _ & H)%foldM_Err_first. by exists s', x.
Qed.

(** The primitives raise no [ValueError]. *)
Lemma deref_Err h l e : deref h l = Err e → is_ValueError e = false.
Proof. unfold deref. destruct (h !! l); [done|]. by intros [= <-]. Qed.

Ltac prim_Err H :=
  repeat match type of H with
    | bind (deref _ _) _ = Err _ =>
        let o := fresh "o" in
        apply bind_Err in H as [H|(o & _ & H)]; [by eapply deref_Err|]
    | match ?x with _ => _ end = Err _ => destruct x
    | Err _ = Err _ => by injection H as <-
    | Ok _ = Err _ => discriminate H
    | (let '(_, _) := ?x in _) = Err _ => destruct x
    end.

Lemma int_at_Err h l e : int_at h l = Err e → is_ValueError e = false.
Proof. unfold int_at. intros H. prim_Err H. Qed.

Lemma count_at_Err h items elem e :
  count_at h items elem = Err e → is_ValueError e = false.
Proof.
  unfold count_at. destruct (assoc elem items); [apply int_at_Err|done].
Qed.

Lemma getitem_Err h d key e : getitem h d key = Err e → is_ValueError e = false.
Proof. unfold getitem. intros H. prim_Err H. Qed.

Lemma setitem_Err h d key v e :
  setitem h d key v = Err e → is_ValueError e = false.
Proof. unfold setitem. intros H. prim_Err H. Qed.

Lemma clear_Err h d e : clear h d = Err e → is_ValueError e = false.
Proof. unfold clear. intros H. prim_Err H. Qed.

Lemma copy_copy_Err h x e : copy_copy h x = Err e → is_ValueError e = false.
Proof. unfold copy_copy. intros H. prim_Err H. Qed.

Lemma list_append_Err h y v e :
  list_append h y v = Err e → is_ValueError e = false.
Proof. unfold list_append. intros H. prim_Err H. Qed.

Lemma keep_positive_Err h items e :
  keep_positive h items = Err e → is_ValueError e = false.
Proof.
  induction items as [|[elem c] items IH]; [done|]. cbn [keep_positive].
  intros H. apply bind_Err in H as [H|(z & _ & H)]; [by eapply int_at_Err|].
  apply bind_Err in H as [H|(rest & _ & H)]; [by apply IH|done].
Qed.

Lemma Counter_add_Err h self other e :
  Counter_add h self other = Err e → is_ValueError e = false.
Proof.
  unfold Counter_add. intros H.
  apply bind_Err in H as [H|([h1 res1] & _ & H)].
  - apply foldM_Err in H as ([hc res] & [elem c] & H).
    apply bind_Err in H as [H|(x & _ & H)]; [by eapply int_at_Err|].
    apply bind_Err in H as [H|(y & _ & H)]; [by eapply count_at_Err|].
    by destruct (0 <? _).
  - apply bind_Err in H as [H|(res2 & _ & H)]; [|done].
    apply foldM_Err in H as (res & [elem c] & H).
    destruct (assoc elem self); [done|].
    apply bind_Err in H as [H|(y & _ & H)]; [by eapply int_at_Err|].
    by destruct (0 <? _).
Qed.

Lemma Counter_iadd_Err h a self other e :
  Counter_iadd h a self other = Err e → is_ValueError e = false.
Proof.
  unfold Counter_iadd. intros H.
  apply bind_Err in H as [H|([h1 items1] & _ & H)].
  - apply foldM_Err in H as ([hc items] & [elem c] & H).
    apply bind_Err in H as [H|(x & _ & H)]; [by eapply count_at_Err|].
    apply bind_Err in H as [H|(y & _ & H)]; [by eapply int_at_Err|done].
  - apply bind_Err in H as [H|(items2 & _ & H)]; [|done].
    by eapply keep_positive_Err.
Qed.

Lemma operator_add_Err h a b e :
  operator_add h a b = Err e → is_ValueError e = false.
Proof.
  unfold operator_add. intros H.
  apply bind_Err in H as [H|(oa & _ & H)]; [by eapply deref_Err|].
  apply bind_Err in H as [H|(ob & _ & H)]; [by eapply deref_Err|].
  destruct oa as [| | | | |[] ?], ob as [| | | | |[] ?];
    try (by injection H as <-); try done.
  by eapply Counter_add_Err.
Qed.

Lemma operator_iadd_Err h a b e :
  operator_iadd h a b = Err e → is_ValueError e = false.
Proof.
  unfold operator_iadd. intros H.
  apply bind_Err in H as [H|(oa & _ & H)]; [by eapply deref_Err|].
  apply bind_Err in H as [H|(ob & _ & H)]; [by eapply deref_Err|].
  destruct oa as [| | | | |[] ?];
    try (by eapply operator_add_Err); try (by injection H as <-);
    destruct ob as [| | | | |[] ?];
    try (by injection H as <-); try done.
  by eapply Counter_iadd_Err.
Qed.

Lemma operator_or_Err h a b e :
  operator_or h a b = Err e → is_ValueError e = false.
Proof.
  unfold operator_or. intros H.
  apply bind_Err in H as [H|(oa & _ & H)]; [by eapply deref_Err|].
  apply bind_Err in H as [H|(ob & _ & H)]; [by eapply deref_Err|].
  destruct oa, ob; try (by injection H as <-); done.
Qed.

Lemma operator_ior_Err h a b e :
  operator_ior h a b = Err e → is_ValueError e = false.
Proof.
  unfold operator_ior. intros H.
  apply bind_Err in H as [H|(oa & _ & H)]; [by eapply deref_Err|].
  apply bind_Err in H as [H|(ob & _ & H)]; [by eapply deref_Err|].
  destruct oa, ob; try (by injection H as <-); done.
Qed.

Lemma deepcopy_memo_Err fuel : ∀ h m x e,
  deepcopy_memo fuel h m x = Err e → is_ValueError e = false.
Proof.
  induction fuel as [|fuel IH]; intros h m x e H; [by injection H as <-|].
  cbn [deepcopy_memo] in H. destruct (memo_get m x); [done|].
  apply bind_Err in H as [H|(o & _ & H)]; [by eapply deref_Err|].
  destruct o as [| | |items| |c items]; try done.
  - apply bind_Err in H as [H|([h1 m1] & _ & H)]; [|done].
    apply foldM_Err in H as ([hc mc] & item & H).
    apply bind_Err in H as [H|([[h2 m2] v] & _ & H)]; [by eapply IH|].
    apply bind_Err in H as [H|(h3 & _ & H)]; [by eapply list_append_Err|done].
  - apply bind_Err in H as [H|([h1 m1] & _ & H)]; [|done].
    apply foldM_Err in H as ([hc mc] & [key value] & H).
    apply bind_Err in H as [H|([[h2 m2] v] & _ & H)]; [by eapply IH|].
    apply bind_Err in H as [H|(h3 & _ & H)]; [by eapply setitem_Err|done].
Qed.

Lemma deepcopy_Err fuel h x e :
  deepcopy fuel h x = Err e → is_ValueError e = false.
Proof.
  unfold deepcopy. intros H.
  apply bind_Err in H as [H|([[h1 m1] y] & _ & H)]; [|done].
  by eapply deepcopy_memo_Err.
Qed.

Lemma caps_of_type o :
  is_Addable o = addable_type (type_of o)
  ∧ is_MutableSet o = set_type (type_of o)
  ∧ is_MutableMapping o = mapping_type (type_of o).
Proof. by destruct o as [| | | | |[] ?]. Qed.

Lemma not_ValueError (e : exn) (P : Prop) m ta tb :
  is_ValueError e = false → e = ValueError m ta tb → P.
Proof. by intros He ->. Qed.

(** X12.  A [ValueError] of [add], from whatever depth of the operands it
    comes, names two types that do not combine: with the message about
    accumulators, types that share none of the three categories; with the
    message about two mappings, the types of two mappings that are to be
    merged and of which neither is an instance of the other's class. *)
Theorem add_ValueError_names_mismatch fuel h a b m ta tb :
  add fuel h a b = Err (ValueError m ta tb) →
  match m with
  | Accumulators => no_common_category ta tb = true
  | TwoMappings =>
      merged_as_mappings ta tb = true
      ∧ issubclass tb ta = false ∧ issubclass ta tb = false
  end.
Proof.
  revert h a b. induction fuel as [|fuel IHadd]; intros h a b H; [done|].
  pose proof not_ValueError as Hno.
  cbn [add] in H.
  apply bind_Err in H as [H|(oa & _ & H)];
    [by eapply Hno; [eapply deref_Err|]|].
  apply bind_Err in H as [H|(ob & _ & H)];
    [by eapply Hno; [eapply deref_Err|]|].
  destruct (caps_of_type oa) as (Ha1 & Ha2 & Ha3).
  destruct (caps_of_type ob) as (Hb1 & Hb2 & Hb3).
  destruct (is_Addable oa && is_Addable ob) eqn:Hadd;
    [by eapply Hno; [eapply operator_add_Err|]|].
  destruct (is_MutableSet oa && is_MutableSet ob) eqn:Hset;
    [by eapply Hno; [eapply operator_or_Err|]|].
  destruct (is_MutableMapping oa && is_MutableMapping ob) eqn:Hmap.
  + apply bind_Err in H as [H|([h1 out] & _ & H)].
    { unfold isinstance in H.
      destruct (issubclass (type_of ob) (type_of oa)) eqn:H1;
        [by eapply Hno; [eapply copy_copy_Err|]|].
      destruct (issubclass (type_of oa) (type_of ob)) eqn:H2;
        [by eapply Hno; [eapply copy_copy_Err|]|].
      injection H as <- <- <-. unfold merged_as_mappings.
      by rewrite <- Ha1, <- Ha3, <- Hb1, <- Hb3, Hadd, Hmap. }
    apply bind_Err in H as [H|(h2 & _ & H)];
      [by eapply Hno; [eapply clear_Err|]|].
    apply bind_Err in H as [H|(h3 & _ & H)].
    { unfold for_keys in H.
      apply bind_Err in H as [H|(o & _ & H)];
        [by eapply Hno; [eapply deref_Err|]|].
      apply iterate_Err in H as [[=]|(hc & k & H)].
      destruct (bool_decide _).
      - apply bind_Err in H as [H|(va & _ & H)];
          [by eapply Hno; [eapply getitem_Err|]|].
        apply bind_Err in H as [H|(vb & _ & H)];
          [by eapply Hno; [eapply getitem_Err|]|].
        apply bind_Err in H as [H|([h5 v] & _ & H)]; [by eapply IHadd|].
        by eapply Hno; [eapply setitem_Err|].
      - apply bind_Err in H as [H|(va & _ & H)];
          [by eapply Hno; [eapply getitem_Err|]|].
        apply bind_Err in H as [H|([h5 v] & _ & H)];
          [by eapply Hno; [eapply deepcopy_Err|]|].
        by eapply Hno; [eapply setitem_Err|]. }
    apply bind_Err in H as [H|(h4 & _ & H)]; [|done].
    unfold for_keys in H.
    apply bind_Err in H as [H|(o & _ & H)];
      [by eapply Hno; [eapply deref_Err|]|].
    apply iterate_Err in H as [[=]|(hc & k & H)].
    destruct (bool_decide _); [|done].
    apply bind_Err in H as [H|(vb & _ & H)];
      [by eapply Hno; [eapply getitem_Err|]|].
    apply bind_Err in H as [H|([h5 v] & _ & H)];
      [by eapply Hno; [eapply deepcopy_Err|]|].
    by eapply Hno; [eapply setitem_Err|].
  + injection H as <- <- <-. unfold no_common_category.
    by rewrite <- Ha1, <- Ha2, <- Ha3, <- Hb1, <- Hb2, <- Hb3,
      Hadd, Hset, Hmap.
Qed.

Lemma add_ValueError_names_mismatch_witness :
  add 2 heap_k_mismatch 1 3 = Err (ValueError Accumulators TInt (TMap Dict))
  ∧ no_common_category TInt (TMap Dict) = true.
Proof.
  split; [reflexivity|].
  exact (add_ValueError_names_mismatch 2 heap_k_mismatch 1%nat 3%nat
           Accumulators TInt (TMap Dict) eq_refl).
Defined.

(** X13.  A [ValueError] of [iadd], from whatever depth of the operands
    it comes, names two types that do not combine: with the message about
    accumulators, types that share none of the three categories; with the
    message about two mappings, the types of two mappings that are to be
    merged and of which the second is no instance of the first's class. *)
Theorem iadd_ValueError_names_mismatch fuel h a b m ta tb :
  iadd fuel h a b = Err (ValueError m ta tb) →
  match m with
  | Accumulators => no_common_category ta tb = true
  | TwoMappings =>
      merged_as_mappings ta tb = true ∧ issubclass tb ta = false
  end.
Proof.
  revert h a b. induction fuel as [|fuel IHiadd]; intros h a b H; [done|].
  pose proof not_ValueError as Hno.
  cbn [iadd] in H.
  apply bind_Err in H as [H|(oa & _ & H)];
    [by eapply Hno; [eapply deref_Err|]|].
  apply bind_Err in H as [H|(ob & _ & H)];
    [by eapply Hno; [eapply deref_Err|]|].
  destruct (caps_of_type oa) as (Ha1 & Ha2 & Ha3).
  destruct (caps_of_type ob) as (Hb1 & Hb2 & Hb3).
  destruct (is_Addable oa && is_Addable ob) eqn:Hadd;
    [by eapply Hno; [eapply operator_iadd_Err|]|].
  destruct (is_MutableSet oa && is_MutableSet ob) eqn:Hset;
    [by eapply Hno; [eapply operator_ior_Err|]|].
  destruct (is_MutableMapping oa && is_MutableMapping ob) eqn:Hmap.
  + unfold isinstance in H.
    destruct (issubclass (type_of ob) (type_of oa)) eqn:H1; cbn [negb] in H.
    2:{ injection H as <- <- <-. unfold merged_as_mappings.
        by rewrite <- Ha1, <- Ha3, <- Hb1, <- Hb3, Hadd, Hmap. }
    apply bind_Err in H as [H|(h3 & _ & H)].
    { unfold for_keys in H.
      apply bind_Err in H as [H|(o & _ & H)];
        [by eapply Hno; [eapply deref_Err|]|].
      apply iterate_Err in H as [[=]|(hc & k & H)].
      destruct (bool_decide _); [|done].
      apply bind_Err in H as [H|(va & _ & H)];
        [by eapply Hno; [eapply getitem_Err|]|].
      apply bind_Err in H as [H|(vb & _ & H)];
        [by eapply Hno; [eapply getitem_Err|]|].
      apply bind_Err in H as [H|([h5 v] & _ & H)]; [by eapply IHiadd|].
      by eapply Hno; [eapply setitem_Err|]. }
    apply bind_Err in H as [H|(h4 & _ & H)]; [|done].
    unfold for_keys in H.
    apply bind_Err in H as [H|(o & _ & H)];
      [by eapply Hno; [eapply deref_Err|]|].
    apply iterate_Err in H as [[=]|(hc & k & H)].
    destruct (bool_decide _); [|done].
    apply bind_Err in H as [H|(vb & _ & H)];
      [by eapply Hno; [eapply getitem_Err|]|].
    apply bind_Err in H as [H|([h5 v] & _ & H)];
      [by eapply Hno; [eapply deepcopy_Err|]|].
    by eapply Hno; [eapply setitem_Err|].
  + injection H as <- <- <-. unfold no_common_category.
    by rewrite <- Ha1, <- Ha2, <- Ha3, <- Hb1, <- Hb2, <- Hb3,
      Hadd, Hset, Hmap.
Qed.

Lemma iadd_ValueError_names_mismatch_witness :
  iadd 1 heap_counters 2 7
    = Err (ValueError TwoMappings (TMap Counter) (TMap Dict))
  ∧ merged_as_mappings (TMap Counter) (TMap Dict) = true
  ∧ issubclass (TMap Dict) (TMap Counter) = false.
Proof.
  split; [reflexivity|].
  exact (iadd_ValueError_names_mismatch 1 heap_counters 2%nat 7%nat
           TwoMappings (TMap Counter) (TMap Dict) eq_refl).
Defined.
